(** * text-dedup: the fingerprint / shard / merge pipeline of
    [text_dedup/encoder.py], embedded in Rocq.

    A Python [str] is a list of Unicode code points ([N]); only the text that
    a UTF-8 file can hold is meant, so lone surrogates are outside the model.
    Python integers are [Z].  Exceptions are values of [exn]; a function that
    can raise returns a [result].  The file system is a finite map from paths
    to file contents, threaded through a state-and-error monad that also keeps
    the trace of the operating-system calls made so far. *)

From Stdlib Require Import ZArith NArith QArith Lia Bool Ascii String.
From stdpp Require Import base option list gmap pretty sorting.

Local Open Scope N_scope.

(** ** Strings *)

Abbreviation char := N (only parsing).
Abbreviation str := (list N) (only parsing).

(** ASCII literals, for readability of the examples. *)
Definition lit (x : string) : str := N_of_ascii <$> list_ascii_of_string x.

Definition SPACE : char := 32.
Definition LF : char := 10.
Definition CR : char := 13.
Definition SLASH : char := 47.

Definition str_eqb (a b : str) : bool := bool_decide (a = b).

(** [str.isspace] of one character: the white space that [str.strip()]
    removes. *)
Definition isspace (c : char) : bool :=
  ((9 <=? c) && (c <=? 13)) || ((28 <=? c) && (c <=? 32))
  || (c =? 133) || (c =? 160) || (c =? 5760)
  || ((8192 <=? c) && (c <=? 8202))
  || (c =? 8232) || (c =? 8233) || (c =? 8239) || (c =? 8287) || (c =? 12288).

Fixpoint lstrip (x : str) : str :=
  match x with
  | c :: x' => if isspace c then lstrip x' else x
  | [] => []
  end.

Definition rstrip (x : str) : str := rev (lstrip (rev x)).

(** [x.strip()] *)
Definition strip (x : str) : str := rstrip (lstrip x).

(** [sep.join(parts)] *)
Fixpoint join (sep : str) (parts : list str) : str :=
  match parts with
  | [] => []
  | [p] => p
  | p :: rest => p ++ sep ++ join sep rest
  end.

(** [x[b:e]] for [0 <= b <= e]; like Python, a slice past the end is cut
    short instead of failing. *)
Definition slice (b e : nat) (x : str) : str := take (e - b) (drop b x).

(** [range(0, stop, 2)] *)
Definition range2 (stop : nat) : list nat :=
  (fun i => 2 * i)%nat <$> seq 0 (Nat.div2 (stop + 1)).

(** [c in x] for a one-character string [c] *)
Definition contains (c : char) (x : str) : bool := existsb (N.eqb c) x.

(** The text before and after the first [c] of [x], when there is one. *)
Fixpoint cut (c : char) (x : str) : option (str * str) :=
  match x with
  | [] => None
  | d :: x' =>
      if d =? c then Some ([], x')
      else match cut c x' with
           | Some (pre, post) => Some (d :: pre, post)
           | None => None
           end
  end.

(** [x.split(c, 1)]: at most one split, at the first [c]. *)
Definition split1 (c : char) (x : str) : list str :=
  match cut c x with
  | Some (pre, post) => [pre; post]
  | None => [x]
  end.

(** [x.split(c)[0]]: the text before the first [c], all of [x] without. *)
Definition split_head (c : char) (x : str) : str :=
  match cut c x with
  | Some (pre, _) => pre
  | None => x
  end.

(** ** Shard router: [get_shard_path] *)

Definition shard_suffix : str := lit ".shard".

(** [[code[b: b + 2] for b in range(0, n_chars, 2)]] *)
Definition segments (code : str) : list str :=
  (fun b => slice b (b + 2) code) <$> range2 (length code).

Definition get_shard_path (shard_root code : str) : str :=
  let subpath := join [SLASH] (segments code) in
  shard_root ++ [SLASH] ++ subpath ++ shard_suffix.

(** The path [save_shards] appends a record of fingerprint [code] to:
    [get_shard_path(shard_root, code[:prefix_length])]. *)
Definition shard_path_of (shard_root : str) (prefix_length : nat) (code : str) : str :=
  get_shard_path shard_root (take prefix_length code).

(** The two-character segments, by structural recursion; [segments] computes
    the same list (lemma [segments_chunks2]). *)
Fixpoint chunks2 (x : str) : list str :=
  match x with
  | a :: b :: x' => [a; b] :: chunks2 x'
  | [a] => [[a]]
  | [] => []
  end.

(** [subpath] of [get_shard_path], on the structural segments. *)
Definition subpath_of (x : str) : str := join [SLASH] (chunks2 x).

(** ** Exceptions *)

Inductive exn :=
| ValueError | AssertionError | ZeroDivisionError | OverflowError
| IndexError | FileNotFoundError | ReError.

Inductive result (A : Type) :=
| Ok (a : A)
| Raise (e : exn).
Arguments Ok {A} a.
Arguments Raise {A} e.

#[global] Instance result_ret : MRet result := fun A a => Ok a.
#[global] Instance result_bind : MBind result := fun A B f r =>
  match r with
  | Ok a => f a
  | Raise e => Raise e
  end.
#[global] Instance result_fmap : FMap result := fun A B f r =>
  match r with
  | Ok a => Ok (f a)
  | Raise e => Raise e
  end.

Definition is_ok {A} (r : result A) : bool :=
  match r with Ok _ => true | Raise _ => false end.

(** [assert b] *)
Definition py_assert (b : bool) : result unit :=
  if b then Ok tt else Raise AssertionError.

(** ** Normalizer *)

Definition HYPHEN : char := 45.

(** The items written between [[^] and []]: single characters and ranges
    [lo-hi].  Patterns with a backslash or a bracket are not modelled. *)
Fixpoint char_class (pattern : str) : list (char * char) :=
  match pattern with
  | [] => []
  | lo :: rest =>
      match rest with
      | c :: hi :: rest' =>
          if c =? HYPHEN then (lo, hi) :: char_class rest'
          else (lo, lo) :: char_class rest
      | _ => (lo, lo) :: char_class rest
      end
  end.

Definition in_class (cls : list (char * char)) (c : char) : bool :=
  existsb (fun r => (r.1 <=? c) && (c <=? r.2)) cls.

(** The compiled pattern [[^...]] is kept as the class it excludes. *)
Record Normalizer := { pattern : list (char * char) }.

(** [Normalizer.__init__]: [re.compile] refuses a range that runs
    backwards. *)
Definition Normalizer_init (pat : str) : result Normalizer :=
  let cls := char_class pat in
  if forallb (fun r => r.1 <=? r.2) cls then Ok {| pattern := cls |}
  else Raise ReError.

(** [Normalizer.__call__]: [self.pattern.sub("", line)] deletes every
    character outside the class. *)
Definition Normalizer_call (self : Normalizer) (line : str) : str :=
  List.filter (in_class (pattern self)) line.

(** The default pattern, "0-9가-힣ㄱ-ㅎㅏ-ㅣa-zA-Z". *)
Definition default_input_format : str :=
  [48; 45; 57; 44032; 45; 55203; 12593; 45; 12622; 12623; 45; 12643;
   97; 45; 122; 65; 45; 90].

(** ** UTF-8 *)

Abbreviation bytes := (list Byte.byte) (only parsing).

Definition byte (n : N) : Byte.byte := default Byte.x00 (Byte.of_N n).

Definition utf8_char (c : char) : bytes :=
  if c <? 128 then [byte c]
  else if c <? 2048 then
    [byte (N.lor 192 (N.shiftr c 6)); byte (N.lor 128 (N.land c 63))]
  else if c <? 65536 then
    [byte (N.lor 224 (N.shiftr c 12));
     byte (N.lor 128 (N.land (N.shiftr c 6) 63));
     byte (N.lor 128 (N.land c 63))]
  else
    [byte (N.lor 240 (N.shiftr c 18));
     byte (N.lor 128 (N.land (N.shiftr c 12) 63));
     byte (N.lor 128 (N.land (N.shiftr c 6) 63));
     byte (N.lor 128 (N.land c 63))].

(** [x.encode("utf-8")] *)
Definition utf8 (x : str) : bytes := x ≫= utf8_char.

(** ** Fingerprinter: [Encoder] *)

(** What a caller may pass as [hash_func_type]: a callable (here already
    composed with [.hexdigest()]), a string, or any other object. *)
Inductive hash_selector :=
| HashCallable (f : bytes -> str)
| HashName (name : str)
| HashOther.

(** A callable, or the one built-in name. *)
Definition supported_selector (sel : hash_selector) : bool :=
  match sel with
  | HashCallable _ => true
  | HashName name => bool_decide (name = lit "sha1")
  | HashOther => false
  end.

Record Encoder := { normalizer : Normalizer; hash : bytes -> str }.

(** [Encoder.encode] *)
Definition encode (self : Encoder) (line : str) : str * str :=
  let norm := Normalizer_call (normalizer self) line in
  let code := hash self (utf8 norm) in
  (line, code).

(** [Encoder.encode_batch]: [Pool.imap] yields the results in the order of
    [lines], whatever worker computed them. *)
Definition encode_batch (self : Encoder) (lines : list str) : list (str * str) :=
  encode self <$> lines.

(** ** Ordered dictionaries

    A Python [dict] iterates in insertion order; [defaultdict(list)] with
    [d[k].append(v)] is an association list from keys to lists. *)
Section Dict.
Context {K V : Type} `{EqDecision K}.

Fixpoint dict_append (d : list (K * list V)) (k : K) (v : V) : list (K * list V) :=
  match d with
  | [] => [(k, [v])]
  | (k', vs) :: d' =>
      if decide (k' = k) then (k', vs ++ [v]) :: d'
      else (k', vs) :: dict_append d' k v
  end.

(** [for k, v in items: d[k].append(v)], starting from [d]. *)
Definition dict_group (d : list (K * list V)) (items : list (K * V)) : list (K * list V) :=
  foldl (fun d kv => dict_append d kv.1 kv.2) d items.

(** The first value of every key. *)
Definition heads (d : list (K * list V)) : list (option V) :=
  (fun kv => head kv.2) <$> d.
End Dict.

(** ** Ordering of strings and [sorted] *)

(** [a < b] on sequences: the first place where they differ decides, and a
    proper prefix comes first. *)
Fixpoint lex_ltb {A} `{EqDecision A} (ltb : A -> A -> bool) (a b : list A) : bool :=
  match a, b with
  | _, [] => false
  | [], _ :: _ => true
  | x :: a', y :: b' => ltb x y || (bool_decide (x = y) && lex_ltb ltb a' b')
  end.

(** [a < b] on strings, by code points, and on lists of strings. *)
Definition str_ltb (a b : str) : bool := lex_ltb N.ltb a b.

Definition strs_ltb (a b : list str) : bool := lex_ltb str_ltb a b.

(** [a < b] on the [(code, texts)] tuples of [unique.items()]. *)
Definition item_ltb (a b : str * list str) : bool :=
  str_ltb a.1 b.1 || (bool_decide (a.1 = b.1) && strs_ltb a.2 b.2).

(** A strict total order, as a boolean test. *)
Record strict_total {A} (ltb : A -> A -> bool) : Prop := {
  st_irrefl : forall a, ltb a a = false;
  st_trans : forall a b c, ltb a b = true -> ltb b c = true -> ltb a c = true;
  st_total : forall a b, a = b \/ ltb a b = true \/ ltb b a = true;
}.

(** [a <= b], for a test of [<]. *)
Definition le_of {A} (ltb : A -> A -> bool) (a b : A) : Prop := ltb b a = false.

Section Sorted.
Context {A : Type} (ltb : A -> A -> bool).

Fixpoint insert_sorted (x : A) (l : list A) : list A :=
  match l with
  | [] => [x]
  | y :: l' => if ltb y x then y :: insert_sorted x l' else x :: y :: l'
  end.

(** [sorted(l)]: a stable sort that only asks [<], as Python's does. *)
Definition sorted (l : list A) : list A := foldr insert_sorted [] l.
End Sorted.

(** ** Numbers from strings: [int(x)], [float(x)], [x.lower()] *)

(** White space that [int()] and [float()] skip around a number: the
    interpreter passes the ASCII characters through as they are and turns the
    other Unicode spaces into blanks before it parses, which leaves out the
    separators U+001C to U+001F that [strip()] removes. *)
Definition num_isspace (c : char) : bool :=
  isspace c && negb ((28 <=? c) && (c <=? 31)).

Fixpoint num_lstrip (x : str) : str :=
  match x with
  | c :: x' => if num_isspace c then num_lstrip x' else x
  | [] => []
  end.

Definition num_strip (x : str) : str := rev (num_lstrip (rev (num_lstrip x))).

Definition is_digit (c : char) : bool := (48 <=? c) && (c <=? 57).

(** Decimal digits are the ASCII ones; the digits of other scripts, which
    the interpreter also reads, are not modelled. *)
Definition digit_value (c : char) : Z := Z.of_N (c - 48).

Definition UNDERSCORE : char := 95.

(** What follows a digit in a [digitpart]: more digits, each one optionally
    preceded by a single underscore.  Returns the digit values read and the
    text left. *)
Fixpoint digits_tail (x : str) : list Z * str :=
  match x with
  | c :: x' =>
      if is_digit c then
        let r := digits_tail x' in (digit_value c :: r.1, r.2)
      else if c =? UNDERSCORE then
        match x' with
        | d :: x'' =>
            if is_digit d then
              let r := digits_tail x'' in (digit_value d :: r.1, r.2)
            else ([], x)
        | [] => ([], x)
        end
      else ([], x)
  | [] => ([], [])
  end.

(** An optional [digitpart] at the head of [x]. *)
Definition digitpart (x : str) : list Z * str :=
  match x with
  | c :: x' =>
      if is_digit c then
        let r := digits_tail x' in (digit_value c :: r.1, r.2)
      else ([], x)
  | [] => ([], [])
  end.

Definition digits_value (ds : list Z) : Z := foldl (fun a d => 10 * a + d)%Z 0%Z ds.

(** An optional sign: [true] for [-]. *)
Definition read_sign (x : str) : bool * str :=
  match x with
  | 43 :: x' => (false, x')
  | 45 :: x' => (true, x')
  | _ => (false, x)
  end.

Definition apply_sign (neg : bool) (z : Z) : Z := if neg then (- z)%Z else z.

(** [int(x)] for a string [x], base 10. *)
Definition py_int (x : str) : result Z :=
  let sx := read_sign (num_strip x) in
  match digitpart sx.2 with
  | ((_ :: _) as ds, []) => Ok (apply_sign sx.1 (digits_value ds))
  | _ => Raise ValueError
  end.

(** [x.lower()], as far as it bears on what follows: the ASCII capitals, and
    the two characters outside ASCII whose lower case holds an ASCII letter
    (U+212A KELVIN SIGN gives [k], U+0130 gives [i] and U+0307).  Any other
    character is kept: it is, and its lower case would be, neither a digit, a
    space, nor a letter that [humanized_to_number] looks for. *)
Definition lower_char (c : char) : str :=
  if (65 <=? c) && (c <=? 90) then [c + 32]
  else if c =? 8490 then [107]
  else if c =? 304 then [105; 775]
  else [c].

Definition lower (x : str) : str := x ≫= lower_char.

(** *** Binary64 floats

    A finite float is [m * 2^e] with [|m| <= 2^53] and [-1074 <= e]; what the
    code does with floats (reading a decimal, multiplying by a power of 1024,
    truncating to an integer) is exact arithmetic on this form, after the one
    rounding of the decimal. *)
Inductive float :=
| Finite (m e : Z)
| Inf (neg : bool)
| NaN.

Local Open Scope Z_scope.

(** [floor(log2(n / d))] for positive [n], [d]. *)
Definition log2_ratio (n d : Z) : Z :=
  let l := Z.log2 n - Z.log2 d in
  if l >=? 0 then (if d * 2 ^ l <=? n then l else l - 1)
  else (if d <=? n * 2 ^ (- l) then l else l - 1).

(** [n / d] rounded to the nearest integer, ties to even. *)
Definition round_half_even (n d : Z) : Z :=
  let q := n / d in
  let r := n mod d in
  match 2 * r ?= d with
  | Lt => q
  | Gt => q + 1
  | Eq => if Z.even q then q else q + 1
  end.

(** The float nearest to [n / d], for [0 <= n] and [0 < d]: 53 bits of
    precision, exponent at least -1074, overflow to infinity. *)
Definition round_binary64 (neg : bool) (n d : Z) : float :=
  if n =? 0 then Finite 0 0
  else
    let e := Z.max (log2_ratio n d - 52) (-1074) in
    let m := if e >=? 0 then round_half_even n (d * 2 ^ e)
             else round_half_even (n * 2 ^ (- e)) d in
    if 2 ^ 1024 <=? m * 2 ^ e then Inf neg
    else Finite (apply_sign neg m) e.

(** The float of the decimal [mant * 10^exp10]. *)
Definition float_of_decimal (neg : bool) (mant exp10 : Z) : float :=
  if exp10 >=? 0 then round_binary64 neg (mant * 10 ^ exp10) 1
  else round_binary64 neg mant (10 ^ (- exp10)).

(** An optional exponent [e[+-]digits]; [None] for one that is begun and not
    finished. *)
Definition read_exponent (x : str) : option (Z * str) :=
  match x with
  | c :: x' =>
      if (c =? 101)%N || (c =? 69)%N then
        let sx := read_sign x' in
        match digitpart sx.2 with
        | ((_ :: _) as ds, rest) => Some (apply_sign sx.1 (digits_value ds), rest)
        | _ => None
        end
      else Some (0, x)
  | [] => Some (0, [])
  end.

Definition FULLSTOP : char := 46%N.

(** [float(x)] for a string [x]. *)
Definition py_float (x : str) : result float :=
  let sx := read_sign (num_strip x) in
  let body := lower sx.2 in
  if bool_decide (body = lit "inf") || bool_decide (body = lit "infinity") then Ok (Inf sx.1)
  else if bool_decide (body = lit "nan") then Ok NaN
  else
    let ip := digitpart sx.2 in
    let fp := match ip.2 with
              | c :: rest => if (c =? FULLSTOP)%N then digitpart rest else ([], ip.2)
              | [] => ([], [])
              end in
    match ip.1 ++ fp.1 with
    | [] => Raise ValueError
    | ds =>
        match read_exponent fp.2 with
        | Some (ex, []) =>
            Ok (float_of_decimal sx.1 (digits_value ds) (ex - Z.of_nat (length fp.1)))
        | _ => Raise ValueError
        end
    end.

(** [f * k] for a float [f] and a power of two [k = 2^s] given as an
    integer: exact, up to overflow. *)
Definition fmul_pow2 (f : float) (s : Z) : float :=
  match f with
  | Finite m e =>
      if 2 ^ 1024 <=? Z.abs m * 2 ^ (e + s) then Inf (m <? 0)
      else Finite m (e + s)
  | Inf neg => Inf neg
  | NaN => NaN
  end.

(** [int(f)] for a float: truncation towards zero. *)
Definition int_of_float (f : float) : result Z :=
  match f with
  | Finite m e => Ok (if e >=? 0 then m * 2 ^ e else Z.quot m (2 ^ (- e)))
  | Inf _ => Raise OverflowError
  | NaN => Raise ValueError
  end.

(** ** Size strings: [humanized_to_number] *)

(** What a caller may pass as [max_block_size]. *)
Inductive size_arg :=
| SizeNone
| SizeInt (n : Z)
| SizeStr (x : str).

(** [int(float(x.split(c)[0]) * 1024 ** i)] *)
Definition scaled (x : str) (c : char) (i : Z) : result Z :=
  f ← py_float (split_head c x);
  int_of_float (fmul_pow2 f (10 * i)).

Definition humanized_to_number (max_block_size : size_arg) : result (option Z) :=
  match max_block_size with
  | SizeNone => Ok None
  | SizeInt n => Ok (Some n)
  | SizeStr x =>
      match py_int x with
      | Ok n => Ok (Some n)
      | Raise _ =>
          let x := lower x in
          if contains 107%N x then Some <$> scaled x 107%N 1
          else if contains 109%N x then Some <$> scaled x 109%N 2
          else if contains 103%N x then Some <$> scaled x 103%N 3
          else Raise ValueError
      end
  end.

Local Close Scope Z_scope.

(** *** Sizes with a unit, in the words of the specification *)

Inductive unit_scale := Kilo | Mega | Giga.

(** The letter of a unit, in lower case, and the power of 1024 it stands
    for. *)
Definition scale_letter (u : unit_scale) : char :=
  match u with Kilo => 107 | Mega => 109 | Giga => 103 end.

Definition scale_power (u : unit_scale) : Z :=
  match u with Kilo => 1 | Mega => 2 | Giga => 3 end.

(** The units the code looks for before [u]. *)
Definition units_before (u : unit_scale) : list unit_scale :=
  match u with Kilo => [] | Mega => [Kilo] | Giga => [Kilo; Mega] end.

(** A decimal numeral: the digits [ip], then nothing, or a full stop and the
    digits [fp] (there may be none, as in "123."). *)
Definition decimal_text (ip : str) (fp : option str) : str :=
  ip ++ match fp with
        | None => []
        | Some fp => FULLSTOP :: fp
        end.

(** The float nearest to it. *)
Definition decimal_float (ip : str) (fp : option str) : float :=
  float_of_decimal false
    (digits_value (digit_value <$> ip ++ default [] fp))
    (- Z.of_nat (length (default [] fp))).

(** A text that does not go on a run of digits. *)
Definition no_digit_start (rest : str) : Prop :=
  match rest with
  | [] => True
  | c :: _ => is_digit c = false /\ c <> UNDERSCORE
  end.

(** The characters of a decimal numeral: digits and the full stop. *)
Definition decimal_char (c : char) : Prop := is_digit c = true \/ c = FULLSTOP.

(** The characters of an integer numeral. *)
Definition int_char (c : char) : bool :=
  num_isspace c || is_digit c || (c =? 43) || (c =? 45) || (c =? UNDERSCORE).

(** [str(n)] for an integer *)
Definition str_of_Z (n : Z) : str := lit (pretty n).

(** ** The file system and the operating system's calls *)

(** The calls that reach the operating system, in the order made; an
    opening for writing comes with the text written before the file is
    closed.  [EvMakedirs p] is [os.makedirs(os.path.dirname(
    os.path.abspath(p)), exist_ok=True)]; directories themselves are not
    modelled. *)
Inductive event :=
| EvIsdir (path : str)
| EvGlob (pathname : str)
| EvPopen (command : str)
| EvOpenRead (path : str)
| EvOpenAppend (path text : str)
| EvOpenWrite (path text : str)
| EvMakedirs (path : str)
| EvSystem (command : str).

(** The calls that open, create or delete files, as opposed to the queries
    [isdir] and [glob]. *)
Definition is_file_io (e : event) : bool :=
  match e with
  | EvIsdir _ | EvGlob _ => false
  | _ => true
  end.

(** The texts appended to [path], in order. *)
Definition appended (path : str) (tr : list event) : list str :=
  omap (fun e => match e with
                 | EvOpenAppend p text => if decide (p = path) then Some text else None
                 | _ => None
                 end) tr.

Record world := { files : gmap (list N) (list N); trace : list event }.

(** A computation that may read and change the world, and may raise; the
    world reached when it raises is kept. *)
Definition io (A : Type) : Type := world -> result A * world.

#[global] Instance io_ret : MRet io := fun A a w => (Ok a, w).
#[global] Instance io_bind : MBind io := fun A B f m w =>
  match m w with
  | (Ok a, w') => f a w'
  | (Raise e, w') => (Raise e, w')
  end.
#[global] Instance io_fmap : FMap io := fun A B f m w =>
  match m w with
  | (Ok a, w') => (Ok (f a), w')
  | (Raise e, w') => (Raise e, w')
  end.

(** From [w] to [w'] no file was opened, created or deleted: the files are
    the same and the calls made in between are queries. *)
Definition queries_only (w w' : world) : Prop :=
  files w' = files w
  /\ exists new, trace w' = trace w ++ new /\ Forall (fun e => is_file_io e = false) new.

(** A pure computation inside [io]. *)
Definition lift {A} (r : result A) : io A := fun w => (r, w).

(** The world after one more call. *)
Definition log (e : event) (w : world) : world :=
  {| files := files w; trace := trace w ++ [e] |}.

Definition emit (e : event) : io unit := fun w => (Ok tt, log e w).

(** [for x in l: f(x)] *)
Fixpoint io_iter {A} (f : A -> io unit) (l : list A) : io unit :=
  match l with
  | [] => mret tt
  | x :: l' => f x;; io_iter f l'
  end.

(** Reading in text mode: [\r\n] and [\r] become [\n]. *)
Fixpoint translate_newlines (x : str) : str :=
  match x with
  | c :: x' =>
      if c =? CR then
        LF :: match x' with
              | d :: x'' => if d =? LF then translate_newlines x'' else translate_newlines x'
              | [] => []
              end
      else c :: translate_newlines x'
  | [] => []
  end.

(** The lines of a text, each with its ending [\n] (the last one may lack
    it). *)
Fixpoint splitlines (x : str) : list str :=
  match x with
  | [] => []
  | c :: x' =>
      if c =? LF then [c] :: splitlines x'
      else match splitlines x' with
           | [] => [[c]]
           | l :: ls => (c :: l) :: ls
           end
  end.

(** What [for line in f] yields for a file holding [content]. *)
Definition file_lines (content : str) : list str := splitlines (translate_newlines content).

Fixpoint is_prefix (p x : str) : bool :=
  match p, x with
  | [], _ => true
  | a :: p', b :: x' => (a =? b) && is_prefix p' x'
  | _ :: _, [] => false
  end.

(** The files; the content of a file, if it exists; setting it; deleting a
    tree. *)
Definition get_files : io (gmap (list N) (list N)) :=
  fun w => (Ok (files w), w).

Definition read_file (path : str) : io (option str) :=
  fun w => (Ok (files w !! path), w).

Definition write_file (path text : str) : io unit :=
  fun w => (Ok tt, {| files := <[path := text]> (files w); trace := trace w |}).

Definition remove_tree (root : str) : io unit :=
  fun w => (Ok tt,
            {| files := filter (fun kv => is_prefix (root ++ [SLASH]) kv.1 = false) (files w);
               trace := trace w |}).

(** [with open(path, encoding="utf-8") as f: list(f)]; the file is read as
    it is when it is opened. *)
Definition open_read (path : str) : io (list str) :=
  emit (EvOpenRead path);;
  content ← read_file path;
  match content with
  | Some content => mret (file_lines content)
  | None => lift (Raise FileNotFoundError)
  end.

(** [with open(path, "a", encoding="utf-8") as f: f.write(text)] *)
Definition open_append (path text : str) : io unit :=
  emit (EvOpenAppend path text);;
  content ← read_file path;
  write_file path (default [] content ++ text).

(** [with open(path, "w", encoding="utf-8") as f: f.write(text)] *)
Definition open_write (path text : str) : io unit :=
  emit (EvOpenWrite path text);;
  write_file path text.

(** [int(os.popen(f"wc -l {inpath}").read().strip().split()[0])]: the
    number of newlines of the file; for a file that is missing [wc] prints
    nothing on its output and the index [[0]] fails. *)
Definition popen_wc (inpath : str) : io Z :=
  emit (EvPopen (lit "wc -l " ++ inpath));;
  content ← read_file inpath;
  match content with
  | Some content => mret (Z.of_nat (length (List.filter (N.eqb LF) content)))
  | None => lift (Raise IndexError)
  end.

(** [os.system(f"rm -r {shard_root}")] *)
Definition system_rm (shard_root : str) : io unit :=
  emit (EvSystem (lit "rm -r " ++ shard_root));;
  remove_tree shard_root.

(** *** A small [glob] and [isdir], to run the pipeline on examples

    The pipeline below takes [glob] and [os.path.isdir] as parameters; these
    two read them off the files of the world: [*] stands for any run of
    characters other than [/], and a directory is a path some file lies
    under. *)
Definition STAR : char := 42.

Fixpoint wild_match (pat : str) : str -> bool :=
  match pat with
  | [] => fun text => match text with [] => true | _ => false end
  | p :: pat' =>
      if p =? STAR then
        fix star (text : str) : bool :=
          wild_match pat' text
          || match text with
             | c :: text' => negb (c =? SLASH) && star text'
             | [] => false
             end
      else fun text =>
        match text with
        | c :: text' => (c =? p) && wild_match pat' text'
        | [] => false
        end
  end.

Definition simple_glob (fs : gmap (list N) (list N)) (pathname : str) : list str :=
  List.filter (wild_match pathname) (map_to_list fs).*1.

Definition simple_isdir (fs : gmap (list N) (list N)) (path : str) : bool :=
  existsb (is_prefix (path ++ [SLASH])) (map_to_list fs).*1.

(** The number of bytes of the texts written to a file. *)
Definition written_size (texts : list str) : Z := Z.of_nat (length (utf8 (concat texts))).

(** ** Merge: the pure steps *)

(** [f"{code} {line}\n"]: one shard record. *)
Definition record_line (code line : str) : str := code ++ [SPACE] ++ line ++ [LF].

(** [[line.strip().split(" ", 1) for line in f]] *)
Definition load_shard (lines : list str) : list (list str) :=
  (fun line => split1 SPACE (strip line)) <$> lines.

(** The unpacking in [for code, text in lines]. *)
Definition unpack2 (l : list str) : result (str * str) :=
  match l with
  | [code; text] => Ok (code, text)
  | _ => Raise ValueError
  end.

(** [texts[0]] *)
Definition index0 (texts : list str) : result str :=
  match texts with
  | text :: _ => Ok text
  | [] => Raise IndexError
  end.

(** Lines 133 to 136: [unique] and [texts]. *)
Definition dedup_texts (lines : list (list str)) : result (list (str * list str) * list str) :=
  pairs ← mapM unpack2 lines;
  let unique := dict_group [] pairs in
  texts ← mapM (fun kv => index0 kv.2) unique;
  mret (unique, texts).

(** [sum(len(text.encode("utf-8")) for text in texts) + len(texts)] *)
Definition texts_size (texts : list str) : Z :=
  (foldr Z.add 0 ((fun text => Z.of_nat (length (utf8 text))) <$> texts)
   + Z.of_nat (length texts))%Z.

(** What the [with open(output_path, "a")] block writes. *)
Definition block_text (texts : list str) : str :=
  concat ((fun text => text ++ [LF]) <$> texts).

(** The records of [for code, texts in sorted(unique.items()): for text in
    texts], and the text written for them. *)
Definition records_of (items : list (str * list str)) : list (str * str) :=
  kv ← items; (fun text => (kv.1, text)) <$> kv.2.

Definition sorted_records (unique : list (str * list str)) : list (str * str) :=
  records_of (sorted item_ltb unique).

Definition shard_text (records : list (str * str)) : str :=
  concat ((fun r => record_line r.1 r.2) <$> records).

Record merge_state := {
  n_duplicated : Z;
  n_deduplicated : Z;
  block_size : Z;
  block_index : Z;
  output_path : str;
}.

Definition DOT : char := 46.

(** [f"{output}.{block_index}"] *)
Definition block_path (output : str) (block_index : Z) : str :=
  output ++ [DOT] ++ str_of_Z block_index.

(** Lines 141 to 145: which block the texts of this shard go to. *)
Definition block_decision (output : str) (max_block_size : option Z)
    (st : merge_state) (texts_size : Z) : merge_state :=
  match max_block_size with
  | Some budget =>
      if (budget <? block_size st + texts_size)%Z then
        {| n_duplicated := n_duplicated st;
           n_deduplicated := n_deduplicated st;
           block_size := texts_size;
           block_index := (block_index st + 1)%Z;
           output_path := block_path output (block_index st + 1) |}
      else
        {| n_duplicated := n_duplicated st;
           n_deduplicated := n_deduplicated st;
           block_size := (block_size st + texts_size)%Z;
           block_index := block_index st;
           output_path := output_path st |}
  | None =>
      {| n_duplicated := n_duplicated st;
         n_deduplicated := n_deduplicated st;
         block_size := (block_size st + texts_size)%Z;
         block_index := block_index st;
         output_path := output_path st |}
  end.

(** The state before the first shard. *)
Definition merge_init (output : str) (max_block_size : option Z) : merge_state :=
  {| n_duplicated := 0;
     n_deduplicated := 0;
     block_size := 0;
     block_index := 0;
     output_path := match max_block_size with
                    | None => output
                    | Some _ => block_path output 0
                    end |}.

(** The counters after reading [lines] and keeping [texts]. *)
Definition count (st : merge_state) (lines : list (list str)) (texts : list str) : merge_state :=
  {| n_duplicated := (n_duplicated st + Z.of_nat (length lines))%Z;
     n_deduplicated := (n_deduplicated st + Z.of_nat (length texts))%Z;
     block_size := block_size st;
     block_index := block_index st;
     output_path := output_path st |}.

(** [100 * n_deduplicated / n_duplicated], as the exact quotient (the float
    the interpreter computes is this number rounded). *)
Definition percentage (n_deduplicated n_duplicated : Z) : result Q :=
  if (n_duplicated =? 0)%Z then Raise ZeroDivisionError
  else Ok (Qred (Qdiv (inject_Z (100 * n_deduplicated)) (inject_Z n_duplicated))).

(** *** First seen wins, in the words of the specification

    A record of the shard is kept when no earlier record of the file has its
    fingerprint; [seen] holds the fingerprints met so far. *)
Fixpoint first_seen_from (seen : list str) (pairs : list (str * str)) : list (str * str) :=
  match pairs with
  | [] => []
  | p :: pairs' =>
      if decide (p.1 ∈ seen) then first_seen_from seen pairs'
      else p :: first_seen_from (p.1 :: seen) pairs'
  end.

Definition first_seen_wins (pairs : list (str * str)) : list (str * str) :=
  first_seen_from [] pairs.

(** The lines [load_shard] yields for well-formed records. *)
Definition pair_lines (pairs : list (str * str)) : list (list str) :=
  (fun p => [p.1; p.2]) <$> pairs.

(** *** The budget of a block, in the words of the specification

    The texts appended to a block, one for each shard that went to it, fit the
    budget together, or there is exactly one of them and it alone exceeds the
    budget. *)
Definition block_ok (budget : Z) (contributions : list str) : Prop :=
  (written_size contributions <= budget)%Z
  \/ exists text, contributions = [text] /\ (budget < written_size [text])%Z.

(** What holds of the state of the merge loop and of the calls [new] made
    since its start, under a budget. *)
Definition blocks_inv (output : str) (budget : Z) (st : merge_state) (new : list event) : Prop :=
  output_path st = block_path output (block_index st)
  /\ (forall i, (block_index st < i)%Z -> appended (block_path output i) new = [])
  /\ block_size st = written_size (appended (block_path output (block_index st)) new)
  /\ (forall i, appended (block_path output i) new <> [] ->
                 block_ok budget (appended (block_path output i) new))
  /\ (forall p text, EvOpenAppend p text ∈ new -> exists i, p = block_path output i).

(** A digest a caller could supply, used to run examples: the bytes in
    hexadecimal. *)
Definition hex_digit (n : N) : char := if n <? 10 then 48 + n else 87 + n.

Definition hex_digest (data : bytes) : str :=
  b ← data; [hex_digit (Byte.to_N b / 16); hex_digit (Byte.to_N b mod 16)].

(** The normalizer of the default pattern and an encoder over it. *)
Definition default_normalizer : Normalizer :=
  {| pattern := char_class default_input_format |}.

Definition example_encoder : Encoder :=
  {| normalizer := default_normalizer; hash := hex_digest |}.

(** [f"{shard_root}/{wildcard}.shard"], with [depth =
    math.ceil(prefix_length / 2)] stars in [wildcard]. *)
Definition shard_pattern (shard_root : str) (prefix_length : Z) : str :=
  let depth := ((prefix_length + 1) `div` 2)%Z in
  let wildcard := join [SLASH] (replicate (Z.to_nat depth) [STAR]) in
  shard_root ++ [SLASH] ++ wildcard ++ shard_suffix.

(** What a caller may pass as [inputs]. *)
Inductive inputs_arg :=
| InputStr (x : str)
| InputList (l : list str).

(** ** The pipeline *)

Section Pipeline.
(** [hashlib.sha1(data).hexdigest()], [glob.glob], [os.path.isdir] and
    [multiprocessing.cpu_count()] belong to the interpreter and the
    operating system. *)
Variable sha1 : bytes -> str.
Variable glob : gmap (list N) (list N) -> str -> list str.
Variable isdir : gmap (list N) (list N) -> str -> bool.
Variable cpu_count : Z.

Definition os_glob (pathname : str) : io (list str) :=
  emit (EvGlob pathname);;
  fs ← get_files;
  mret (glob fs pathname).

Definition os_isdir (path : str) : io bool :=
  emit (EvIsdir path);;
  fs ← get_files;
  mret (isdir fs path).

(** [Encoder.__init__] *)
Definition Encoder_init (hash_func_type : hash_selector) (normalizer : Normalizer)
    : result Encoder :=
  match hash_func_type with
  | HashCallable f => Ok {| normalizer := normalizer; hash := f |}
  | HashName name =>
      if bool_decide (name = lit "sha1") then Ok {| normalizer := normalizer; hash := sha1 |}
      else Raise ValueError
  | HashOther => Raise ValueError
  end.

(** [save_shards] *)
Definition save_shards (shard_root : str) (encoded_lines : list (str * str))
    (prefix_length : Z) : io unit :=
  lift (py_assert (2 <=? prefix_length)%Z);;
  let shards :=
    dict_group []
      ((fun lc => ((take (Z.to_nat prefix_length) lc.2, lc.2), lc.1)) <$> encoded_lines) in
  io_iter (fun kv =>
             let shard_path := get_shard_path shard_root kv.1.1 in
             emit (EvMakedirs shard_path);;
             open_append shard_path (concat (record_line kv.1.2 <$> kv.2)))
          shards.

(** The loop of [encode_a_file] over the lines of the file; returns the
    batch left at the end. *)
Fixpoint encode_lines (shard_root : str) (batchsize : Z) (hash_func : Encoder)
    (prefix_length : Z) (lines batch_lines : list str) : io (list str) :=
  match lines with
  | [] => mret batch_lines
  | line :: lines' =>
      let line := strip line in
      if bool_decide (line = []) then
        encode_lines shard_root batchsize hash_func prefix_length lines' batch_lines
      else
        let batch_lines := batch_lines ++ [line] in
        if (batchsize <=? Z.of_nat (length batch_lines))%Z then
          save_shards shard_root (encode_batch hash_func batch_lines) prefix_length;;
          encode_lines shard_root batchsize hash_func prefix_length lines' []
        else
          encode_lines shard_root batchsize hash_func prefix_length lines' batch_lines
  end.

Definition encode_a_file (inpath shard_root : str) (chunksize n_processes : Z)
    (hash_func : Encoder) (prefix_length : Z) : io unit :=
  lift (py_assert ((0 <? chunksize)%Z && (0 <? n_processes)%Z));;
  n_lines ← popen_wc inpath;
  let batchsize := (n_processes * chunksize)%Z in
  lines ← open_read inpath;
  batch_lines ← encode_lines shard_root batchsize hash_func prefix_length lines [];
  match batch_lines with
  | [] => mret tt
  | _ => save_shards shard_root (encode_batch hash_func batch_lines) prefix_length
  end.

(** [[path for input in inputs for path in glob(input)]] *)
Fixpoint glob_all (inputs : list str) : io (list str) :=
  match inputs with
  | [] => mret []
  | input :: inputs' =>
      paths ← os_glob input;
      rest ← glob_all inputs';
      mret (paths ++ rest)
  end.

(** The first lines of [task_encode]: the files to encode. *)
Definition resolve_inputs (inputs : inputs_arg) : io (list str) :=
  match inputs with
  | InputStr x =>
      d ← os_isdir x;
      if d : bool then
        paths ← os_glob (x ++ lit "/*");
        mret (sorted str_ltb paths)
      else
        paths ← os_glob x;
        mret (sorted str_ltb paths)
  | InputList l => glob_all l
  end.

Definition task_encode (inputs : inputs_arg) (shard_root : str)
    (chunksize n_processes : Z) (hash_func_type : hash_selector)
    (hash_func_input_format : str) (prefix_length : Z) : io unit :=
  inputs ← resolve_inputs inputs;
  normalizer ← lift (Normalizer_init hash_func_input_format);
  hash_func ← lift (Encoder_init hash_func_type normalizer);
  io_iter (fun inpath =>
             encode_a_file inpath shard_root chunksize n_processes hash_func prefix_length)
          inputs.

(** The body of the loop of [task_merge] over the shards. *)
Definition merge_shard (output : str) (max_block_size : option Z) (sort : bool)
    (st : merge_state) (shard : str) : io merge_state :=
  f ← open_read shard;
  let lines := load_shard f in
  ut ← lift (dedup_texts lines);
  let st := count st lines ut.2 in
  let st := block_decision output max_block_size st (texts_size ut.2) in
  open_append (output_path st) (block_text ut.2);;
  (if sort then open_write shard (shard_text (sorted_records ut.1)) else mret tt);;
  mret st.

Fixpoint merge_shards (output : str) (max_block_size : option Z) (sort : bool)
    (st : merge_state) (shards : list str) : io merge_state :=
  match shards with
  | [] => mret st
  | shard :: shards' =>
      st' ← merge_shard output max_block_size sort st shard;
      merge_shards output max_block_size sort st' shards'
  end.

(** [task_merge]; the value is the percentage that is printed. *)
Definition task_merge (output shard_root : str) (prefix_length : Z)
    (max_block_size : option Z) (sort : bool) : io Q :=
  shards ← os_glob (shard_pattern shard_root prefix_length);
  emit (EvMakedirs output);;
  st ← merge_shards output max_block_size sort (merge_init output max_block_size) shards;
  lift (percentage (n_deduplicated st) (n_duplicated st)).

(** The loop of [task_dedup] that collects [filepaths]. *)
Fixpoint collect_filepaths (inputs filepaths : list str) : io (list str) :=
  match inputs with
  | [] => mret filepaths
  | input :: inputs' =>
      d ← os_isdir input;
      if d : bool then
        paths ← os_glob (input ++ lit "/*");
        collect_filepaths inputs' (filepaths ++ paths)
      else collect_filepaths inputs' (filepaths ++ [input])
  end.

Definition task_dedup (inputs : inputs_arg) (output shard_root : str)
    (chunksize : Z) (n_processes : option Z) (hash_func_type : hash_selector)
    (hash_func_input_format : str) (max_block_size : size_arg)
    (sort keep : bool) (prefix_length : Z) : io Q :=
  if sort && negb keep then lift (Raise ValueError)
  else
    let n_processes := default (cpu_count - 1)%Z n_processes in
    max_block_size ← lift (humanized_to_number max_block_size);
    let inputs := match inputs with InputStr x => [x] | InputList l => l end in
    filepaths ← collect_filepaths inputs [];
    task_encode (InputList filepaths) shard_root chunksize n_processes
                hash_func_type hash_func_input_format prefix_length;;
    percent ← task_merge output shard_root prefix_length max_block_size sort;
    (if negb keep then system_rm shard_root else mret tt);;
    mret percent.

End Pipeline.

(** ** Worlds to run the pipeline on *)

(** One input file, [in.txt], with the lines a, b, a, c. *)
Definition abac_world : world :=
  {| files := {[ lit "in.txt" := [97; LF; 98; LF; 97; LF; 99; LF] ]}; trace := [] |}.

(** No file at all. *)
Definition empty_world : world := {| files := ∅; trace := [] |}.

(** One input file with blank lines only. *)
Definition blank_world : world :=
  {| files := {[ lit "in.txt" := [LF; SPACE; LF] ]}; trace := [] |}.

(** One shard holding two records of the same fingerprint. *)
Definition dup_world : world :=
  {| files := {[ lit "shards/ab.shard"
                 := record_line (lit "ab") (lit "x") ++ record_line (lit "ab") (lit "y") ]};
     trace := [] |}.

(** Three shards, of the fingerprints 61, 62 and 63; the first holds a line
    twice, the second a line of four bytes. *)
Definition shards_world : world :=
  {| files := {[ lit "shards/61.shard" := record_line (lit "61") (lit "a")
                                          ++ record_line (lit "61") (lit "a");
                 lit "shards/62.shard" := record_line (lit "62") (lit "bbbb");
                 lit "shards/63.shard" := record_line (lit "63") (lit "c") ]};
     trace := [] |}.

(** ** The command line: [cli.py] *)

(** [default_process_count = max(1, cpu_count() - 1)], the default of
    [--n_processes]. *)
Definition default_process_count (cpu_count : Z) : Z := Z.max 1 (cpu_count - 1).

(** ** Words for the properties of the encode stage *)



(** The records that go to the shard file [path]. *)
Definition routed (shard_root : str) (prefix_length : Z) (path : str)
    (records : list (str * str)) : list (str * str) :=
  filter (fun r => get_shard_path shard_root (take (Z.to_nat prefix_length) r.1) = path) records.

(** A file after records were appended to it: as it was when there is none,
    and else what it held, if it existed, followed by the records. *)
Definition extended_by (fs fs' : gmap (list N) (list N)) (path : str)
    (records : list (str * str)) : Prop :=
  fs' !! path = match records with
                | [] => fs !! path
                | _ => Some (default [] (fs !! path) ++ shard_text records)
                end.

(** ** Words for the properties of the merge *)

(** What the merge appends to the output for shards that hold these records,
    in this order: for each shard the lines "first seen wins" keeps. *)
Definition merged_text (shards : list (str * list (str * str))) : str :=
  concat ((fun sp => block_text (first_seen_wins sp.2).*2) <$> shards).

(** The number of records these shards hold, and the number kept. *)
Definition records_seen (shards : list (str * list (str * str))) : Z :=
  Z.of_nat (length (concat shards.*2)).

Definition records_kept (shards : list (str * list (str * str))) : Z :=
  Z.of_nat (length (concat ((fun sp => first_seen_wins sp.2) <$> shards))).

(** The file [path] holds the records [pairs], one on a line. *)
Definition holds_records (fs : gmap (list N) (list N)) (path : str)
    (pairs : list (str * str)) : Prop :=
  exists content, fs !! path = Some content
                  /\ load_shard (file_lines content) = pair_lines pairs.

(** ** Words for what the shard files hold *)

(** Two lists hold the same records, those of one fingerprint in the same
    order. *)
Definition same_records (r1 r2 : list (str * str)) : Prop :=
  r1 ≡ₚ r2
  /\ forall code, filter (fun r : str * str => r.1 = code) r1
                  = filter (fun r : str * str => r.1 = code) r2.

(** A fingerprint that a record line gives back: not empty, no white space
    in front, and no space or line break inside. *)
Definition clean_code (code : str) : Prop :=
  code <> [] /\ lstrip code = code /\ (SPACE ∉ code) /\ (LF ∉ code) /\ (CR ∉ code).

(** A line that a record line gives back: not empty, no white space at
    either end, no line break inside. *)
Definition clean_line (line : str) : Prop :=
  line <> [] /\ strip line = line /\ (LF ∉ line) /\ (CR ∉ line).

(** The key [save_shards] files a record under: [(code[:prefix_length], code)]. *)
Definition shard_key (prefix_length : Z) (code : str) : str * str :=
  (take (Z.to_nat prefix_length) code, code).


(** The records of the fingerprint [c] in a list. *)
Abbreviation with_code c := (filter (fun r : list N * list N => r.1 = c)) (only parsing).

(** * Properties *)

(** ** Shard paths *)

Example get_shard_path_doc :
  get_shard_path (lit "path/to") (lit "12345678") = lit "path/to/12/34/56/78.shard".
Proof. reflexivity. Qed.

Example get_shard_path_odd :
  get_shard_path (lit "r") (lit "abcde") = lit "r/ab/cd/e.shard".
Proof. reflexivity. Qed.

Lemma range2_SS n : range2 (S (S n)) = 0%nat :: ((fun b => S (S b)) <$> range2 n).
Proof.
  unfold range2. replace (S (S n) + 1)%nat with (S (S (n + 1))) by lia.
  cbn [Nat.div2]. cbn [seq fmap list_fmap]. f_equal.
  rewrite <- seq_shift, <- !list_fmap_compose.
  apply list_fmap_ext. intros _ i _. cbn. lia.
Qed.

(** Induction two characters at a time. *)
Lemma str_ind2 (P : list N -> Prop) :
  P [] -> (forall a, P [a]) -> (forall a b x, P x -> P (a :: b :: x)) ->
  forall x, P x.
Proof.
  intros H0 H1 H2.
  fix IH 1. intros [|a [|b x]]; [exact H0 | apply H1 | apply H2, IH].
Qed.

Lemma segments_chunks2 x : segments x = chunks2 x.
Proof.
  induction x as [|a|a b x IH] using str_ind2; [reflexivity | reflexivity |].
  unfold segments. cbn [length]. rewrite range2_SS. cbn [fmap list_fmap chunks2].
  f_equal. rewrite <- IH, <- list_fmap_compose.
  unfold segments. apply list_fmap_ext. intros _ i _. reflexivity.
Qed.

Lemma chunks2_concat x : concat (chunks2 x) = x.
Proof.
  induction x as [|a|a b x IH] using str_ind2; [reflexivity | reflexivity |].
  cbn. by rewrite IH.
Qed.

Lemma chunks2_shape x :
  x <> [] ->
  exists full last,
    chunks2 x = full ++ [last]
    /\ Forall (fun s => length s = 2%nat) full
    /\ length last = (if Nat.even (length x) then 2 else 1)%nat
    /\ length full = Nat.div2 (length x - 1).
Proof.
  induction x as [|a|a b x IH] using str_ind2; intros Hx; [done | |].
  - exists [], [a]. repeat split; constructor.
  - destruct x as [|c x].
    + exists [], [a; b]. repeat split; constructor.
    + destruct IH as (full & last & E & HF & HL & HN); [done|].
      exists ([a; b] :: full), last.
      change (chunks2 (a :: b :: c :: x)) with ([a; b] :: chunks2 (c :: x)).
      rewrite E. repeat split.
      * by constructor.
      * exact HL.
      * cbn [length] in *. rewrite HN.
        replace (S (S (S (length x))) - 1)%nat with (S (S (S (length x) - 1))) by lia.
        reflexivity.
Qed.

Lemma subpath_SS a b x :
  subpath_of (a :: b :: x)
  = a :: b :: match x with [] => [] | _ => SLASH :: subpath_of x end.
Proof. unfold subpath_of. destruct x as [|c [|d x]]; reflexivity. Qed.

Lemma subpath_inj x : forall y, subpath_of x = subpath_of y -> x = y.
Proof.
  induction x as [|a|a b x IH] using str_ind2; intros y E.
  - destruct y as [|c [|d y]]; [done | by inversion E |].
    rewrite subpath_SS in E. by inversion E.
  - destruct y as [|c [|d y]]; [by inversion E | by inversion E |].
    rewrite subpath_SS in E. by inversion E.
  - rewrite subpath_SS in E.
    destruct y as [|c [|d y]]; [by inversion E | |].
    + destruct x; by inversion E.
    + rewrite subpath_SS in E. injection E as -> -> E. f_equal. f_equal.
      destruct x as [|x1 x], y as [|y1 y]; try done.
      apply IH. congruence.
Qed.

Lemma get_shard_path_inj shard_root x y :
  get_shard_path shard_root x = get_shard_path shard_root y -> x = y.
Proof.
  unfold get_shard_path. rewrite !segments_chunks2. intros E.
  apply app_inv_head, app_inv_head, app_inv_tail in E.
  by apply subpath_inj.
Qed.

(** C6. For every pair of fingerprints F1, F2 and prefix length p >= 2, the
    shard paths of F1 and F2 are equal if and only if F1[:p] == F2[:p]; the
    path is the shard root, a slash, the segments of the leading p characters
    joined by slashes, and the suffix ".shard"; the segments are these
    characters cut in order, all of length 2 but the last one, which has
    length 1 when p is odd. *)
Theorem shard_path_iff_prefix (shard_root F1 F2 : list N) (p : nat) :
  (2 <= p)%nat ->
  (shard_path_of shard_root p F1 = shard_path_of shard_root p F2
   <-> take p F1 = take p F2)
  /\ shard_path_of shard_root p F1
     = shard_root ++ lit "/" ++ join (lit "/") (segments (take p F1)) ++ lit ".shard"
  /\ concat (segments (take p F1)) = take p F1
  /\ ((p <= length F1)%nat ->
      exists full last,
        segments (take p F1) = full ++ [last]
        /\ Forall (fun s => length s = 2%nat) full
        /\ length last = (if Nat.even p then 2 else 1)%nat
        /\ length full = Nat.div2 (p - 1)).
Proof.
  intros Hp. split; [|split; [|split]].
  - unfold shard_path_of. split.
    + apply get_shard_path_inj.
    + by intros ->.
  - reflexivity.
  - rewrite segments_chunks2. apply chunks2_concat.
  - intros Hlen. rewrite segments_chunks2.
    destruct (chunks2_shape (take p F1)) as (full & last & E & HF & HL & HN).
    + intros E. apply (f_equal length) in E. rewrite length_take in E. cbn in E. lia.
    + rewrite length_take in HL, HN.
      replace (p `min` length F1)%nat with p in * by lia.
      by exists full, last.
Qed.

Lemma shard_path_iff_prefix_witness :
  (shard_path_of (lit "root") 3 (lit "abcdef") = shard_path_of (lit "root") 3 (lit "abcxyz")
   <-> take 3 (lit "abcdef") = take 3 (lit "abcxyz"))
  /\ shard_path_of (lit "root") 3 (lit "abcdef") = lit "root/ab/c.shard".
Proof.
  destruct (shard_path_iff_prefix (lit "root") (lit "abcdef") (lit "abcxyz") 3) as (H1 & H2 & _).
  - lia.
  - split; [exact H1 | exact H2].
Defined.

(** ** The fingerprinter *)

(** C9. For every line L, fingerprinting returns the pair (L, digest): L is
    the line as given, the digest is the hash of the UTF-8 bytes of the
    normalized line, so two lines with the same normalized bytes get the same
    digest, whichever place of a batch they are in; a line that
    normalization strips entirely gets the digest of the empty input. *)
Theorem encode_digest_of_normalized (self : Encoder) :
  (forall L, encode self L = (L, hash self (utf8 (Normalizer_call (normalizer self) L))))
  /\ (forall L1 L2,
        utf8 (Normalizer_call (normalizer self) L1)
        = utf8 (Normalizer_call (normalizer self) L2) ->
        (encode self L1).2 = (encode self L2).2)
  /\ (forall lines i L,
        lines !! i = Some L -> encode_batch self lines !! i = Some (encode self L))
  /\ (forall L,
        Forall (fun c => in_class (pattern (normalizer self)) c = false) L ->
        encode self L = (L, hash self [])).
Proof.
  split; [|split; [|split]].
  - reflexivity.
  - intros L1 L2 E. unfold encode. cbn. by rewrite E.
  - intros lines i L Hi. unfold encode_batch. by rewrite list_lookup_fmap, Hi.
  - intros L HL. unfold encode, Normalizer_call. f_equal.
    replace (List.filter (in_class (pattern (normalizer self))) L) with (@nil N); [done|].
    induction HL as [|c L Hc _ IH]; [done|]. cbn. by rewrite Hc.
Qed.

Lemma encode_digest_of_normalized_witness :
  (encode example_encoder (lit "a b!")).2 = (encode example_encoder (lit "ab")).2
  /\ encode_batch example_encoder [lit "x"; lit "a b!"] !! 1%nat
     = Some (encode example_encoder (lit "a b!"))
  /\ encode example_encoder (lit "?! ") = (lit "?! ", hash example_encoder []).
Proof.
  destruct (encode_digest_of_normalized example_encoder) as (_ & H2 & H3 & H4).
  split; [|split].
  - apply H2. reflexivity.
  - apply H3. reflexivity.
  - apply H4. repeat constructor.
Defined.

(** ** Shard records *)

Lemma lstrip_keep c x : isspace c = false -> lstrip (c :: x) = c :: x.
Proof. intros H. cbn. by rewrite H. Qed.

Lemma lstrip_head x c y : lstrip x = c :: y -> isspace c = false.
Proof.
  induction x as [|d x IH]; [done|]. cbn.
  destruct (isspace d) eqn:Hd; [exact IH|]. by intros [= <- _].
Qed.


(** A stripped, non-empty text ends with a character that is no space. *)
Lemma strip_fixed_last L :
  strip L = L -> L <> [] -> exists L' c, L = L' ++ [c] /\ isspace c = false.
Proof.
  intros E HL. unfold strip, rstrip in E.
  destruct (lstrip (rev (lstrip L))) as [|c y] eqn:Ey.
  - cbn in E. congruence.
  - exists (rev y), c. split.
    + rewrite <- E. cbn. reflexivity.
    + by eapply lstrip_head.
Qed.

Lemma strip_record code L L' c :
  lstrip code = code -> code <> [] -> L = L' ++ [c] -> isspace c = false ->
  strip (record_line code L) = code ++ [SPACE] ++ L.
Proof.
  intros Hc Hne -> Hsp. unfold record_line, strip, rstrip.
  destruct code as [|a code]; [done|].
  assert (Ha : isspace a = false) by (by eapply lstrip_head).
  change ((a :: code) ++ [SPACE] ++ (L' ++ [c]) ++ [LF])
    with (a :: (code ++ [SPACE] ++ (L' ++ [c]) ++ [LF])).
  rewrite lstrip_keep by done.
  replace (a :: code ++ [SPACE] ++ (L' ++ [c]) ++ [LF])
    with (((a :: code) ++ [SPACE] ++ L') ++ [c] ++ [LF])
    by (by rewrite <- !app_assoc).
  rewrite !rev_app_distr. cbn [rev app]. cbn [lstrip].
  change (isspace LF) with true. cbn iota. rewrite Hsp.
  cbn [rev]. rewrite !rev_app_distr, !rev_involutive. cbn [rev app].
  by rewrite <- !app_assoc.
Qed.

Lemma cut_first c pre post : c ∉ pre -> cut c (pre ++ c :: post) = Some (pre, post).
Proof.
  induction pre as [|d pre IH]; intros Hn; cbn.
  - by rewrite N.eqb_refl.
  - apply not_elem_of_cons in Hn as [Hd Hn].
    destruct (N.eqb_spec d c); [congruence|]. by rewrite IH.
Qed.

Lemma translate_newlines_id x : CR ∉ x -> translate_newlines x = x.
Proof.
  induction x as [|c x IH]; [done|]. intros Hn.
  apply not_elem_of_cons in Hn as [Hc Hn]. cbn.
  destruct (N.eqb_spec c CR); [congruence|]. by rewrite IH.
Qed.

Lemma splitlines_line y rest :
  LF ∉ y -> splitlines (y ++ LF :: rest) = (y ++ [LF]) :: splitlines rest.
Proof.
  induction y as [|c y IH]; intros Hn; [reflexivity|].
  apply not_elem_of_cons in Hn as [Hc Hn]. cbn.
  destruct (N.eqb_spec c LF); [congruence|]. by rewrite IH.
Qed.

Lemma file_lines_record code L rest :
  LF ∉ code -> CR ∉ code -> LF ∉ L -> CR ∉ L -> CR ∉ rest ->
  file_lines (record_line code L ++ rest) = record_line code L :: file_lines rest.
Proof.
  intros H1 H2 H3 H4 H5. unfold file_lines.
  assert (Hlf : LF ∉ code ++ [SPACE] ++ L).
  { rewrite !elem_of_app, list_elem_of_singleton. intros [?|[?|?]]; done. }
  rewrite translate_newlines_id.
  - unfold record_line.
    replace ((code ++ [SPACE] ++ L ++ [LF]) ++ rest)
      with ((code ++ [SPACE] ++ L) ++ LF :: rest) by (by rewrite <- !app_assoc).
    rewrite splitlines_line by done. rewrite translate_newlines_id by done.
    by rewrite <- !app_assoc.
  - unfold record_line. rewrite !elem_of_app, !list_elem_of_singleton.
    intros [[?|[?|[?|?]]]|?]; done.
Qed.

Lemma parse_record code L :
  code <> [] -> lstrip code = code -> SPACE ∉ code ->
  L <> [] -> strip L = L ->
  split1 SPACE (strip (record_line code L)) = [code; L].
Proof.
  intros Hne Hls Hsp HL Hst.
  destruct (strip_fixed_last L Hst HL) as (L' & c & EL & Hc).
  rewrite (strip_record code L L' c) by done.
  unfold split1. cbn [app]. by rewrite cut_first.
Qed.

(** The records a shard holds are read back as they were written. *)
Lemma load_shard_text (records : list (list N * list N)) :
  Forall (fun r =>
            r.1 <> [] /\ lstrip r.1 = r.1 /\ (SPACE ∉ r.1) /\ (LF ∉ r.1) /\ (CR ∉ r.1)
            /\ r.2 <> [] /\ strip r.2 = r.2 /\ (LF ∉ r.2) /\ (CR ∉ r.2)) records ->
  load_shard (file_lines (shard_text records)) = pair_lines records.
Proof.
  induction 1 as [|r records (H1 & H2 & H3 & H4 & H5 & H6 & H7 & H8 & H9) HF IH];
    [reflexivity|].
  unfold shard_text. cbn [fmap list_fmap concat].
  rewrite file_lines_record; try done.
  - unfold load_shard, pair_lines in *. cbn [fmap list_fmap]. f_equal.
    + by apply parse_record.
    + exact IH.
  - clear IH. induction HF as [|r' rs (_ & _ & _ & _ & G5 & _ & _ & _ & G9) _ IH'];
      [by apply not_elem_of_nil|].
    cbn [fmap list_fmap concat]. unfold record_line.
    rewrite !elem_of_app, !list_elem_of_singleton.
    intros [[?|[?|[?|?]]]|?]; done.
Qed.

(** ** Grouping by fingerprint *)

Lemma mapM_unpack2 pairs : mapM unpack2 (pair_lines pairs) = Ok pairs.
Proof.
  induction pairs as [|[c t] pairs IH]; [reflexivity|].
  unfold pair_lines in *. cbn [fmap list_fmap mapM]. cbn [unpack2 fst snd].
  unfold mbind at 1. cbn [result_bind]. rewrite IH. reflexivity.
Qed.

Section DictFacts.
Context {K V : Type} `{EqDecision K}.
Implicit Types (d : list (K * list V)).

Lemma dict_append_new d k v : k ∉ d.*1 -> dict_append d k v = d ++ [(k, [v])].
Proof.
  induction d as [|[k' vs] d IH]; [done|]. cbn. intros Hn.
  apply not_elem_of_cons in Hn as [Hk Hn].
  destruct (decide (k' = k)); [congruence|]. by rewrite IH.
Qed.

Lemma dict_append_keys d k v : k ∈ d.*1 -> (dict_append d k v).*1 = d.*1.
Proof.
  induction d as [|[k' vs] d IH]; [by intros ?%elem_of_nil|]. cbn. intros Hin.
  destruct (decide (k' = k)); [done|]. cbn. f_equal. apply IH.
  apply elem_of_cons in Hin as [?|?]; [congruence|done].
Qed.

Lemma dict_append_heads d k v :
  k ∈ d.*1 -> Forall (fun kv => kv.2 <> []) d ->
  heads (dict_append d k v) = heads d /\ Forall (fun kv => kv.2 <> []) (dict_append d k v).
Proof.
  induction d as [|[k' vs] d IH]; [by intros ?%elem_of_nil|]. cbn. intros Hin HF.
  apply Forall_cons in HF as [Hvs HF]. cbn in Hvs.
  destruct (decide (k' = k)).
  - split.
    + unfold heads. cbn. f_equal. by destruct vs.
    + constructor; [|done]. cbn. by destruct vs.
  - apply elem_of_cons in Hin as [?|Hin]; [congruence|].
    destruct (IH Hin HF) as [E F]. split.
    + unfold heads in *. cbn. by rewrite E.
    + by constructor.
Qed.
End DictFacts.

Lemma first_seen_from_ext s1 s2 pairs :
  (forall c, c ∈ s1 <-> c ∈ s2) -> first_seen_from s1 pairs = first_seen_from s2 pairs.
Proof.
  revert s1 s2. induction pairs as [|p pairs IH]; intros s1 s2 Hs; [done|]. cbn.
  destruct (decide (p.1 ∈ s1)) as [H1|H1], (decide (p.1 ∈ s2)) as [H2|H2].
  - by apply IH.
  - by apply Hs in H1.
  - by apply Hs in H2.
  - f_equal. apply IH. intros c. rewrite !elem_of_cons. by rewrite Hs.
Qed.

(** What [unique] holds after the loop, from any dictionary [d] whose lists
    are not empty: the keys of [d] and then the new fingerprints in the order
    they are first seen, each with the line it is first seen with at the head
    of its list. *)
Lemma dict_group_first_seen (pairs : list (list N * list N)) :
  forall d : list (list N * list (list N)),
    Forall (fun kv => kv.2 <> []) d ->
    (dict_group d pairs).*1 = d.*1 ++ (first_seen_from d.*1 pairs).*1
    /\ heads (dict_group d pairs) = heads d ++ (Some <$> (first_seen_from d.*1 pairs).*2)
    /\ Forall (fun kv => kv.2 <> []) (dict_group d pairs).
Proof.
  induction pairs as [|[c t] pairs IH]; intros d HF.
  - cbn. by rewrite !app_nil_r.
  - unfold dict_group. cbn [foldl fst snd first_seen_from].
    fold (dict_group (dict_append d c t) pairs).
    destruct (decide (c ∈ d.*1)) as [Hin|Hn].
    + destruct (dict_append_heads d c t Hin HF) as [Eh HF'].
      destruct (IH _ HF') as (E1 & E2 & E3).
      rewrite (dict_append_keys d c t Hin) in E1, E2. rewrite Eh in E2. done.
    + rewrite (dict_append_new d c t Hn).
      assert (HF' : Forall (fun kv : list N * list (list N) => kv.2 <> []) (d ++ [(c, [t])])).
      { apply Forall_app. split; [done|]. by constructor. }
      destruct (IH _ HF') as (E1 & E2 & E3).
      rewrite fmap_app in E1, E2. cbn [fmap list_fmap fst] in E1, E2.
      rewrite (first_seen_from_ext (d.*1 ++ [c]) (c :: d.*1)) in E1, E2
        by (intros x; rewrite elem_of_app, list_elem_of_singleton, elem_of_cons; tauto).
      split; [|split; [|done]].
      * rewrite E1. cbn. by rewrite <- app_assoc.
      * rewrite E2. unfold heads. rewrite fmap_app. cbn. by rewrite <- app_assoc.
Qed.

Lemma mapM_index0 (d : list (list N * list (list N))) texts :
  heads d = Some <$> texts -> mapM (fun kv => index0 kv.2) d = Ok texts.
Proof.
  revert texts. induction d as [|[k vs] d IH]; intros [|t texts] E; try done.
  unfold heads in E. cbn in E. injection E as E1 E2.
  cbn [mapM snd]. destruct vs as [|v vs]; [done|]. cbn in E1. injection E1 as ->.
  cbn [index0]. unfold mbind at 1. cbn [result_bind].
  rewrite (IH texts) by done. reflexivity.
Qed.

(** The code's [unique] and [texts] are the survivors of "first seen
    wins". *)
Lemma dedup_texts_first_seen pairs :
  exists unique,
    dedup_texts (pair_lines pairs) = Ok (unique, (first_seen_wins pairs).*2)
    /\ unique = dict_group [] pairs
    /\ unique.*1 = (first_seen_wins pairs).*1.
Proof.
  exists (dict_group [] pairs).
  destruct (dict_group_first_seen pairs []) as (E1 & E2 & _); [constructor|].
  split; [|split; [done|exact E1]].
  unfold dedup_texts. rewrite mapM_unpack2. unfold mbind at 1. cbn [result_bind].
  rewrite (mapM_index0 _ (first_seen_wins pairs).*2) by exact E2.
  reflexivity.
Qed.

(** *** What "first seen wins" keeps *)

Lemma first_seen_from_elem seen pairs c t :
  (c, t) ∈ first_seen_from seen pairs
  <-> (c ∉ seen) /\ exists pre post, pairs = pre ++ (c, t) :: post /\ (c ∉ pre.*1).
Proof.
  revert seen. induction pairs as [|[c' t'] pairs IH]; intros seen; cbn [first_seen_from fst].
  - split; [by intros ?%elem_of_nil|]. intros (_ & pre & post & E & _). by destruct pre.
  - destruct (decide (c' ∈ seen)) as [Hin|Hn].
    + rewrite IH. split.
      * intros (Hc & pre & post & -> & Hpre). split; [done|].
        exists ((c', t') :: pre), post. split; [done|]. cbn.
        apply not_elem_of_cons. split; [|done]. congruence.
      * intros (Hc & pre & post & E & Hpre). split; [done|].
        destruct pre as [|p pre]; cbn in E.
        -- injection E as E1 E2 E3. by subst.
        -- injection E as E1 E2. subst p. exists pre, post. split; [done|].
           cbn in Hpre. by apply not_elem_of_cons in Hpre as [_ ?].
    + rewrite elem_of_cons, IH. split.
      * intros [[= -> ->]|(Hc & pre & post & -> & Hpre)].
        -- split; [done|]. exists [], pairs. split; [done|]. apply not_elem_of_nil.
        -- apply not_elem_of_cons in Hc as [Hne Hc]. split; [done|].
           exists ((c', t') :: pre), post. split; [done|]. cbn.
           by apply not_elem_of_cons.
      * intros (Hc & pre & post & E & Hpre).
        destruct pre as [|p pre]; cbn in E.
        -- injection E as E1 E2 E3. subst. by left.
        -- injection E as E1 E2. subst p. right. cbn in Hpre.
           apply not_elem_of_cons in Hpre as [Hne Hpre].
           split; [by apply not_elem_of_cons|]. by exists pre, post.
Qed.

Lemma first_seen_from_keys seen pairs c :
  c ∈ (first_seen_from seen pairs).*1 <-> (c ∈ pairs.*1) /\ (c ∉ seen).
Proof.
  revert seen. induction pairs as [|[c' t'] pairs IH]; intros seen; cbn [first_seen_from fst].
  - cbn. rewrite elem_of_nil. tauto.
  - destruct (decide (c' ∈ seen)) as [Hin|Hn]; cbn.
    + rewrite IH, elem_of_cons. split; [tauto|]. intros [[->|?] ?]; done.
    + rewrite !elem_of_cons, IH, not_elem_of_cons. split.
      * intros [->|(? & ? & ?)]; tauto.
      * intros [[->|?] ?]; [by left|]. destruct (decide (c = c')); [by left|tauto].
Qed.

Lemma first_seen_from_NoDup seen pairs : NoDup (first_seen_from seen pairs).*1.
Proof.
  revert seen. induction pairs as [|[c' t'] pairs IH]; intros seen; cbn [first_seen_from fst].
  - constructor.
  - destruct (decide (c' ∈ seen)); [apply IH|]. cbn. constructor; [|apply IH].
    rewrite first_seen_from_keys, not_elem_of_cons. tauto.
Qed.

Lemma first_seen_from_sublist seen pairs : first_seen_from seen pairs `sublist_of` pairs.
Proof.
  revert seen. induction pairs as [|p pairs IH]; intros seen; cbn; [constructor|].
  destruct (decide (p.1 ∈ seen)); [apply sublist_cons | apply sublist_skip]; apply IH.
Qed.

Lemma first_seen_wins_length pairs :
  length (first_seen_wins pairs) = length (remove_dups pairs.*1).
Proof.
  rewrite <- (length_fmap fst). apply Permutation_length, NoDup_Permutation.
  - apply first_seen_from_NoDup.
  - apply NoDup_remove_dups.
  - intros c. unfold first_seen_wins.
    rewrite first_seen_from_keys, elem_of_remove_dups, elem_of_nil. tauto.
Qed.

(** ** Running the calls *)

Lemma bind_run {A B} (m : io A) (f : A -> io B) w :
  (m ≫= f) w = match m w with
               | (Ok a, w') => f a w'
               | (Raise e, w') => (Raise e, w')
               end.
Proof. reflexivity. Qed.

Lemma open_read_run path w :
  open_read path w
  = (match files w !! path with
     | Some content => Ok (file_lines content)
     | None => Raise FileNotFoundError
     end, log (EvOpenRead path) w).
Proof.
  unfold open_read. rewrite bind_run. cbn. rewrite bind_run. cbn.
  by destruct (files w !! path).
Qed.

Lemma open_append_run path text w :
  open_append path text w
  = (Ok tt, {| files := <[path := default [] (files w !! path) ++ text]> (files w);
               trace := trace w ++ [EvOpenAppend path text] |}).
Proof. reflexivity. Qed.

Lemma open_write_run path text w :
  open_write path text w
  = (Ok tt, {| files := <[path := text]> (files w);
               trace := trace w ++ [EvOpenWrite path text] |}).
Proof. reflexivity. Qed.

Lemma popen_wc_run inpath w :
  popen_wc inpath w
  = (match files w !! inpath with
     | Some content => Ok (Z.of_nat (length (List.filter (N.eqb LF) content)))
     | None => Raise IndexError
     end, log (EvPopen (lit "wc -l " ++ inpath)) w).
Proof.
  unfold popen_wc. rewrite bind_run. cbn. rewrite bind_run. cbn.
  by destruct (files w !! inpath).
Qed.

(** C10 (as amended). For every non-empty fingerprint code that does not
    start with white space and contains no space and no line break, and every
    non-empty line L with no leading or trailing white space and no line
    break, the record "<code> <L>" written to a shard is read back by merge
    (strip, then split on the first space) as exactly the pair (code, L),
    also when L contains spaces. *)
Theorem record_roundtrip (code L : list N) :
  code <> [] -> lstrip code = code -> SPACE ∉ code -> LF ∉ code -> CR ∉ code ->
  L <> [] -> strip L = L -> LF ∉ L -> CR ∉ L ->
  load_shard (file_lines (record_line code L)) = [[code; L]]
  /\ mapM unpack2 (load_shard (file_lines (record_line code L))) = Ok [(code, L)]
  /\ forall w path,
       files w !! path = None ->
       exists w1 w2,
         open_append path (record_line code L) w = (Ok tt, w1)
         /\ open_read path w1 = (Ok [record_line code L], w2)
         /\ files w2 !! path = Some (record_line code L).
Proof.
  intros H1 H2 H3 H4 H5 H6 H7 H8 H9.
  assert (E : load_shard (file_lines (record_line code L)) = [[code; L]]).
  { pose proof (load_shard_text [(code, L)]) as Hl.
    unfold shard_text in Hl. cbn [fmap list_fmap concat fst snd] in Hl.
    rewrite app_nil_r in Hl. apply Hl. by repeat constructor. }
  split; [exact E|]. split; [by rewrite E|].
  intros w path Hw. eexists _, _. split; [apply open_append_run|].
  rewrite open_read_run. cbn [files log]. rewrite lookup_insert_eq, Hw. cbn [default app].
  pose proof (file_lines_record code L [] H4 H5 H8 H9) as Hf.
  rewrite app_nil_r in Hf. rewrite Hf by apply not_elem_of_nil.
  split; [reflexivity|]. cbn [files log]. apply lookup_insert_eq.
Qed.

Lemma record_roundtrip_witness :
  load_shard (file_lines (record_line (lit "3f2a") (lit "two  words"))) = [[lit "3f2a"; lit "two  words"]].
Proof.
  apply (record_roundtrip (lit "3f2a") (lit "two  words"));
    first [reflexivity | compute_done].
Defined.

(** The claim as first stated fails for the empty fingerprint, which holds no
    space: the record of the line "x" is read back as the one-element list
    ["x"], and its unpacking raises. *)
Lemma record_roundtrip_empty_code :
  (SPACE ∉ @nil N) /\ lit "x" <> [] /\ strip (lit "x") = lit "x"
  /\ (LF ∉ lit "x") /\ (CR ∉ lit "x")
  /\ load_shard (file_lines (record_line [] (lit "x"))) = [[lit "x"]]
  /\ load_shard (file_lines (record_line [] (lit "x"))) <> [[ []; lit "x" ]]
  /\ mapM unpack2 (load_shard (file_lines (record_line [] (lit "x")))) = Raise ValueError.
Proof. repeat split; first [reflexivity | compute_done]. Qed.

(** ** Queries and file calls *)

Lemma queries_only_refl w : queries_only w w.
Proof. split; [done|]. exists []. by rewrite app_nil_r. Qed.

Lemma queries_only_trans w1 w2 w3 :
  queries_only w1 w2 -> queries_only w2 w3 -> queries_only w1 w3.
Proof.
  intros [F1 (n1 & T1 & Q1)] [F2 (n2 & T2 & Q2)]. split; [congruence|].
  exists (n1 ++ n2). split.
  - by rewrite T2, T1, app_assoc.
  - by apply Forall_app.
Qed.

Lemma queries_only_log e w : is_file_io e = false -> queries_only w (log e w).
Proof. intros He. split; [done|]. exists [e]. split; [done|]. by constructor. Qed.

Section PipelineFacts.
Variable sha1 : list Byte.byte -> list N.
Variable glob : gmap (list N) (list N) -> list N -> list (list N).
Variable isdir : gmap (list N) (list N) -> list N -> bool.
Variable cpu_count : Z.

Lemma os_glob_run pathname w :
  os_glob glob pathname w = (Ok (glob (files w) pathname), log (EvGlob pathname) w).
Proof. reflexivity. Qed.

Lemma os_isdir_run path w :
  os_isdir isdir path w = (Ok (isdir (files w) path), log (EvIsdir path) w).
Proof. reflexivity. Qed.

Lemma glob_all_run inputs w :
  exists paths w', glob_all glob inputs w = (Ok paths, w') /\ queries_only w w'.
Proof.
  revert w. induction inputs as [|input inputs IH]; intros w.
  - exists [], w. split; [done|apply queries_only_refl].
  - cbn [glob_all]. rewrite bind_run, os_glob_run.
    destruct (IH (log (EvGlob input) w)) as (paths & w' & E & Q).
    rewrite bind_run, E. eexists _, w'. split; [reflexivity|].
    eapply queries_only_trans; [|exact Q]. by apply queries_only_log.
Qed.

Lemma resolve_inputs_run inputs w :
  exists paths w', resolve_inputs glob isdir inputs w = (Ok paths, w') /\ queries_only w w'.
Proof.
  destruct inputs as [x|l]; [|apply glob_all_run].
  cbn [resolve_inputs]. rewrite bind_run, os_isdir_run.
  destruct (isdir (files w) x); rewrite bind_run, os_glob_run;
    (eexists _, _; split; [reflexivity|]);
    (eapply queries_only_trans; [|by apply queries_only_log]);
    by apply queries_only_log.
Qed.

Lemma collect_filepaths_run inputs : forall filepaths w,
  exists paths w',
    collect_filepaths glob isdir inputs filepaths w = (Ok paths, w') /\ queries_only w w'.
Proof.
  induction inputs as [|input inputs IH]; intros filepaths w.
  - exists filepaths, w. split; [done|apply queries_only_refl].
  - cbn [collect_filepaths]. rewrite bind_run, os_isdir_run.
    destruct (isdir (files w) input).
    + rewrite bind_run, os_glob_run.
      destruct (IH (filepaths ++ glob (files (log (EvIsdir input) w)) (input ++ lit "/*"))
                   (log (EvGlob (input ++ lit "/*")) (log (EvIsdir input) w)))
        as (paths & w' & E & Q).
      exists paths, w'. split; [exact E|].
      eapply queries_only_trans; [|exact Q].
      eapply queries_only_trans; [|by apply queries_only_log]. by apply queries_only_log.
    + destruct (IH (filepaths ++ [input]) (log (EvIsdir input) w)) as (paths & w' & E & Q).
      exists paths, w'. split; [exact E|].
      eapply queries_only_trans; [|exact Q]. by apply queries_only_log.
Qed.

Lemma Encoder_init_unsupported sel norm :
  supported_selector sel = false -> Encoder_init sha1 sel norm = Raise ValueError.
Proof.
  destruct sel as [f|name|]; cbn; [done| |done].
  intros H. by rewrite H.
Qed.

Lemma Encoder_init_supported sel norm :
  supported_selector sel = true ->
  exists h, Encoder_init sha1 sel norm = Ok {| normalizer := norm; hash := h |}.
Proof.
  destruct sel as [f|name|]; cbn; [by exists f| |done].
  intros H. rewrite H. by exists sha1.
Qed.

(** With a selector that is not supported, [task_encode] stops before it
    opens a file. *)
Lemma task_encode_unsupported inputs shard_root chunksize n_processes sel fmt p w :
  supported_selector sel = false ->
  exists e w',
    task_encode sha1 glob isdir inputs shard_root chunksize n_processes sel fmt p w
    = (Raise e, w')
    /\ queries_only w w'
    /\ (forall norm, Normalizer_init fmt = Ok norm -> e = ValueError).
Proof.
  intros Hsel. unfold task_encode.
  destruct (resolve_inputs_run inputs w) as (paths & w' & E & Q).
  rewrite bind_run, E, bind_run. unfold lift at 1.
  destruct (Normalizer_init fmt) as [norm|e] eqn:En.
  - rewrite bind_run. unfold lift. rewrite Encoder_init_unsupported by done.
    exists ValueError, w'. done.
  - exists e, w'. split; [done|]. split; [done|]. by intros norm [=].
Qed.

Lemma io_iter_ok {A} (f : A -> io unit) l :
  (forall x w, exists w', f x w = (Ok tt, w')) ->
  forall w, exists w', io_iter f l w = (Ok tt, w').
Proof.
  intros Hf. induction l as [|x l IH]; intros w; [by exists w|].
  cbn [io_iter]. rewrite bind_run. destruct (Hf x w) as [w1 ->]. apply IH.
Qed.

(** [save_shards] fails on its assertion, or not at all. *)
Lemma save_shards_run shard_root encoded_lines p w :
  if (2 <=? p)%Z
  then exists w', save_shards shard_root encoded_lines p w = (Ok tt, w')
  else save_shards shard_root encoded_lines p w = (Raise AssertionError, w).
Proof.
  unfold save_shards. rewrite bind_run. unfold lift, py_assert.
  destruct (2 <=? p)%Z; [|done].
  apply io_iter_ok. intros kv w0. rewrite bind_run. cbn [emit].
  rewrite open_append_run. by eexists.
Qed.

Lemma save_shards_no_ValueError shard_root encoded_lines p w :
  (save_shards shard_root encoded_lines p w).1 <> Raise ValueError.
Proof.
  pose proof (save_shards_run shard_root encoded_lines p w) as H.
  destruct (2 <=? p)%Z; [destruct H as [w' ->]|rewrite H]; done.
Qed.

Lemma encode_lines_no_ValueError shard_root batchsize hash_func p lines :
  forall batch_lines w,
    (encode_lines shard_root batchsize hash_func p lines batch_lines w).1 <> Raise ValueError.
Proof.
  induction lines as [|line lines IH]; intros batch_lines w; [done|].
  cbn [encode_lines]. case_bool_decide; [apply IH|].
  destruct (batchsize <=? _)%Z; [|apply IH].
  rewrite bind_run.
  pose proof (save_shards_no_ValueError shard_root
                (encode_batch hash_func (batch_lines ++ [strip line])) p w) as Hs.
  destruct (save_shards _ _ _ w) as [[[]|e] w1]; [apply IH|].
  cbn in *. congruence.
Qed.

(** Once the encoder is built, encoding a file does not raise
    [ValueError], whatever the lines. *)
Lemma encode_a_file_no_ValueError inpath shard_root chunksize n_processes hash_func p w :
  (encode_a_file inpath shard_root chunksize n_processes hash_func p w).1 <> Raise ValueError.
Proof.
  unfold encode_a_file. rewrite bind_run. unfold lift at 1, py_assert.
  destruct (_ && _); [|done].
  rewrite bind_run, popen_wc_run.
  destruct (files w !! inpath) as [content|] eqn:Ew; [|done].
  rewrite bind_run, open_read_run. cbn [files log]. rewrite Ew, bind_run.
  pose proof (encode_lines_no_ValueError shard_root (n_processes * chunksize) hash_func p
                (file_lines content) []
                (log (EvOpenRead inpath) (log (EvPopen (lit "wc -l " ++ inpath)) w))) as Hl.
  destruct (encode_lines _ _ _ _ _ _ _) as [[batch|e] w1]; [|cbn in *; congruence].
  destruct batch; [done|]. apply save_shards_no_ValueError.
Qed.

(** C8. A digest selector that is neither a callable nor the supported
    built-in name makes the construction of the fingerprinter raise the
    configuration error; in [task_encode] this happens before any file is
    opened, so before any record is processed; a selector that is
    supported gives an encoder, and encoding a file with an encoder never
    raises that error, whatever its records. *)
Theorem unsupported_digest_raises_at_construction (sel : hash_selector) :
  (supported_selector sel = false ->
     (forall norm, Encoder_init sha1 sel norm = Raise ValueError)
     /\ forall inputs shard_root chunksize n_processes fmt p w,
          exists e w',
            task_encode sha1 glob isdir inputs shard_root chunksize n_processes sel fmt p w
            = (Raise e, w')
            /\ queries_only w w'
            /\ (forall norm, Normalizer_init fmt = Ok norm -> e = ValueError))
  /\ (supported_selector sel = true ->
        forall norm, exists h,
          Encoder_init sha1 sel norm = Ok {| normalizer := norm; hash := h |})
  /\ (forall hash_func inpath shard_root chunksize n_processes p w,
        (encode_a_file inpath shard_root chunksize n_processes hash_func p w).1
        <> Raise ValueError).
Proof.
  split; [|split].
  - intros Hsel. split.
    + intros norm. by apply Encoder_init_unsupported.
    + intros. by apply task_encode_unsupported.
  - intros Hsel norm. by apply Encoder_init_supported.
  - intros. apply encode_a_file_no_ValueError.
Qed.
End PipelineFacts.

Lemma unsupported_digest_raises_at_construction_witness :
  Encoder_init hex_digest (HashName (lit "md5")) default_normalizer = Raise ValueError
  /\ (exists h, Encoder_init hex_digest (HashName (lit "sha1")) default_normalizer
                = Ok {| normalizer := default_normalizer; hash := h |}).
Proof.
  split.
  - destruct (unsupported_digest_raises_at_construction hex_digest simple_glob simple_isdir
                (HashName (lit "md5"))) as (H & _ & _).
    apply H. reflexivity.
  - destruct (unsupported_digest_raises_at_construction hex_digest simple_glob simple_isdir
                (HashName (lit "sha1"))) as (_ & H & _).
    apply H. reflexivity.
Defined.

(** ** Orders and [sorted] *)

Lemma strict_total_N : strict_total N.ltb.
Proof.
  split.
  - intros a. apply N.ltb_irrefl.
  - intros a b c. rewrite !N.ltb_lt. lia.
  - intros a b. rewrite !N.ltb_lt. lia.
Qed.

Section Lex.
Context {A : Type} `{EqDecision A} (ltb : A -> A -> bool).
Hypothesis Hst : strict_total ltb.

Lemma lex_ltb_irrefl a : lex_ltb ltb a a = false.
Proof.
  induction a as [|x a IH]; [done|]. cbn.
  by rewrite (st_irrefl _ Hst), IH, andb_false_r.
Qed.

Lemma lex_ltb_trans a : forall b c,
  lex_ltb ltb a b = true -> lex_ltb ltb b c = true -> lex_ltb ltb a c = true.
Proof.
  induction a as [|x a IH]; intros [|y b] [|z c]; cbn; try done.
  rewrite !orb_true_iff, !andb_true_iff, !bool_decide_eq_true.
  intros [Hxy|[-> Hab]] [Hyz|[-> Hbc]].
  - left. by eapply (st_trans _ Hst).
  - by left.
  - by left.
  - right. split; [done|]. by eapply IH.
Qed.

Lemma lex_ltb_total a : forall b, a = b \/ lex_ltb ltb a b = true \/ lex_ltb ltb b a = true.
Proof.
  induction a as [|x a IH]; intros [|y b]; cbn; try tauto.
  destruct (st_total _ Hst x y) as [->|[H|H]].
  - destruct (IH b) as [->|[H|H]]; [by left| |].
    + right. left. by rewrite bool_decide_true, H, orb_true_r.
    + right. right. by rewrite bool_decide_true, H, orb_true_r.
  - right. left. by rewrite H.
  - right. right. by rewrite H.
Qed.

Lemma strict_total_lex : strict_total (lex_ltb ltb).
Proof. split; [apply lex_ltb_irrefl | apply lex_ltb_trans | apply lex_ltb_total]. Qed.
End Lex.

Lemma strict_total_str : strict_total str_ltb.
Proof. apply strict_total_lex, strict_total_N. Qed.

Lemma strict_total_strs : strict_total strs_ltb.
Proof. apply strict_total_lex, strict_total_str. Qed.

Lemma strict_total_item : strict_total item_ltb.
Proof.
  pose proof strict_total_str as S1. pose proof strict_total_strs as S2.
  split.
  - intros [k v]. unfold item_ltb. cbn.
    by rewrite (st_irrefl _ S1), (st_irrefl _ S2), andb_false_r.
  - intros [k1 v1] [k2 v2] [k3 v3]. unfold item_ltb. cbn.
    rewrite !orb_true_iff, !andb_true_iff, !bool_decide_eq_true.
    intros [H12|[-> H12]] [H23|[-> H23]].
    + left. by eapply (st_trans _ S1).
    + by left.
    + by left.
    + right. split; [done|]. by eapply (st_trans _ S2).
  - intros [k1 v1] [k2 v2]. unfold item_ltb. cbn.
    rewrite !orb_true_iff, !andb_true_iff, !bool_decide_eq_true.
    destruct (st_total _ S1 k1 k2) as [->|[H|H]]; [|tauto|tauto].
    destruct (st_total _ S2 v1 v2) as [->|[H|H]]; tauto.
Qed.

Section SortedFacts.
Context {A : Type} (ltb : A -> A -> bool).
Hypothesis Hst : strict_total ltb.

Local Abbreviation le := (le_of ltb).

Lemma lt_le a b : ltb a b = true -> le a b.
Proof.
  intros H. unfold le_of. destruct (ltb b a) eqn:E; [|done].
  pose proof (st_trans _ Hst _ _ _ H E) as F. by rewrite (st_irrefl _ Hst) in F.
Qed.

Lemma le_trans a b c : le a b -> le b c -> le a c.
Proof.
  unfold le_of. intros Hab Hbc. destruct (ltb c a) eqn:E; [|done].
  destruct (st_total _ Hst a b) as [->|[H|H]]; [congruence| |congruence].
  pose proof (st_trans _ Hst _ _ _ E H). congruence.
Qed.

Lemma insert_sorted_perm x l : insert_sorted ltb x l ≡ₚ x :: l.
Proof.
  induction l as [|y l IH]; [done|]. cbn. destruct (ltb y x); [|done].
  rewrite IH. apply Permutation_swap.
Qed.

Lemma sorted_perm l : sorted ltb l ≡ₚ l.
Proof.
  induction l as [|x l IH]; [done|]. cbn. by rewrite insert_sorted_perm, IH.
Qed.

Lemma insert_sorted_sorted x l :
  StronglySorted le l -> StronglySorted le (insert_sorted ltb x l).
Proof.
  induction 1 as [|y l Hl IH Hy]; cbn.
  - repeat constructor.
  - destruct (ltb y x) eqn:E.
    + constructor; [exact IH|].
      rewrite insert_sorted_perm. constructor; [by apply lt_le|exact Hy].
    + constructor; [by constructor|]. constructor; [exact E|].
      eapply Forall_impl; [exact Hy|]. intros z Hz. by eapply le_trans.
Qed.

Lemma sorted_sorted l : StronglySorted le (sorted ltb l).
Proof.
  induction l as [|x l IH]; cbn; [constructor|]. by apply insert_sorted_sorted.
Qed.
End SortedFacts.

(** ** The records of a dictionary *)

Lemma records_of_cons kv items :
  records_of (kv :: items) = ((fun text => (kv.1, text)) <$> kv.2) ++ records_of items.
Proof. reflexivity. Qed.

Lemma records_of_app d1 d2 : records_of (d1 ++ d2) = records_of d1 ++ records_of d2.
Proof. apply bind_app. Qed.

Lemma records_of_keys d r : r ∈ records_of d -> r.1 ∈ d.*1.
Proof.
  induction d as [|[k vs] d IH]; [by intros ?%elem_of_nil|].
  rewrite records_of_cons, elem_of_app. cbn. intros [H|H].
  - apply list_elem_of_fmap in H as (t & -> & _). by left.
  - right. by apply IH.
Qed.

Lemma filter_records_absent c d :
  c ∉ d.*1 -> filter (fun r : list N * list N => r.1 = c) (records_of d) = [].
Proof.
  intros Hc. induction (records_of d) as [|r rs IH] eqn:E in Hc |- *; [done|].
  rewrite filter_cons_False.
  - assert (H : forall x, x ∈ rs -> x.1 ∈ d.*1).
    { intros x Hx. apply records_of_keys. rewrite E. by right. }
    clear E IH. induction rs as [|r' rs IH]; [done|].
    rewrite filter_cons_False; [apply IH; intros x Hx; apply H; by right|].
    intros <-. apply Hc, H. by left.
  - intros <-. apply Hc, records_of_keys. rewrite E. by left.
Qed.

Lemma filter_expand c k (vs : list (list N)) :
  filter (fun r : list N * list N => r.1 = c) ((fun text => (k, text)) <$> vs)
  = if decide (k = c) then (fun text => (k, text)) <$> vs else [].
Proof.
  induction vs as [|v vs IH]; [by destruct (decide (k = c))|]. cbn [fmap list_fmap].
  rewrite filter_cons, IH. cbn. by destruct (decide (k = c)).
Qed.

Lemma dict_append_NoDup (d : list (list N * list (list N))) k v :
  NoDup d.*1 -> NoDup (dict_append d k v).*1.
Proof.
  intros Hd. destruct (decide (k ∈ d.*1)) as [Hin|Hn].
  - by rewrite dict_append_keys.
  - rewrite dict_append_new, fmap_app by done. cbn.
    apply NoDup_app. split; [done|]. split; [|apply NoDup_singleton].
    intros x Hx ->%list_elem_of_singleton. done.
Qed.

Lemma dict_append_records_perm (d : list (list N * list (list N))) k v :
  records_of (dict_append d k v) ≡ₚ records_of d ++ [(k, v)].
Proof.
  induction d as [|[k' vs] d IH]; [done|]. cbn [dict_append].
  destruct (decide (k' = k)) as [->|Hne].
  - rewrite !records_of_cons. cbn [fst snd]. rewrite fmap_app. cbn [fmap list_fmap].
    rewrite <- !app_assoc. f_equiv. apply Permutation_app_comm.
  - rewrite !records_of_cons, IH. by rewrite <- app_assoc.
Qed.

Lemma dict_group_records_perm pairs : forall d : list (list N * list (list N)),
  records_of (dict_group d pairs) ≡ₚ records_of d ++ pairs.
Proof.
  induction pairs as [|[c t] pairs IH]; intros d.
  - cbn. by rewrite app_nil_r.
  - unfold dict_group. cbn [foldl fst snd]. fold (dict_group (dict_append d c t) pairs).
    rewrite IH, dict_append_records_perm. by rewrite <- app_assoc.
Qed.

Lemma dict_append_records_filter (d : list (list N * list (list N))) k v c :
  NoDup d.*1 ->
  filter (fun r : list N * list N => r.1 = c) (records_of (dict_append d k v))
  = filter (fun r : list N * list N => r.1 = c) (records_of d)
    ++ (if decide (k = c) then [(k, v)] else []).
Proof.
  induction d as [|[k' vs] d IH]; intros Hd.
  - change (records_of (dict_append [] k v)) with [(k, v)].
    change (records_of []) with (@nil (list N * list N)).
    rewrite filter_cons, !filter_nil. cbn. by destruct (decide (k = c)).
  - apply NoDup_cons in Hd as [Hk' Hd]. cbn [dict_append].
    destruct (decide (k' = k)) as [->|Hne].
    + rewrite !records_of_cons. cbn [fst snd].
      rewrite !filter_app, !filter_expand. rewrite fmap_app. cbn [fmap list_fmap].
      destruct (decide (k = c)) as [->|Hc].
      * rewrite (filter_records_absent c d) by done. by rewrite !app_nil_r.
      * by rewrite !app_nil_r.
    + rewrite !records_of_cons, !filter_app, IH by done. by rewrite <- app_assoc.
Qed.

Lemma dict_group_NoDup pairs : forall d : list (list N * list (list N)),
  NoDup d.*1 -> NoDup (dict_group d pairs).*1.
Proof.
  induction pairs as [|[c t] pairs IH]; intros d Hd; [done|].
  unfold dict_group. cbn [foldl fst snd]. fold (dict_group (dict_append d c t) pairs).
  by apply IH, dict_append_NoDup.
Qed.

Lemma dict_group_records_filter pairs c : forall d : list (list N * list (list N)),
  NoDup d.*1 ->
  filter (fun r : list N * list N => r.1 = c) (records_of (dict_group d pairs))
  = filter (fun r : list N * list N => r.1 = c) (records_of d)
    ++ filter (fun r : list N * list N => r.1 = c) pairs.
Proof.
  induction pairs as [|[k t] pairs IH]; intros d Hd.
  - change (dict_group d []) with d. by rewrite filter_nil, app_nil_r.
  - unfold dict_group. cbn [foldl fst snd]. fold (dict_group (dict_append d k t) pairs).
    rewrite IH by by apply dict_append_NoDup.
    rewrite dict_append_records_filter by done.
    rewrite filter_cons. cbn [fst]. rewrite <- app_assoc. f_equal.
    by destruct (decide (k = c)).
Qed.

Lemma records_filter_perm (l l' : list (list N * list (list N))) c :
  l ≡ₚ l' -> NoDup l.*1 ->
  filter (fun r : list N * list N => r.1 = c) (records_of l)
  = filter (fun r : list N * list N => r.1 = c) (records_of l').
Proof.
  induction 1 as [|x l l' Hp IH|x y l|l l' l'' H1 IH1 H2 IH2]; intros Hd.
  - done.
  - apply NoDup_cons in Hd as [_ Hd]. rewrite !records_of_cons, !filter_app. by rewrite IH.
  - cbn in Hd. apply NoDup_cons in Hd as [Hy Hd]. apply not_elem_of_cons in Hy as [Hyx _].
    rewrite !records_of_cons, !filter_app, !filter_expand.
    destruct (decide (x.1 = c)), (decide (y.1 = c)); try done; congruence.
  - rewrite IH1 by done. apply IH2. by rewrite <- H1.
Qed.

Lemma records_of_sorted (l : list (list N * list (list N))) :
  StronglySorted (le_of item_ltb) l ->
  StronglySorted (fun a b : list N * list N => str_ltb b.1 a.1 = false) (records_of l).
Proof.
  induction 1 as [|kv l Hl IH Hkv]; [constructor|].
  rewrite records_of_cons. apply StronglySorted_app_2.
  - intros r1 r2 H1 H2. apply list_elem_of_fmap in H1 as (t1 & -> & _). cbn.
    apply records_of_keys in H2. apply list_elem_of_fmap in H2 as (kv2 & -> & Hin).
    rewrite Forall_forall in Hkv. specialize (Hkv kv2 Hin).
    unfold item_ltb in Hkv. by apply orb_false_iff in Hkv as [? _].
  - induction kv.2 as [|t ts IHt]; cbn; constructor; [exact IHt|].
    apply Forall_forall. intros r Hr. apply list_elem_of_fmap in Hr as (t' & -> & _).
    cbn. apply (st_irrefl _ strict_total_str).
  - exact IH.
Qed.

(** What the sort of a shard writes: every record read, the records of a
    fingerprint in the order read, the fingerprints in ascending order. *)
Lemma sorted_records_spec pairs :
  let recs := sorted_records (dict_group [] pairs) in
  recs ≡ₚ pairs
  /\ (forall c, filter (fun r : list N * list N => r.1 = c) recs
                = filter (fun r : list N * list N => r.1 = c) pairs)
  /\ StronglySorted (fun a b : list N * list N => str_ltb b.1 a.1 = false) recs.
Proof.
  cbn zeta. unfold sorted_records. split; [|split].
  - unfold records_of. rewrite (sorted_perm item_ltb (dict_group [] pairs)).
    apply (dict_group_records_perm pairs []).
  - intros c.
    rewrite (records_filter_perm _ (dict_group [] pairs)).
    + by rewrite dict_group_records_filter by constructor.
    + apply sorted_perm.
    + rewrite (sorted_perm item_ltb (dict_group [] pairs)).
      apply dict_group_NoDup. constructor.
  - apply records_of_sorted, (sorted_sorted item_ltb strict_total_item).
Qed.

(** ** One shard of the merge *)

(** What [merge_shard] does with a shard whose lines are well-formed
    records: the state, the files and the calls. *)
Lemma merge_shard_run output max_block_size (sort : bool) st shard w content pairs :
  files w !! shard = Some content ->
  load_shard (file_lines content) = pair_lines pairs ->
  let texts := (first_seen_wins pairs).*2 in
  let st' := block_decision output max_block_size (count st (pair_lines pairs) texts)
                            (texts_size texts) in
  let fs := <[output_path st' := default [] (files w !! output_path st') ++ block_text texts]>
              (files w) in
  let rewritten := shard_text (sorted_records (dict_group [] pairs)) in
  merge_shard output max_block_size sort st shard w
  = (Ok st',
     {| files := if sort then <[shard := rewritten]> fs else fs;
        trace := trace w ++ [EvOpenRead shard; EvOpenAppend (output_path st') (block_text texts)]
                         ++ (if sort then [EvOpenWrite shard rewritten] else []) |}).
Proof.
  intros Hw Hl. cbn zeta. unfold merge_shard.
  rewrite bind_run, open_read_run, Hw, Hl.
  destruct (dedup_texts_first_seen pairs) as (unique & Hd & -> & _).
  rewrite bind_run. unfold lift at 1. rewrite Hd. cbn [fst snd].
  rewrite bind_run, open_append_run. cbn [files trace log].
  destruct sort.
  - rewrite bind_run, open_write_run. cbn [files trace mret io_ret].
    by rewrite <- !app_assoc.
  - cbn [mret io_ret mbind io_bind]. by rewrite <- !app_assoc, app_nil_r.
Qed.

(** C1. For a shard read during merge, grouping its (fingerprint, line)
    pairs by fingerprint keeps the first line seen per fingerprint in
    file-read order: the kept lines are those of the records that no earlier
    record shares its fingerprint with, in the order of the file, one for each
    distinct fingerprint, and exactly these lines, each followed by a
    newline, are appended to the current output block. *)
Theorem merge_keeps_first_seen (pairs : list (list N * list N)) :
  (exists unique,
     dedup_texts (pair_lines pairs) = Ok (unique, (first_seen_wins pairs).*2)
     /\ unique.*1 = (first_seen_wins pairs).*1)
  /\ (forall c t,
        (c, t) ∈ first_seen_wins pairs
        <-> exists pre post, pairs = pre ++ (c, t) :: post /\ (c ∉ pre.*1))
  /\ first_seen_wins pairs `sublist_of` pairs
  /\ NoDup (first_seen_wins pairs).*1
  /\ (forall c, c ∈ (first_seen_wins pairs).*1 <-> c ∈ pairs.*1)
  /\ length (first_seen_wins pairs).*2 = length (remove_dups pairs.*1)
  /\ (forall output max_block_size sort st shard w content,
        files w !! shard = Some content ->
        load_shard (file_lines content) = pair_lines pairs ->
        exists st' w' rest,
          merge_shard output max_block_size sort st shard w = (Ok st', w')
          /\ trace w' = trace w ++ [EvOpenRead shard;
                                    EvOpenAppend (output_path st')
                                      (block_text (first_seen_wins pairs).*2)] ++ rest
          /\ appended (output_path st') rest = []
          /\ (sort = false \/ output_path st' <> shard ->
              files w' !! output_path st'
              = Some (default [] (files w !! output_path st')
                      ++ block_text (first_seen_wins pairs).*2))).
Proof.
  split; [|split; [|split; [|split; [|split; [|split]]]]].
  - destruct (dedup_texts_first_seen pairs) as (unique & H1 & _ & H2). by exists unique.
  - intros c t. unfold first_seen_wins. rewrite first_seen_from_elem.
    split; [tauto|]. intros H. split; [apply not_elem_of_nil|done].
  - apply first_seen_from_sublist.
  - apply first_seen_from_NoDup.
  - intros c. unfold first_seen_wins. rewrite first_seen_from_keys.
    split; [tauto|]. intros H. split; [done|apply not_elem_of_nil].
  - rewrite length_fmap. apply first_seen_wins_length.
  - intros output max_block_size sort st shard w content Hw Hl.
    rewrite (merge_shard_run output max_block_size sort st shard w content pairs Hw Hl).
    eexists _, _, _. split; [reflexivity|]. cbn [trace files].
    split; [reflexivity|]. split.
    + by destruct sort.
    + intros Hs. destruct sort.
      * destruct Hs as [?|Hne]; [done|]. rewrite lookup_insert_ne by done.
        apply lookup_insert_eq.
      * apply lookup_insert_eq.
Qed.

Lemma merge_keeps_first_seen_witness :
  exists st' w' rest,
    merge_shard (lit "out.txt") None false (merge_init (lit "out.txt") None)
                (lit "shards/ab.shard") dup_world = (Ok st', w')
    /\ trace w' = trace dup_world
                  ++ [EvOpenRead (lit "shards/ab.shard");
                      EvOpenAppend (output_path st') (lit "x" ++ [LF])] ++ rest
    /\ appended (output_path st') rest = []
    /\ (false = false \/ output_path st' <> lit "shards/ab.shard" ->
        files w' !! output_path st'
        = Some (default [] (files dup_world !! output_path st') ++ lit "x" ++ [LF])).
Proof.
  destruct (merge_keeps_first_seen [(lit "ab", lit "x"); (lit "ab", lit "y")])
    as (_ & _ & _ & _ & _ & _ & H).
  apply (H (lit "out.txt") None false (merge_init (lit "out.txt") None)
           (lit "shards/ab.shard") dup_world
           (record_line (lit "ab") (lit "x") ++ record_line (lit "ab") (lit "y")));
    reflexivity.
Defined.

(** C4 (as amended). With the sort enabled, merge rewrites each shard file
    with every record it read from it, duplicates of a fingerprint included:
    the records of one fingerprint stay in the order read, the fingerprints
    come in ascending order, and each record is written as
    "<fingerprint> <line>". *)
Theorem sort_keeps_every_record (pairs : list (list N * list N)) :
  let recs := sorted_records (dict_group [] pairs) in
  recs ≡ₚ pairs
  /\ (forall c, filter (fun r : list N * list N => r.1 = c) recs
                = filter (fun r : list N * list N => r.1 = c) pairs)
  /\ StronglySorted (fun a b : list N * list N => str_ltb b.1 a.1 = false) recs
  /\ shard_text recs = concat ((fun r => r.1 ++ lit " " ++ r.2 ++ [LF]) <$> recs)
  /\ (forall output max_block_size st shard w content,
        files w !! shard = Some content ->
        load_shard (file_lines content) = pair_lines pairs ->
        exists st' w',
          merge_shard output max_block_size true st shard w = (Ok st', w')
          /\ files w' !! shard = Some (shard_text recs)).
Proof.
  cbn zeta. destruct (sorted_records_spec pairs) as (H1 & H2 & H3).
  split; [exact H1|]. split; [exact H2|]. split; [exact H3|]. split; [reflexivity|].
  intros output max_block_size st shard w content Hw Hl.
  rewrite (merge_shard_run output max_block_size true st shard w content pairs Hw Hl).
  eexists _, _. split; [reflexivity|]. cbn [files]. apply lookup_insert_eq.
Qed.

Lemma sort_keeps_every_record_witness :
  exists st' w',
    merge_shard (lit "out.txt") None true (merge_init (lit "out.txt") None)
                (lit "shards/ab.shard") dup_world = (Ok st', w')
    /\ files w' !! lit "shards/ab.shard"
       = Some (shard_text (sorted_records
                 (dict_group [] [(lit "ab", lit "x"); (lit "ab", lit "y")]))).
Proof.
  destruct (sort_keeps_every_record [(lit "ab", lit "x"); (lit "ab", lit "y")])
    as (_ & _ & _ & _ & H).
  apply (H (lit "out.txt") None (merge_init (lit "out.txt") None)
           (lit "shards/ab.shard") dup_world
           (record_line (lit "ab") (lit "x") ++ record_line (lit "ab") (lit "y")));
    reflexivity.
Defined.

(** The claim as first stated fails on a shard with two records of one
    fingerprint: one fingerprint survives, and the rewritten shard holds two
    records. *)
Lemma sort_keeps_duplicates :
  let r := merge_shard (lit "out.txt") None true (merge_init (lit "out.txt") None)
                       (lit "shards/ab.shard") dup_world in
  is_ok r.1 = true
  /\ files r.2 !! lit "shards/ab.shard"
     = Some (record_line (lit "ab") (lit "x") ++ record_line (lit "ab") (lit "y"))
  /\ first_seen_wins [(lit "ab", lit "x"); (lit "ab", lit "y")] = [(lit "ab", lit "x")]
  /\ length (sorted_records (dict_group [] [(lit "ab", lit "x"); (lit "ab", lit "y")])) = 2%nat
  /\ length (first_seen_wins [(lit "ab", lit "x"); (lit "ab", lit "y")]) = 1%nat.
Proof. vm_compute. repeat split. Qed.

(** ** The whole run *)

Section RunFacts.
Variable sha1 : list Byte.byte -> list N.
Variable glob : gmap (list N) (list N) -> list N -> list (list N).
Variable isdir : gmap (list N) (list N) -> list N -> bool.
Variable cpu_count : Z.

(** C3. When the merge step runs over a shard root with no shard file, so
    that no record is seen, the percentage of retained records is computed
    all the same: the merge ends by raising [ZeroDivisionError], after the
    directory of the output has been made, instead of handling the case. *)
Theorem merge_of_no_shard_divides_by_zero output shard_root prefix_length
    max_block_size sort w :
  glob (files w) (shard_pattern shard_root prefix_length) = [] ->
  task_merge glob output shard_root prefix_length max_block_size sort w
  = (Raise ZeroDivisionError,
     log (EvMakedirs output) (log (EvGlob (shard_pattern shard_root prefix_length)) w)).
Proof.
  intros Hg. unfold task_merge. rewrite bind_run, os_glob_run, Hg. reflexivity.
Qed.

(** The configuration errors that [task_dedup] does raise before any call
    to the operating system. *)
Lemma task_dedup_sort_without_keep inputs output shard_root chunksize n_processes
    sel fmt max_block_size p w :
  task_dedup sha1 glob isdir cpu_count inputs output shard_root chunksize n_processes
             sel fmt max_block_size true false p w
  = (Raise ValueError, w).
Proof. reflexivity. Qed.

Lemma task_dedup_bad_size inputs output shard_root chunksize n_processes
    sel fmt max_block_size sort keep p w e :
  humanized_to_number max_block_size = Raise e ->
  exists e',
    task_dedup sha1 glob isdir cpu_count inputs output shard_root chunksize n_processes
               sel fmt max_block_size sort keep p w
    = (Raise e', w).
Proof.
  intros H. unfold task_dedup. destruct (sort && negb keep); [by exists ValueError|].
  rewrite bind_run. unfold lift. rewrite H. by exists e.
Qed.

(** A digest selector that is not supported is refused after the inputs
    have been listed and before any file is opened. *)
Lemma task_dedup_bad_digest inputs output shard_root chunksize n_processes
    sel fmt max_block_size sort keep p w :
  supported_selector sel = false ->
  exists e w',
    task_dedup sha1 glob isdir cpu_count inputs output shard_root chunksize n_processes
               sel fmt max_block_size sort keep p w
    = (Raise e, w')
    /\ queries_only w w'.
Proof.
  intros Hsel. unfold task_dedup.
  destruct (sort && negb keep); [exists ValueError, w; split; [done|apply queries_only_refl]|].
  rewrite bind_run. unfold lift at 1.
  destruct (humanized_to_number max_block_size) as [b|e];
    [|exists e, w; split; [done|apply queries_only_refl]].
  destruct (collect_filepaths_run glob isdir
              match inputs with InputStr x => [x] | InputList l => l end [] w)
    as (paths & w1 & E1 & Q1).
  rewrite bind_run, E1, bind_run.
  destruct (task_encode_unsupported sha1 glob isdir (InputList paths) shard_root chunksize
              (default (cpu_count - 1)%Z n_processes) sel fmt p w1 Hsel)
    as (e & w2 & E2 & Q2 & _).
  rewrite E2. exists e, w2. split; [done|]. by eapply queries_only_trans.
Qed.
End RunFacts.

Lemma merge_of_no_shard_divides_by_zero_witness :
  task_merge simple_glob (lit "out.txt") (lit "shards") 4 None false empty_world
  = (Raise ZeroDivisionError,
     log (EvMakedirs (lit "out.txt")) (log (EvGlob (shard_pattern (lit "shards") 4)) empty_world)).
Proof.
  apply (merge_of_no_shard_divides_by_zero simple_glob (lit "out.txt") (lit "shards") 4
           None false empty_world).
  reflexivity.
Defined.

(** C5. A prefix length below 2 is not refused before the files are
    touched: on the input file holding a, b, a, c, [task_dedup] with prefix
    length 1 counts the lines of the file and opens and reads it before the
    assertion of [save_shards] fails; on an input with blank lines only the
    assertion is never reached, and the run ends in the division by zero of
    the merge. *)
Theorem prefix_length_checked_after_reading :
  let r := task_dedup hex_digest simple_glob simple_isdir 4
             (InputList [lit "in.txt"]) (lit "out.txt") (lit "shards") 100000 None
             (HashCallable hex_digest) default_input_format SizeNone false false 1
             abac_world in
  let r' := task_dedup hex_digest simple_glob simple_isdir 4
              (InputList [lit "in.txt"]) (lit "out.txt") (lit "shards") 100000 None
              (HashCallable hex_digest) default_input_format SizeNone false false 1
              blank_world in
  r.1 = Raise AssertionError
  /\ trace r.2 = [EvIsdir (lit "in.txt"); EvGlob (lit "in.txt");
                  EvPopen (lit "wc -l in.txt"); EvOpenRead (lit "in.txt")]
  /\ ~ queries_only abac_world r.2
  /\ r'.1 = Raise ZeroDivisionError
  /\ EvOpenRead (lit "in.txt") ∈ trace r'.2.
Proof.
  cbn zeta. split; [by vm_compute|]. split; [by vm_compute|]. split; [|split].
  - intros [_ (new & Hn & Hq)].
    assert (E : new = [EvIsdir (lit "in.txt"); EvGlob (lit "in.txt");
                       EvPopen (lit "wc -l in.txt"); EvOpenRead (lit "in.txt")]).
    { rewrite <- (app_nil_l new). change [] with (trace abac_world) at 1.
      rewrite <- Hn. by vm_compute. }
    rewrite E in Hq. apply Forall_cons in Hq as [_ Hq]. apply Forall_cons in Hq as [_ Hq].
    by apply Forall_cons in Hq as [Hq _].
  - by vm_compute.
  - vm_compute. repeat (first [by left | right]).
Qed.

(** ** Blocks *)

Lemma utf8_app x y : utf8 (x ++ y) = utf8 x ++ utf8 y.
Proof. apply bind_app. Qed.

Lemma written_size_app ws1 ws2 :
  written_size (ws1 ++ ws2) = (written_size ws1 + written_size ws2)%Z.
Proof.
  unfold written_size. rewrite concat_app, utf8_app, length_app. lia.
Qed.

Lemma written_size_nonneg ws : (0 <= written_size ws)%Z.
Proof. unfold written_size. lia. Qed.

(** The size the code computes for the texts of a shard is the number of
    bytes it then writes. *)
Lemma texts_size_written texts : texts_size texts = written_size [block_text texts].
Proof.
  unfold written_size, texts_size, block_text. cbn [concat]. rewrite app_nil_r.
  induction texts as [|t texts IH]; [reflexivity|].
  cbn [fmap list_fmap concat foldr length]. rewrite !utf8_app, !length_app.
  change (length (utf8 [LF])) with 1%nat. lia.
Qed.

Lemma lit_inj a b : lit a = lit b -> a = b.
Proof.
  unfold lit. intros E.
  assert (Hl : list_ascii_of_string a = list_ascii_of_string b).
  { revert E. generalize (list_ascii_of_string a), (list_ascii_of_string b).
    induction l as [|x l IH]; intros [|y l'] E; try done.
    cbn in E. injection E as E1 E2. f_equal; [|by apply IH].
    rewrite <- (ascii_N_embedding x), <- (ascii_N_embedding y). by rewrite E1. }
  rewrite <- (string_of_list_ascii_of_string a), <- (string_of_list_ascii_of_string b).
  by rewrite Hl.
Qed.

Lemma block_path_inj output i j : block_path output i = block_path output j -> i = j.
Proof.
  unfold block_path, str_of_Z. intros E.
  apply app_inv_head, app_inv_head, lit_inj in E. by apply (inj pretty) in E.
Qed.

Lemma appended_app p tr1 tr2 : appended p (tr1 ++ tr2) = appended p tr1 ++ appended p tr2.
Proof. apply omap_app. Qed.

Lemma appended_elem p text tr : text ∈ appended p tr -> EvOpenAppend p text ∈ tr.
Proof.
  unfold appended. rewrite list_elem_of_omap. intros (e & He & E).
  destruct e; try done. case_decide; [|done]. injection E as ->. by subst.
Qed.

Lemma appended_none p tr :
  (forall p' text, EvOpenAppend p' text ∈ tr -> p' <> p) -> appended p tr = [].
Proof.
  intros H. destruct (appended p tr) as [|t ts] eqn:E; [done|].
  assert (Ht : t ∈ appended p tr) by (rewrite E; by left).
  apply appended_elem in Ht. by apply H in Ht.
Qed.

Lemma appended_read p shard tr : appended p (EvOpenRead shard :: tr) = appended p tr.
Proof. reflexivity. Qed.

Lemma appended_append p p' text tr :
  appended p (EvOpenAppend p' text :: tr)
  = (if decide (p' = p) then [text] else []) ++ appended p tr.
Proof. unfold appended. simpl. destruct (decide (p' = p)); reflexivity. Qed.

(** What one shard adds to the calls: it is read; if this and the grouping
    succeed, its texts are appended to the block the decision chose; the
    rewriting of the shard, if any, appends nothing. *)
Lemma merge_shard_trace output max_block_size sort st shard w r w' :
  merge_shard output max_block_size sort st shard w = (r, w') ->
  (exists e, r = Raise e /\ trace w' = trace w ++ [EvOpenRead shard])
  \/ (exists lines texts rest,
        let st' := block_decision output max_block_size (count st lines texts)
                                  (texts_size texts) in
        r = Ok st'
        /\ trace w' = trace w ++ [EvOpenRead shard;
                                  EvOpenAppend (output_path st') (block_text texts)] ++ rest
        /\ (forall p text, EvOpenAppend p text ∉ rest)).
Proof.
  unfold merge_shard. rewrite bind_run, open_read_run.
  destruct (files w !! shard) as [content|]; [|intros [= <- <-]; left; by eexists].
  rewrite bind_run. unfold lift at 1.
  destruct (dedup_texts (load_shard (file_lines content))) as [[unique texts]|e];
    [|intros [= <- <-]; left; by eexists].
  cbn [fst snd]. rewrite bind_run, open_append_run.
  destruct sort.
  - rewrite bind_run, open_write_run. cbn [mret io_ret files trace log].
    intros [= <- <-]. right. eexists _, texts, [EvOpenWrite shard _].
    cbn zeta. split; [reflexivity|]. split; [by rewrite <- !app_assoc|].
    intros p text Hin. apply list_elem_of_singleton in Hin. done.
  - cbn [mret io_ret mbind io_bind files trace log].
    intros [= <- <-]. right. eexists _, texts, [].
    cbn zeta. split; [reflexivity|]. split; [by rewrite <- !app_assoc|].
    intros p text Hin. by apply elem_of_nil in Hin.
Qed.

Lemma blocks_inv_init output budget : blocks_inv output budget (merge_init output (Some budget)) [].
Proof.
  repeat split; try done. intros p text Hin. by apply elem_of_nil in Hin.
Qed.

Lemma blocks_inv_read output budget st new shard :
  blocks_inv output budget st new -> blocks_inv output budget st (new ++ [EvOpenRead shard]).
Proof.
  intros (I1 & I2 & I3 & I4 & I5).
  assert (E : forall p, appended p (new ++ [EvOpenRead shard]) = appended p new).
  { intros p. by rewrite appended_app, app_nil_r. }
  repeat split.
  - done.
  - intros i Hi. rewrite E. by apply I2.
  - by rewrite E.
  - intros i. rewrite E. apply I4.
  - intros p text Hin. apply elem_of_app in Hin as [Hin|Hin]; [by eapply I5|].
    by apply list_elem_of_singleton in Hin.
Qed.

(** The step of the invariant: one more shard. *)
Lemma blocks_inv_step output budget st new shard lines texts rest :
  blocks_inv output budget st new ->
  (forall p text, EvOpenAppend p text ∉ rest) ->
  let st' := block_decision output (Some budget) (count st lines texts) (texts_size texts) in
  blocks_inv output budget st'
    (new ++ [EvOpenRead shard; EvOpenAppend (output_path st') (block_text texts)] ++ rest).
Proof.
  intros (I1 & I2 & I3 & I4 & I5) Hrest. cbn zeta.
  set (st' := block_decision _ _ _ _).
  assert (Hp : output_path st' = block_path output (block_index st')).
  { unfold st', block_decision. cbn. by destruct (_ <? _)%Z. }
  assert (E : forall i,
             appended (block_path output i)
               (new ++ [EvOpenRead shard; EvOpenAppend (output_path st') (block_text texts)]
                    ++ rest)
             = appended (block_path output i) new
               ++ (if decide (block_index st' = i) then [block_text texts] else [])).
  { intros i. rewrite Hp, !appended_app, (appended_none _ rest), app_nil_r
      by (intros p' text Hin; by apply Hrest in Hin).
    f_equal. rewrite appended_read, appended_append. change (appended _ []) with (@nil (list N)).
    rewrite app_nil_r.
    destruct (decide (block_path output (block_index st') = block_path output i)) as [Eq|Ne],
             (decide (block_index st' = i)) as [Ei|Ni]; try done.
    - by apply block_path_inj in Eq.
    - by subst. }
  assert (Hidx : block_index st' = block_index st \/ block_index st' = (block_index st + 1)%Z).
  { unfold st', block_decision. cbn. destruct (_ <? _)%Z; cbn; tauto. }
  repeat split.
  - exact Hp.
  - intros i Hi. rewrite E. rewrite I2 by lia. by destruct (decide (block_index st' = i)); [lia|].
  - rewrite E. rewrite decide_True by done. rewrite written_size_app, <- texts_size_written.
    unfold st', block_decision. cbn.
    destruct (budget <? block_size st + texts_size texts)%Z eqn:Hb; cbn.
    + rewrite I2 by lia. unfold written_size. cbn. lia.
    + by rewrite I3.
  - intros i Hne. rewrite E in Hne |- *.
    destruct (decide (block_index st' = i)) as [Ei|Ni]; [|rewrite app_nil_r in *; by apply I4].
    subst i. revert E Hne. unfold st', block_decision. cbn.
    destruct (budget <? block_size st + texts_size texts)%Z eqn:Hb; cbn; intros E Hne.
    + rewrite I2 by lia. cbn [app].
      destruct (decide (written_size [block_text texts] <= budget)%Z); [by left|].
      right. exists (block_text texts). split; [done|lia].
    + left. rewrite written_size_app, <- I3, <- texts_size_written. lia.
  - intros p text Hin. apply elem_of_app in Hin as [Hin|Hin]; [by eapply I5|].
    apply elem_of_cons in Hin as [?|Hin]; [done|].
    apply elem_of_cons in Hin as [[= -> _]|Hin]; [by eexists|].
    by apply Hrest in Hin.
Qed.

Lemma merge_shards_blocks output budget sort shards : forall st w new0 r w',
  blocks_inv output budget st new0 ->
  merge_shards output (Some budget) sort st shards w = (r, w') ->
  exists new st',
    trace w' = trace w ++ new /\ blocks_inv output budget st' (new0 ++ new).
Proof.
  induction shards as [|shard shards IH]; intros st w new0 r w' Hinv.
  - intros [= <- <-]. exists [], st. by rewrite !app_nil_r.
  - cbn [merge_shards]. rewrite bind_run.
    destruct (merge_shard output (Some budget) sort st shard w) as [r1 w1] eqn:E1.
    apply merge_shard_trace in E1 as [(e & -> & Ht)|(lines & texts & rest & -> & Ht & Hrest)].
    + intros [= <- <-]. exists [EvOpenRead shard], st. split; [done|].
      by apply blocks_inv_read.
    + intros E2.
      pose proof (blocks_inv_step output budget st new0 shard lines texts rest Hinv Hrest)
        as Hinv1.
      destruct (IH _ _ _ _ _ Hinv1 E2) as (new2 & st2 & Ht2 & Hinv2).
      eexists _, st2. split.
      * rewrite Ht2, Ht, <- app_assoc. reflexivity.
      * by rewrite <- app_assoc in Hinv2.
Qed.

Lemma merge_shards_single output sort shards : forall st w r w',
  output_path st = output ->
  merge_shards output None sort st shards w = (r, w') ->
  exists new,
    trace w' = trace w ++ new /\ forall p text, EvOpenAppend p text ∈ new -> p = output.
Proof.
  induction shards as [|shard shards IH]; intros st w r w' Hp.
  - intros [= <- <-]. exists []. rewrite app_nil_r. split; [done|].
    intros p text Hin. by apply elem_of_nil in Hin.
  - cbn [merge_shards]. rewrite bind_run.
    destruct (merge_shard output None sort st shard w) as [r1 w1] eqn:E1.
    apply merge_shard_trace in E1 as [(e & -> & Ht)|(lines & texts & rest & -> & Ht & Hrest)].
    + intros [= <- <-]. exists [EvOpenRead shard]. split; [done|].
      intros p text Hin. by apply list_elem_of_singleton in Hin.
    + intros E2. cbn [block_decision output_path count] in Ht.
      assert (Hp' : output_path (block_decision output None (count st lines texts)
                                     (texts_size texts)) = output) by exact Hp.
      destruct (IH _ _ _ _ Hp' E2) as (new2 & Ht2 & Hn2).
      exists ([EvOpenRead shard; EvOpenAppend (output_path st) (block_text texts)]
                ++ rest ++ new2).
      split.
      * rewrite Ht2, Ht, <- !app_assoc. reflexivity.
      * intros p text Hin. apply elem_of_app in Hin as [Hin|Hin].
        -- apply elem_of_cons in Hin as [[=]|Hin].
           apply list_elem_of_singleton in Hin as [= -> _]. exact Hp.
        -- apply elem_of_app in Hin as [Hin|Hin]; [by apply Hrest in Hin|by eapply Hn2].
Qed.

Section BlockFacts.
Variable glob : gmap (list N) (list N) -> list N -> list (list N).

(** The calls of [task_merge] are the listing of the shards, the making
    of the directory of the output, and the calls of the loop. *)
Lemma task_merge_trace output shard_root p max_block_size sort w r w' :
  task_merge glob output shard_root p max_block_size sort w = (r, w') ->
  exists r1,
    merge_shards output max_block_size sort (merge_init output max_block_size)
      (glob (files w) (shard_pattern shard_root p))
      (log (EvMakedirs output) (log (EvGlob (shard_pattern shard_root p)) w))
    = (r1, w').
Proof.
  unfold task_merge. rewrite bind_run, os_glob_run, bind_run. cbn [emit].
  rewrite bind_run. cbn [files log].
  destruct (merge_shards _ _ _ _ _ _) as [[st|e] w1]; intros [= _ <-]; by eexists.
Qed.

(** C2. Under a budget B, whatever the shards hold and wherever the merge
    stops, the texts appended to each output block, one for each shard that
    went to it, take at most B bytes together, or the block holds the
    contribution of exactly one shard and this alone exceeds B; only block
    files of the output are appended to.  With no budget every append goes
    to the one output file. *)
Theorem block_budget_invariant output shard_root p sort w r w' :
  (forall B,
     task_merge glob output shard_root p (Some B) sort w = (r, w') ->
     exists new,
       trace w' = trace w ++ new
       /\ (forall path text, EvOpenAppend path text ∈ new ->
                             exists i, path = block_path output i)
       /\ forall i,
            appended (block_path output i) new <> [] ->
            (written_size (appended (block_path output i) new) <= B)%Z
            \/ exists text,
                 appended (block_path output i) new = [text]
                 /\ (B < written_size [text])%Z)
  /\ (task_merge glob output shard_root p None sort w = (r, w') ->
      exists new,
        trace w' = trace w ++ new
        /\ forall path text, EvOpenAppend path text ∈ new -> path = output).
Proof.
  split.
  - intros B E. apply task_merge_trace in E as [r1 E].
    destruct (merge_shards_blocks _ _ _ _ _ _ [] _ _ (blocks_inv_init output B) E)
      as (new & st' & Ht & (_ & _ & _ & I4 & I5)).
    cbn [trace log app] in Ht, I4, I5.
    exists ([EvGlob (shard_pattern shard_root p); EvMakedirs output] ++ new).
    split; [by rewrite Ht, <- !app_assoc|]. split.
    + intros path text Hin.
      apply elem_of_cons in Hin as [[=]|Hin]. apply elem_of_cons in Hin as [[=]|Hin].
      by eapply I5.
    + intros i. apply I4.
  - intros E. apply task_merge_trace in E as [r1 E].
    destruct (merge_shards_single output sort _ (merge_init output None) _ _ _ eq_refl E)
      as (new & Ht & Hn).
    cbn [trace log] in Ht.
    exists ([EvGlob (shard_pattern shard_root p); EvMakedirs output] ++ new).
    split; [by rewrite Ht, <- !app_assoc|].
    intros path text Hin.
    apply elem_of_cons in Hin as [[=]|Hin]. apply elem_of_cons in Hin as [[=]|Hin].
    by eapply Hn.
Qed.
End BlockFacts.

Lemma block_budget_invariant_witness :
  let r := task_merge simple_glob (lit "out.txt") (lit "shards") 2 (Some 4%Z) false
                      shards_world in
  exists new,
    trace r.2 = trace shards_world ++ new
    /\ (forall path text, EvOpenAppend path text ∈ new ->
                          exists i, path = block_path (lit "out.txt") i)
    /\ forall i,
         appended (block_path (lit "out.txt") i) new <> [] ->
         (written_size (appended (block_path (lit "out.txt") i) new) <= 4)%Z
         \/ exists text,
              appended (block_path (lit "out.txt") i) new = [text]
              /\ (4 < written_size [text])%Z.
Proof.
  cbn zeta.
  destruct (block_budget_invariant simple_glob (lit "out.txt") (lit "shards") 2 false
              shards_world
              (task_merge simple_glob (lit "out.txt") (lit "shards") 2 (Some 4%Z) false
                          shards_world).1
              (task_merge simple_glob (lit "out.txt") (lit "shards") 2 (Some 4%Z) false
                          shards_world).2) as [H _].
  apply H. vm_compute. reflexivity.
Defined.

Example blocks_of_shards_world :
  let r := task_merge simple_glob (lit "out.txt") (lit "shards") 2 (Some 4%Z) false
                      shards_world in
  r.1 = Ok 75%Q
  /\ files r.2 !! lit "out.txt.0" = Some (lit "c" ++ [LF])
  /\ files r.2 !! lit "out.txt.1" = Some (lit "bbbb" ++ [LF])
  /\ files r.2 !! lit "out.txt.2" = Some (lit "a" ++ [LF]).
Proof. vm_compute. repeat split. Qed.

(** ** Size strings *)

Lemma num_lstrip_split x :
  exists a, x = a ++ num_lstrip x /\ Forall (fun c => num_isspace c = true) a.
Proof.
  induction x as [|c x (a & E & Ha)]; [by exists []|]. cbn.
  destruct (num_isspace c) eqn:Hc.
  - exists (c :: a). split; [by rewrite E at 1|by constructor].
  - by exists [].
Qed.

Lemma num_strip_split x :
  exists a b,
    x = a ++ num_strip x ++ b
    /\ Forall (fun c => num_isspace c = true) a
    /\ Forall (fun c => num_isspace c = true) b.
Proof.
  destruct (num_lstrip_split x) as (a & Ea & Ha).
  destruct (num_lstrip_split (rev (num_lstrip x))) as (b & Eb & Hb).
  exists a, (rev b). split; [|split; [done|by apply Forall_rev]].
  unfold num_strip. rewrite <- rev_app_distr, <- Eb, rev_involutive. exact Ea.
Qed.

Lemma num_lstrip_id x :
  Forall (fun c => num_isspace c = false) x -> num_lstrip x = x.
Proof. destruct 1 as [|c x Hc _]; [done|]. cbn. by rewrite Hc. Qed.

Lemma num_strip_id x :
  Forall (fun c => num_isspace c = false) x -> num_strip x = x.
Proof.
  intros H. unfold num_strip. rewrite (num_lstrip_id x H).
  rewrite num_lstrip_id by by apply Forall_rev. apply rev_involutive.
Qed.

(** What [digits_tail] reads is made of digits and underscores. *)
Lemma digits_tail_consumed_aux n : forall x,
  (length x <= n)%nat ->
  exists pre,
    x = pre ++ (digits_tail x).2
    /\ Forall (fun c => is_digit c = true \/ c = UNDERSCORE) pre.
Proof.
  induction n as [|n IH]; intros [|c x] Hn; try (by exists []); [cbn in Hn; lia|].
  cbn [digits_tail]. cbn in Hn. destruct (is_digit c) eqn:Hc.
  - destruct (IH x) as (pre & E & Hpre); [lia|].
    exists (c :: pre). cbn. split; [by rewrite <- E|]. constructor; [by left|done].
  - destruct (N.eqb_spec c UNDERSCORE) as [->|Hne]; [|by exists []].
    destruct x as [|d x]; [by exists []|].
    destruct (is_digit d) eqn:Hd; [|by exists []].
    destruct (IH x) as (pre & E & Hpre); [cbn in Hn; lia|].
    exists (UNDERSCORE :: d :: pre). cbn. split; [by rewrite <- E|].
    constructor; [by right|]. constructor; [by left|done].
Qed.

Lemma digits_tail_consumed x :
  exists pre,
    x = pre ++ (digits_tail x).2
    /\ Forall (fun c => is_digit c = true \/ c = UNDERSCORE) pre.
Proof. by apply (digits_tail_consumed_aux (length x)). Qed.

Lemma digitpart_consumed x :
  exists pre,
    x = pre ++ (digitpart x).2
    /\ Forall (fun c => is_digit c = true \/ c = UNDERSCORE) pre.
Proof.
  destruct x as [|c x]; [by exists []|]. cbn [digitpart].
  destruct (is_digit c) eqn:Hc; [|by exists []].
  destruct (digits_tail_consumed x) as (pre & E & Hpre).
  exists (c :: pre). cbn. split; [by rewrite <- E|]. constructor; [by left|done].
Qed.

Lemma digits_tail_digits ds rest :
  Forall (fun c => is_digit c = true) ds -> no_digit_start rest ->
  digits_tail (ds ++ rest) = (digit_value <$> ds, rest).
Proof.
  induction 1 as [|d ds Hd _ IH]; intros Hrest.
  - destruct rest as [|c rest]; [done|]. destruct Hrest as [Hc Hne]. cbn.
    rewrite Hc. by destruct (N.eqb_spec c UNDERSCORE).
  - cbn. rewrite Hd, IH by done. reflexivity.
Qed.

Lemma digitpart_digits ds rest :
  ds <> [] -> Forall (fun c => is_digit c = true) ds -> no_digit_start rest ->
  digitpart (ds ++ rest) = (digit_value <$> ds, rest).
Proof.
  intros Hne Hds Hrest. destruct Hds as [|d ds Hd Hds]; [done|].
  cbn. rewrite Hd, digits_tail_digits by done. reflexivity.
Qed.

Lemma digitpart_none rest : no_digit_start rest -> digitpart rest = ([], rest).
Proof.
  destruct rest as [|c rest]; [done|]. intros [Hc _]. cbn. by rewrite Hc.
Qed.

Lemma read_sign_split x :
  exists pre, x = pre ++ (read_sign x).2 /\ Forall (fun c => c = 43 \/ c = 45) pre.
Proof.
  destruct x as [|c x]; [by exists []|].
  destruct (decide (c = 43)) as [->|H1]; [exists [43]; split; [done|]; by repeat constructor|].
  destruct (decide (c = 45)) as [->|H2];
    [exists [45]; split; [done|]; constructor; [by right|constructor]|].
  exists []. split; [|constructor]. cbn.
  destruct c as [|p]; [done|]. repeat (destruct p as [p|p|]; try done).
Qed.

(** An integer numeral holds nothing but spaces, a sign, digits and
    underscores. *)
Lemma py_int_chars x n : py_int x = Ok n -> Forall (fun c => int_char c = true) x.
Proof.
  unfold py_int. intros H.
  destruct (num_strip_split x) as (a & b & Ex & Ha & Hb).
  destruct (read_sign_split (num_strip x)) as (s & Es & Hs).
  destruct (digitpart_consumed (read_sign (num_strip x)).2) as (pre & Ep & Hpre).
  destruct (digitpart (read_sign (num_strip x)).2) as [ds rest].
  destruct ds as [|d ds]; [done|]. destruct rest; [|done]. cbn [snd] in Ep.
  rewrite app_nil_r in Ep. rewrite Ex, Es, Ep. rewrite !Forall_app.
  unfold int_char. repeat split.
  - eapply Forall_impl; [exact Ha|]. cbn. by intros c ->.
  - eapply Forall_impl; [exact Hs|]. cbn. intros c [-> | ->]; by rewrite ?orb_true_r.
  - eapply Forall_impl; [exact Hpre|]. cbn. intros c [-> | ->]; by rewrite ?orb_true_r.
  - eapply Forall_impl; [exact Hb|]. cbn. by intros c ->.
Qed.

Lemma py_int_raises x c :
  c ∈ x -> int_char c = false -> py_int x = Raise ValueError.
Proof.
  intros Hin Hc. destruct (py_int x) as [n|e] eqn:E.
  - apply py_int_chars in E. rewrite Forall_forall in E. apply E in Hin. congruence.
  - unfold py_int in E. by repeat (case_match; try done); injection E as <-.
Qed.

(** A run of digits is the integer it spells. *)
Lemma py_int_digits ds :
  ds <> [] -> Forall (fun c => is_digit c = true) ds ->
  py_int ds = Ok (digits_value (digit_value <$> ds)).
Proof.
  intros Hne Hds. unfold py_int.
  assert (Hsp : Forall (fun c => num_isspace c = false) ds).
  { eapply Forall_impl; [exact Hds|]. intros c Hc. unfold is_digit in Hc.
    apply andb_true_iff in Hc as [H1 H2]. apply N.leb_le in H1, H2.
    unfold num_isspace, isspace.
    repeat match goal with
           | |- context [(?a <=? ?b)] => destruct (N.leb_spec a b); try lia
           | |- context [(?a =? ?b)] => destruct (N.eqb_spec a b); try lia
           end; reflexivity. }
  rewrite num_strip_id by done.
  assert (Hs : read_sign ds = (false, ds)).
  { destruct Hds as [|d ds Hd _]; [done|]. unfold is_digit in Hd.
    apply andb_true_iff in Hd as [H1 H2]. apply N.leb_le in H1, H2.
    destruct d as [|p]; [done|]. cbn.
    repeat (destruct p as [p|p|]; try done; try (cbn in H1, H2; lia)). }
  rewrite Hs. cbn [fst snd].
  pose proof (digitpart_digits ds [] Hne Hds I) as Hd. rewrite app_nil_r in Hd.
  rewrite Hd. destruct ds; [done|]. reflexivity.
Qed.

Lemma digit_bounds c : is_digit c = true -> 48 <= c <= 57.
Proof.
  unfold is_digit. intros H. apply andb_true_iff in H as [H1 H2].
  apply N.leb_le in H1, H2. lia.
Qed.

Ltac decide_chars :=
  repeat match goal with
         | |- context [(?a <=? ?b)] => destruct (N.leb_spec a b); try lia
         | |- context [(?a =? ?b)] => destruct (N.eqb_spec a b); try lia
         | |- context [(?a <? ?b)] => destruct (N.ltb_spec a b); try lia
         end.

Lemma decimal_text_chars ip fp :
  Forall (fun c => is_digit c = true) ip ->
  Forall (fun c => is_digit c = true) (default [] fp) ->
  Forall decimal_char (decimal_text ip fp).
Proof.
  intros Hi Hf. unfold decimal_text. apply Forall_app. split.
  - eapply Forall_impl; [exact Hi|]. by left.
  - destruct fp as [fp|]; [|constructor]. constructor; [by right|].
    eapply Forall_impl; [exact Hf|]. by left.
Qed.

Lemma decimal_char_facts c :
  decimal_char c ->
  num_isspace c = false /\ lower_char c = [c] /\ int_char c || (c =? FULLSTOP) = true
  /\ c <> 107 /\ c <> 109 /\ c <> 103.
Proof.
  intros [H%digit_bounds| ->]; [|by vm_compute].
  unfold num_isspace, isspace, lower_char, int_char, is_digit, FULLSTOP, UNDERSCORE.
  repeat split; try lia; decide_chars; reflexivity.
Qed.

Lemma lower_decimal x : Forall decimal_char x -> lower x = x.
Proof.
  induction 1 as [|c x Hc _ IH]; [done|].
  unfold lower in *. rewrite bind_cons, IH.
  by destruct (decimal_char_facts c Hc) as (_ & -> & _).
Qed.

Lemma contains_app c x y : contains c (x ++ y) = contains c x || contains c y.
Proof. apply existsb_app. Qed.

Lemma contains_cons c d x : contains c (d :: x) = (c =? d) || contains c x.
Proof. reflexivity. Qed.

Lemma contains_false c x : contains c x = false <-> c ∉ x.
Proof.
  unfold contains. induction x as [|d x IH]; cbn.
  - split; [intros _; apply not_elem_of_nil|done].
  - rewrite orb_false_iff, IH, not_elem_of_cons. by destruct (N.eqb_spec c d); split; intros [? ?].
Qed.

Lemma decimal_no_letter x u : Forall decimal_char x -> scale_letter u ∉ x.
Proof.
  intros H Hin. rewrite Forall_forall in H. apply H in Hin.
  destruct (decimal_char_facts _ Hin) as (_ & _ & _ & H1 & H2 & H3). by destruct u.
Qed.

Lemma py_float_decimal ip fp :
  ip <> [] ->
  Forall (fun c => is_digit c = true) ip ->
  Forall (fun c => is_digit c = true) (default [] fp) ->
  py_float (decimal_text ip fp) = Ok (decimal_float ip fp).
Proof.
  intros Hne Hi Hf. pose proof (decimal_text_chars ip fp Hi Hf) as Hd.
  unfold py_float. rewrite num_strip_id
    by (eapply Forall_impl; [exact Hd|]; intros c Hc; by apply decimal_char_facts).
  destruct ip as [|d ip]; [done|].
  pose proof (Forall_inv Hi) as Hd0. apply digit_bounds in Hd0.
  assert (Hs : read_sign (decimal_text (d :: ip) fp) = (false, decimal_text (d :: ip) fp)).
  { unfold decimal_text. cbn. destruct d as [|p]; [done|].
    repeat (destruct p as [p|p|]; try done; try lia). }
  rewrite Hs. cbn [fst snd]. rewrite lower_decimal by done.
  assert (Hx : forall y, y <> [] -> hd 0 y <> d -> bool_decide (decimal_text (d :: ip) fp = y) = false).
  { intros y _ Hy. apply bool_decide_eq_false. intros <-. by apply Hy. }
  rewrite !Hx by (first [done | cbn; lia]). cbn [orb].
  unfold decimal_text, decimal_float.
  rewrite (digitpart_digits (d :: ip)); [|done|done|by destruct fp; [vm_compute|]].
  cbn [fst snd].
  assert (Hfp : match (match fp with Some fp0 => FULLSTOP :: fp0 | None => [] end) with
                | c :: rest => if c =? FULLSTOP then digitpart rest
                               else ([], match fp with Some fp0 => FULLSTOP :: fp0 | None => [] end)
                | [] => ([], [])
                end = (digit_value <$> default [] fp, [])).
  { destruct fp as [fp|]; [|done]. cbn [default]. rewrite N.eqb_refl.
    destruct fp as [|f fp]; [done|].
    pose proof (digitpart_digits (f :: fp) [] ltac:(done) Hf I) as E.
    by rewrite app_nil_r in E. }
  rewrite Hfp. cbn [fst snd read_exponent].
  rewrite <- fmap_app. cbn [fmap list_fmap app]. rewrite length_fmap.
  by rewrite Z.sub_0_l.
Qed.

Lemma lower_app x y : lower (x ++ y) = lower x ++ lower y.
Proof. apply bind_app. Qed.

(** A decimal numeral, a unit letter in either case, and any text that holds
    none of the letters looked for earlier: the float of the numeral, times
    the power of 1024, truncated. *)
Lemma humanized_scaled ip fp u c tail :
  ip <> [] ->
  Forall (fun c => is_digit c = true) ip ->
  Forall (fun c => is_digit c = true) (default [] fp) ->
  c = scale_letter u \/ c = scale_letter u - 32 ->
  Forall (fun u' => contains (scale_letter u') (lower tail) = false) (units_before u) ->
  humanized_to_number (SizeStr (decimal_text ip fp ++ [c] ++ tail))
  = Some <$> int_of_float (fmul_pow2 (decimal_float ip fp) (10 * scale_power u)).
Proof.
  intros Hne Hi Hf Hc Htail.
  pose proof (decimal_text_chars ip fp Hi Hf) as Hd.
  unfold humanized_to_number.
  rewrite (py_int_raises _ c);
    [|rewrite !elem_of_app, list_elem_of_singleton; tauto
     |by destruct u, Hc as [-> | ->]].
  assert (Hl : lower (decimal_text ip fp ++ [c] ++ tail)
               = decimal_text ip fp ++ scale_letter u :: lower tail).
  { rewrite !lower_app, lower_decimal by done. f_equal.
    by destruct u, Hc as [-> | ->]. }
  rewrite Hl.
  assert (Hcut : split_head (scale_letter u) (decimal_text ip fp ++ scale_letter u :: lower tail)
                 = decimal_text ip fp).
  { unfold split_head. by rewrite cut_first by by apply decimal_no_letter. }
  assert (Hhas : contains (scale_letter u) (decimal_text ip fp ++ scale_letter u :: lower tail)
                 = true).
  { by rewrite contains_app, contains_cons, N.eqb_refl, orb_true_r. }
  assert (Hnot : forall u', u' ∈ units_before u ->
                   contains (scale_letter u') (decimal_text ip fp ++ scale_letter u :: lower tail)
                   = false).
  { intros u' Hu'. rewrite contains_app. apply orb_false_iff. split.
    - apply contains_false. by apply decimal_no_letter.
    - rewrite contains_cons. rewrite Forall_forall in Htail.
      rewrite (Htail u' Hu'), orb_false_r.
      destruct u, u'; try done; apply list_elem_of_In in Hu'; cbn in Hu'; intuition done. }
  unfold scaled.
  destruct u; cbn [scale_letter scale_power units_before] in *.
  - rewrite Hhas, Hcut, py_float_decimal by done. reflexivity.
  - pose proof (Hnot Kilo ltac:(by left)) as Hk. cbn [scale_letter] in Hk.
    rewrite Hk, Hhas, Hcut, py_float_decimal by done. reflexivity.
  - pose proof (Hnot Kilo ltac:(by left)) as Hk. cbn [scale_letter] in Hk.
    pose proof (Hnot Mega ltac:(right; by left)) as Hm. cbn [scale_letter] in Hm.
    rewrite Hk, Hm, Hhas, Hcut, py_float_decimal by done. reflexivity.
Qed.

Local Open Scope Z_scope.

Lemma round_half_even_1 x : round_half_even x 1 = x.
Proof. unfold round_half_even. by rewrite Z.div_1_r, Z.mod_1_r. Qed.

(** An integer below [2^53] is a float. *)
Lemma round_binary64_integer n :
  0 < n < 2 ^ 53 ->
  round_binary64 false n 1 = Finite (n * 2 ^ (52 - Z.log2 n)) (Z.log2 n - 52).
Proof.
  intros Hn. unfold round_binary64.
  destruct (Z.eqb_spec n 0); [lia|].
  assert (HL : 0 <= Z.log2 n < 53).
  { split; [apply Z.log2_nonneg|]. apply Z.log2_lt_pow2; lia. }
  assert (Hr : log2_ratio n 1 = Z.log2 n).
  { unfold log2_ratio. change (Z.log2 1) with 0. rewrite Z.sub_0_r.
    destruct (Z.geb_spec (Z.log2 n) 0); [|lia].
    destruct (Z.leb_spec (1 * 2 ^ Z.log2 n) n) as [|Hlt]; [done|].
    pose proof (Z.log2_spec n ltac:(lia)). lia. }
  rewrite Hr. rewrite Z.max_l by lia.
  destruct (Z.geb_spec (Z.log2 n - 52) 0) as [Hge|Hlt].
  - assert (E : Z.log2 n = 52) by lia. rewrite E. cbn [Z.sub Z.pos_sub Z.opp].
    change (1 * 2 ^ 0) with 1. rewrite round_half_even_1.
    change (2 ^ 0) with 1. rewrite !Z.mul_1_r.
    destruct (Z.leb_spec (2 ^ 1024) n) as [Hov|]; [|done].
    assert (2 ^ 53 < 2 ^ 1024) by (by vm_compute). lia.
  - rewrite round_half_even_1.
    replace (- (Z.log2 n - 52)) with (52 - Z.log2 n) by lia.
    rewrite (Z.pow_neg_r 2 (Z.log2 n - 52)) by lia. rewrite Z.mul_0_r.
    by destruct (Z.leb_spec (2 ^ 1024) 0).
Qed.

(** A whole number below [2^53] times a power of two up to [2^30] is
    computed exactly. *)
Lemma integer_scaled_exact n s :
  0 <= n < 2 ^ 53 -> 0 <= s <= 30 ->
  int_of_float (fmul_pow2 (float_of_decimal false n 0) s) = Ok (n * 2 ^ s).
Proof.
  intros Hn Hs. unfold float_of_decimal. cbn [Z.geb Z.compare].
  change (10 ^ 0) with 1. rewrite Z.mul_1_r.
  destruct (Z.eq_dec n 0) as [->|Hne].
  - cbn [round_binary64 Z.eqb fmul_pow2 Z.abs]. rewrite Z.mul_0_l.
    destruct (Z.leb_spec (2 ^ 1024) 0) as [H|_]; [by vm_compute in H|].
    cbn [int_of_float]. rewrite Z.add_0_l.
    destruct (Z.geb_spec s 0); [|lia]. by rewrite !Z.mul_0_l.
  - rewrite round_binary64_integer by lia.
    assert (HL : 0 <= Z.log2 n < 53).
    { split; [apply Z.log2_nonneg|]. apply Z.log2_lt_pow2; lia. }
    set (k := 52 - Z.log2 n). replace (Z.log2 n - 52) with (- k) by lia.
    assert (Hk : 0 <= k <= 52) by lia. clearbody k.
    assert (Hpk : 0 < 2 ^ k) by (apply Z.pow_pos_nonneg; lia).
    assert (Hps : 0 < 2 ^ s) by (apply Z.pow_pos_nonneg; lia).
    assert (Hbig : n * 2 ^ s < 2 ^ 1024).
    { assert (2 ^ s <= 2 ^ 30) by (apply Z.pow_le_mono_r; lia).
      assert (E : 2 ^ 53 * 2 ^ 30 < 2 ^ 1024) by (by vm_compute).
      nia. }
    unfold fmul_pow2. rewrite Z.abs_eq by nia.
    destruct (Z.le_gt_cases 0 (- k + s)) as [Hpos|Hneg].
    + assert (E : n * 2 ^ k * 2 ^ (- k + s) = n * 2 ^ s).
      { rewrite <- Z.mul_assoc, <- Z.pow_add_r by lia. f_equal. f_equal. lia. }
      rewrite E. destruct (Z.leb_spec (2 ^ 1024) (n * 2 ^ s)); [lia|].
      cbn [int_of_float]. destruct (Z.geb_spec (- k + s) 0); [|lia]. by rewrite E.
    + rewrite (Z.pow_neg_r 2 (- k + s)) by lia. rewrite Z.mul_0_r.
      destruct (Z.leb_spec (2 ^ 1024) 0) as [H|_]; [by vm_compute in H|].
      cbn [int_of_float]. destruct (Z.geb_spec (- k + s) 0); [lia|].
      f_equal. replace (- (- k + s)) with (k - s) by lia.
      assert (E : n * 2 ^ k = n * 2 ^ s * 2 ^ (k - s)).
      { rewrite <- Z.mul_assoc, <- Z.pow_add_r by lia. f_equal. f_equal. lia. }
      rewrite E. apply Z.quot_mul.
      assert (0 < 2 ^ (k - s)) by (apply Z.pow_pos_nonneg; lia). lia.
Qed.

Local Close Scope Z_scope.

Lemma digits_value_nonneg ds : (0 <= digits_value (digit_value <$> ds))%Z.
Proof.
  unfold digits_value.
  assert (H : forall a, (0 <= a)%Z ->
                        (0 <= foldl (fun a d => 10 * a + d) a (digit_value <$> ds))%Z).
  { induction ds as [|d ds IH]; intros a Ha; [done|]. cbn. apply IH.
    unfold digit_value. lia. }
  by apply H.
Qed.

(** C7. The parser of size strings: an integer, given as a number or as a
    run of digits, passes unchanged; a decimal numeral, whole or with a
    fraction, followed by k, m or g in either case and by any text free of
    the letters looked for earlier (a trailing b, say) is the float of the
    numeral times 1024, 1024**2 or 1024**3, truncated, which for a whole
    numeral below 2**53 is exactly the product; a text that is no integer and
    holds no k, m or g raises the configuration error; and "1k" gives 1024,
    "2.5mb" 2621440, "512" 512, "bogus" the configuration error. *)
Theorem size_string_parser :
  humanized_to_number SizeNone = Ok None
  /\ (forall n, humanized_to_number (SizeInt n) = Ok (Some n))
  /\ (forall ds,
        ds <> [] -> Forall (fun c => is_digit c = true) ds ->
        humanized_to_number (SizeStr ds) = Ok (Some (digits_value (digit_value <$> ds))))
  /\ (forall ip fp u c tail,
        ip <> [] ->
        Forall (fun c => is_digit c = true) ip ->
        Forall (fun c => is_digit c = true) (default [] fp) ->
        c = scale_letter u \/ c = scale_letter u - 32 ->
        Forall (fun u' => contains (scale_letter u') (lower tail) = false) (units_before u) ->
        humanized_to_number (SizeStr (decimal_text ip fp ++ [c] ++ tail))
        = Some <$> int_of_float (fmul_pow2 (decimal_float ip fp) (10 * scale_power u)))
  /\ (forall ip u c tail,
        ip <> [] ->
        Forall (fun c => is_digit c = true) ip ->
        (digits_value (digit_value <$> ip) < 2 ^ 53)%Z ->
        c = scale_letter u \/ c = scale_letter u - 32 ->
        Forall (fun u' => contains (scale_letter u') (lower tail) = false) (units_before u) ->
        humanized_to_number (SizeStr (ip ++ [c] ++ tail))
        = Ok (Some (digits_value (digit_value <$> ip) * 1024 ^ scale_power u)%Z))
  /\ (forall x e,
        py_int x = Raise e ->
        (forall u, contains (scale_letter u) (lower x) = false) ->
        humanized_to_number (SizeStr x) = Raise ValueError)
  /\ humanized_to_number (SizeStr (lit "1k")) = Ok (Some 1024%Z)
  /\ humanized_to_number (SizeStr (lit "2.5mb")) = Ok (Some 2621440%Z)
  /\ humanized_to_number (SizeStr (lit "512")) = Ok (Some 512%Z)
  /\ humanized_to_number (SizeStr (lit "bogus")) = Raise ValueError.
Proof.
  split; [reflexivity|]. split; [reflexivity|]. split; [|split; [|split; [|split]]].
  - intros ds Hne Hds. unfold humanized_to_number. by rewrite py_int_digits.
  - intros. by apply humanized_scaled.
  - intros ip u c tail Hne Hi Hlt Hc Htail.
    pose proof (humanized_scaled ip None u c tail Hne Hi ltac:(constructor) Hc Htail) as E.
    unfold decimal_text in E. rewrite app_nil_r in E. rewrite E.
    unfold decimal_float. cbn [default length]. rewrite app_nil_r.
    change (- Z.of_nat 0)%Z with 0%Z.
    rewrite integer_scaled_exact.
    + cbn. do 3 f_equal. by destruct u.
    + split; [apply digits_value_nonneg|done].
    + destruct u; cbn; lia.
  - intros x e He Hno. unfold humanized_to_number. rewrite He.
    pose proof (Hno Kilo) as Hk. pose proof (Hno Mega) as Hm. pose proof (Hno Giga) as Hg.
    cbn [scale_letter] in Hk, Hm, Hg. by rewrite Hk, Hm, Hg.
  - repeat split; by vm_compute.
Qed.

Lemma size_string_parser_witness :
  humanized_to_number (SizeStr (lit "10"))
  = Ok (Some (digits_value (digit_value <$> lit "10")))
  /\ humanized_to_number (SizeStr (decimal_text (lit "100") (Some (lit "5")) ++ lit "M" ++ lit "b"))
     = Some <$> int_of_float (fmul_pow2 (decimal_float (lit "100") (Some (lit "5"))) (10 * 2))
  /\ humanized_to_number (SizeStr (lit "10" ++ lit "k" ++ lit "b")) = Ok (Some (10 * 1024 ^ 1)%Z)
  /\ humanized_to_number (SizeStr (lit "12 bytes")) = Raise ValueError.
Proof.
  destruct size_string_parser as (_ & _ & H3 & H4 & H5 & H6 & _).
  split; [|split; [|split]].
  - apply H3; [done|]. repeat constructor.
  - apply (H4 (lit "100") (Some (lit "5")) Mega 77%N (lit "b")).
    + done.
    + repeat constructor.
    + repeat constructor.
    + by right.
    + repeat constructor.
  - apply (H5 (lit "10") Kilo 107%N (lit "b")).
    + done.
    + repeat constructor.
    + by vm_compute.
    + by left.
    + constructor.
  - apply (H6 (lit "12 bytes") ValueError).
    + reflexivity.
    + by intros [].
Defined.

(** * Further properties *)

(** ** The normalizer *)

Lemma Normalizer_call_app self x y :
  Normalizer_call self (x ++ y) = Normalizer_call self x ++ Normalizer_call self y.
Proof. apply List.filter_app. Qed.

Lemma Normalizer_call_in_class self line :
  Forall (fun c => in_class (pattern self) c = true) (Normalizer_call self line).
Proof.
  unfold Normalizer_call. induction line as [|c line IH]; cbn; [constructor|].
  destruct (in_class (pattern self) c) eqn:Hc; [by constructor|done].
Qed.

Lemma Normalizer_call_fixed self x :
  Forall (fun c => in_class (pattern self) c = true) x -> Normalizer_call self x = x.
Proof.
  unfold Normalizer_call. induction 1 as [|c x Hc _ IH]; cbn; [done|]. by rewrite Hc, IH.
Qed.

(** X1. Normalizing only deletes characters: the result is a subsequence of
    the line, holds characters of the class only, and normalizing it again
    changes nothing; a character outside the class, wherever it stands in a
    line, does not change the fingerprint of the line. *)
Theorem normalizer_only_deletes (self : Encoder) (line : list N) :
  Normalizer_call (normalizer self) line `sublist_of` line
  /\ Forall (fun c => in_class (pattern (normalizer self)) c = true)
            (Normalizer_call (normalizer self) line)
  /\ Normalizer_call (normalizer self) (Normalizer_call (normalizer self) line)
     = Normalizer_call (normalizer self) line
  /\ (forall a b c,
        in_class (pattern (normalizer self)) c = false ->
        (encode self (a ++ c :: b)).2 = (encode self (a ++ b)).2).
Proof.
  split; [|split; [|split]].
  - unfold Normalizer_call. induction line as [|c line IH]; cbn; [constructor|].
    destruct (in_class _ c); [by apply sublist_skip|by apply sublist_cons].
  - apply Normalizer_call_in_class.
  - apply Normalizer_call_fixed, Normalizer_call_in_class.
  - intros a b c Hc. unfold encode. cbn [snd]. do 2 f_equal.
    rewrite !Normalizer_call_app. f_equal. unfold Normalizer_call. cbn. by rewrite Hc.
Qed.

Lemma normalizer_only_deletes_witness :
  (encode example_encoder (lit "a" ++ 33 :: lit "b")).2
  = (encode example_encoder (lit "a" ++ lit "b")).2.
Proof.
  destruct (normalizer_only_deletes example_encoder []) as (_ & _ & _ & H).
  apply H. reflexivity.
Defined.

(** X2. The default pattern compiles, and the class it keeps is the digits,
    the Hangul syllables, the Hangul consonant and vowel letters, and the
    ASCII letters of both cases. *)
Theorem default_pattern_class (c : N) :
  Normalizer_init default_input_format = Ok default_normalizer
  /\ (in_class (pattern default_normalizer) c = true
      <-> 48 <= c <= 57 \/ 44032 <= c <= 55203 \/ 12593 <= c <= 12622
          \/ 12623 <= c <= 12643 \/ 97 <= c <= 122 \/ 65 <= c <= 90).
Proof.
  split; [reflexivity|].
  change (pattern default_normalizer)
    with [(48, 57); (44032, 55203); (12593, 12622); (12623, 12643); (97, 122); (65, 90)].
  unfold in_class. cbn [existsb fst snd].
  rewrite !orb_true_iff, !andb_true_iff, !N.leb_le. intuition lia.
Qed.

(** ** Sizes *)

Lemma utf8_char_length c : (1 <= length (utf8_char c) <= 4)%nat.
Proof. unfold utf8_char. repeat case_match; cbn; lia. Qed.

Lemma utf8_length_bounds x : (length x <= length (utf8 x) <= 4 * length x)%nat.
Proof.
  induction x as [|c x IH]; [cbn; lia|].
  unfold utf8 in *. rewrite bind_cons, length_app. cbn [length].
  pose proof (utf8_char_length c). lia.
Qed.

(** X3. The size the block decision counts for the texts of a shard is the
    number of bytes the merge then appends for them; it lies between the
    number of characters written and four times that number, and is zero for
    an empty shard only. *)
Theorem contribution_is_bytes_written (texts : list (list N)) :
  texts_size texts = Z.of_nat (length (utf8 (block_text texts)))
  /\ (Z.of_nat (length (block_text texts)) <= texts_size texts
      <= 4 * Z.of_nat (length (block_text texts)))%Z
  /\ (texts_size texts = 0%Z <-> texts = []).
Proof.
  assert (E : texts_size texts = Z.of_nat (length (utf8 (block_text texts)))).
  { rewrite texts_size_written. unfold written_size. cbn [concat]. by rewrite app_nil_r. }
  split; [exact E|]. split.
  - rewrite E. pose proof (utf8_length_bounds (block_text texts)). lia.
  - split; [|by intros ->].
    destruct texts as [|t texts]; [done|]. intros H. exfalso.
    unfold texts_size in H. cbn [length fmap list_fmap foldr] in H.
    assert (0 <= foldr Z.add 0
                   ((fun text => Z.of_nat (length (utf8 text))) <$> texts))%Z.
    { clear. induction texts as [|t texts IH]; cbn; lia. }
    lia.
Qed.

(** ** Depth of the shard tree *)

Lemma segments_length x : length (segments x) = Nat.div2 (length x + 1).
Proof. unfold segments, range2. by rewrite !length_fmap, length_seq. Qed.

Lemma ceil_half_nat (n : nat) : Z.to_nat ((Z.of_nat n + 1) `div` 2) = Nat.div2 (n + 1).
Proof.
  rewrite Nat.div2_div. rewrite <- (Nat2Z.id ((n + 1) / 2)). f_equal.
  rewrite Nat2Z.inj_div. f_equal. lia.
Qed.

(** X4. A fingerprint of at least [prefix_length] characters is stored
    [ceil(prefix_length / 2)] levels deep, which is the number of stars of
    the pattern [task_merge] lists the shards with; a shorter fingerprint is
    stored at the depth of its own length, so less deep when it is shorter
    by a whole segment. *)
Theorem shard_depth_matches_pattern (shard_root code : list N) (p : nat) :
  length (segments (take p code)) = Nat.div2 (Nat.min p (length code) + 1)
  /\ shard_pattern shard_root (Z.of_nat p)
     = shard_root ++ lit "/" ++ join (lit "/") (replicate (Nat.div2 (p + 1)) (lit "*"))
       ++ lit ".shard"
  /\ ((p <= length code)%nat ->
      shard_pattern shard_root (Z.of_nat p)
      = shard_root ++ lit "/"
        ++ join (lit "/") (replicate (length (segments (take p code))) (lit "*"))
        ++ lit ".shard")
  /\ ((Nat.div2 (length code + 1) < Nat.div2 (p + 1))%nat ->
      (length (segments (take p code)) < Nat.div2 (p + 1))%nat).
Proof.
  assert (E : length (segments (take p code)) = Nat.div2 (Nat.min p (length code) + 1)).
  { by rewrite segments_length, length_take. }
  assert (P : shard_pattern shard_root (Z.of_nat p)
              = shard_root ++ lit "/"
                ++ join (lit "/") (replicate (Nat.div2 (p + 1)) (lit "*")) ++ lit ".shard").
  { unfold shard_pattern. cbn zeta. by rewrite ceil_half_nat. }
  split; [exact E|]. split; [exact P|]. split.
  - intros Hp. rewrite E, P. by rewrite Nat.min_l.
  - intros Hlt. rewrite E. destruct (Nat.min_spec p (length code)) as [[? ->]|[? ->]]; [|done].
    assert (Nat.div2 (p + 1) <= Nat.div2 (length code + 1))%nat; [|lia].
    rewrite !Nat.div2_div. apply Nat.Div0.div_le_mono. lia.
Qed.

Lemma shard_depth_matches_pattern_witness :
  shard_pattern (lit "shards") 4
  = lit "shards" ++ lit "/"
    ++ join (lit "/") (replicate (length (segments (take 4 (lit "93620c8a")))) (lit "*"))
    ++ lit ".shard"
  /\ (length (segments (take 4 (lit "ab"))) < Nat.div2 (4 + 1))%nat.
Proof.
  destruct (shard_depth_matches_pattern (lit "shards") (lit "93620c8a") 4) as (_ & _ & H & _).
  destruct (shard_depth_matches_pattern (lit "shards") (lit "ab") 4) as (_ & _ & _ & H').
  split; [apply H; cbn; lia | apply H'; cbn; lia].
Defined.

(** ** Size strings, again *)

Lemma split_head_first c pre post : c ∉ pre -> split_head c (pre ++ c :: post) = pre.
Proof. intros H. unfold split_head. by rewrite cut_first. Qed.

(** X5. Once a size string holds a k, in either case, whatever follows the
    first one is ignored: two strings that agree up to their first k give the
    same result, be it a number or an error. *)
Theorem text_after_first_k_is_ignored (pre tail1 tail2 : list N) (c1 c2 : N) :
  107 ∉ lower pre ->
  c1 = 107 \/ c1 = 75 -> c2 = 107 \/ c2 = 75 ->
  humanized_to_number (SizeStr (pre ++ [c1] ++ tail1))
  = humanized_to_number (SizeStr (pre ++ [c2] ++ tail2))
  /\ humanized_to_number (SizeStr (pre ++ [c1] ++ tail1))
     = Some <$> scaled (lower pre ++ [107]) 107 1.
Proof.
  intros Hpre H1 H2.
  assert (H : forall c tail, c = 107 \/ c = 75 ->
            humanized_to_number (SizeStr (pre ++ [c] ++ tail))
            = Some <$> scaled (lower pre ++ [107]) 107 1).
  { intros c tail Hc. unfold humanized_to_number.
    rewrite (py_int_raises _ c);
      [|rewrite !elem_of_app, list_elem_of_singleton; tauto|by destruct Hc as [-> | ->]].
    assert (Hl : lower (pre ++ [c] ++ tail) = lower pre ++ 107 :: lower tail).
    { rewrite !lower_app. f_equal. by destruct Hc as [-> | ->]. }
    rewrite Hl, contains_app, contains_cons, N.eqb_refl, orb_true_r.
    unfold scaled. by rewrite !split_head_first by done. }
  split; [by rewrite !H|by apply H].
Qed.

Lemma text_after_first_k_is_ignored_witness :
  humanized_to_number (SizeStr (lit "10" ++ lit "K" ++ lit "b"))
  = humanized_to_number (SizeStr (lit "10" ++ lit "k" ++ lit "ilobytes, more or less")).
Proof.
  apply (text_after_first_k_is_ignored (lit "10") (lit "b") (lit "ilobytes, more or less")
           75 107).
  - compute_done.
  - by right.
  - by left.
Defined.

(** ** Lines of a shard that are no records *)

Lemma cut_none c x : c ∉ x -> cut c x = None.
Proof.
  induction x as [|d x IH]; [done|]. intros Hn.
  apply not_elem_of_cons in Hn as [Hd Hn]. cbn.
  destruct (N.eqb_spec d c); [congruence|]. by rewrite IH.
Qed.

Lemma cut_some c x : c ∈ x -> exists pre post, cut c x = Some (pre, post).
Proof.
  induction x as [|d x IH]; [by intros ?%elem_of_nil|]. intros Hin. cbn.
  destruct (N.eqb_spec d c); [by eexists _, _|].
  apply elem_of_cons in Hin as [?|Hin]; [congruence|].
  destruct (IH Hin) as (pre & post & ->). by eexists _, _.
Qed.

Lemma unpack2_split1 x :
  unpack2 (split1 SPACE x)
  = match cut SPACE x with
    | Some (code, text) => Ok (code, text)
    | None => Raise ValueError
    end.
Proof. unfold split1. by destruct (cut SPACE x) as [[? ?]|]. Qed.

Lemma mapM_unpack2_load lines :
  (Forall (fun line => SPACE ∈ strip line) lines ->
   exists pairs, mapM unpack2 (load_shard lines) = Ok pairs
                 /\ load_shard lines = pair_lines pairs)
  /\ (~ Forall (fun line => SPACE ∈ strip line) lines ->
      mapM unpack2 (load_shard lines) = Raise ValueError).
Proof.
  induction lines as [|line lines [IH1 IH2]].
  - split; [exists []; done|]. intros H. destruct H. constructor.
  - unfold load_shard in *. cbn [fmap list_fmap mapM]. rewrite unpack2_split1. split.
    + intros [Hl Hls]%Forall_cons. destruct (cut_some _ _ Hl) as (code & text & Hc).
      destruct (IH1 Hls) as (pairs & E1 & E2). rewrite Hc.
      exists ((code, text) :: pairs). unfold mbind at 1. cbn [result_bind]. rewrite E1.
      split; [done|]. unfold pair_lines in *. cbn [fmap list_fmap fst snd].
      rewrite <- E2. unfold split1. by rewrite Hc.
    + intros Hn. destruct (decide (SPACE ∈ strip line)) as [Hl|Hl].
      * destruct (cut_some _ _ Hl) as (code & text & ->).
        unfold mbind at 1. cbn [result_bind]. rewrite IH2; [done|].
        intros H. apply Hn. by constructor.
      * by rewrite cut_none.
Qed.

(** X6. The merge reads a shard whose every line, once stripped, holds a
    space, and no other: a line without one (a blank line, a fingerprint cut
    short) makes the grouping raise [ValueError], and then the merge of the
    shard stops after the reading, with no text appended and no file
    changed. *)
Theorem shard_lines_need_a_space (lines : list (list N)) :
  (Forall (fun line => SPACE ∈ strip line) lines ->
   exists unique texts, dedup_texts (load_shard lines) = Ok (unique, texts))
  /\ (~ Forall (fun line => SPACE ∈ strip line) lines ->
      dedup_texts (load_shard lines) = Raise ValueError
      /\ forall output max_block_size sort st shard w content,
           files w !! shard = Some content ->
           file_lines content = lines ->
           merge_shard output max_block_size sort st shard w
           = (Raise ValueError, log (EvOpenRead shard) w)).
Proof.
  destruct (mapM_unpack2_load lines) as [H1 H2]. split.
  - intros Hl. destruct (H1 Hl) as (pairs & E1 & E2). rewrite E2.
    destruct (dedup_texts_first_seen pairs) as (unique & Hd & _). by eexists _, _.
  - intros Hn. assert (E : dedup_texts (load_shard lines) = Raise ValueError).
    { unfold dedup_texts. by rewrite (H2 Hn). }
    split; [exact E|].
    intros output max_block_size sort st shard w content Hw Hf.
    unfold merge_shard. rewrite bind_run, open_read_run, Hw, Hf.
    rewrite bind_run. unfold lift at 1. by rewrite E.
Qed.

Lemma shard_lines_need_a_space_witness :
  (exists unique texts,
     dedup_texts (load_shard [lit "ab x" ++ [LF]; lit "ab  y z" ++ [LF]]) = Ok (unique, texts))
  /\ dedup_texts (load_shard [lit "ab x" ++ [LF]; [LF]]) = Raise ValueError.
Proof.
  split.
  - apply (shard_lines_need_a_space [lit "ab x" ++ [LF]; lit "ab  y z" ++ [LF]]).
    repeat constructor; compute_done.
  - apply (shard_lines_need_a_space [lit "ab x" ++ [LF]; [LF]]).
    intros H. apply Forall_cons in H as [_ H]. apply Forall_cons in H as [H _].
    revert H. compute_done.
Defined.

(** ** The number of processes *)

Section ProcessFacts.
Variable sha1 : list Byte.byte -> list N.
Variable glob : gmap (list N) (list N) -> list N -> list (list N).
Variable isdir : gmap (list N) (list N) -> list N -> bool.

(** X7. The command line never passes fewer than one process; the default
    [task_dedup] takes for itself when it is given none, [cpu_count() - 1],
    is zero on a machine with one processor, and then the first input file
    fails the assertion of [encode_a_file] before it is read. *)
Theorem one_processor_default_fails (cpu_count : Z) :
  (0 < default_process_count cpu_count)%Z
  /\ forall input path rest output shard_root chunksize sel fmt norm max_block_size b
            sort keep p w,
       (cpu_count <= 1)%Z ->
       sort && negb keep = false ->
       humanized_to_number max_block_size = Ok b ->
       isdir (files w) input = false ->
       glob (files w) input = path :: rest ->
       Normalizer_init fmt = Ok norm ->
       supported_selector sel = true ->
       exists w',
         task_dedup sha1 glob isdir cpu_count (InputList [input]) output shard_root
                    chunksize None sel fmt max_block_size sort keep p w
         = (Raise AssertionError, w')
         /\ queries_only w w'.
Proof.
  split; [unfold default_process_count; lia|].
  intros input path rest output shard_root chunksize sel fmt norm max_block_size b
         sort keep p w Hc Hsk Hh Hd Hg Hn Hs.
  unfold task_dedup. rewrite Hsk, bind_run. unfold lift at 1. rewrite Hh.
  rewrite bind_run. cbn [collect_filepaths]. rewrite bind_run, os_isdir_run, Hd.
  cbn [collect_filepaths mret io_ret app].
  rewrite bind_run. unfold task_encode. rewrite bind_run. cbn [resolve_inputs glob_all].
  rewrite bind_run, os_glob_run. cbn [files log]. rewrite Hg.
  rewrite bind_run. cbn [mret io_ret]. rewrite bind_run. unfold lift at 1. rewrite Hn.
  destruct (Encoder_init_supported sha1 sel norm Hs) as [h Hh'].
  rewrite bind_run. unfold lift at 1. rewrite Hh'.
  cbn [app io_iter]. rewrite bind_run. unfold encode_a_file at 1.
  rewrite bind_run. unfold lift at 1. cbn [default].
  replace (0 <? cpu_count - 1)%Z with false by (symmetry; apply Z.ltb_ge; lia).
  rewrite andb_false_r. cbn [py_assert].
  eexists. split; [reflexivity|].
  eapply queries_only_trans; [|by apply queries_only_log]. by apply queries_only_log.
Qed.
End ProcessFacts.

Lemma one_processor_default_fails_witness :
  exists w',
    task_dedup hex_digest simple_glob simple_isdir 1 (InputList [lit "in.txt"])
               (lit "out.txt") (lit "shards") 100000 None (HashName (lit "sha1"))
               default_input_format SizeNone false false 4 abac_world
    = (Raise AssertionError, w')
    /\ queries_only abac_world w'.
Proof.
  destruct (one_processor_default_fails hex_digest simple_glob simple_isdir 1) as [_ H].
  apply (H (lit "in.txt") (lit "in.txt") [] (lit "out.txt") (lit "shards") 100000%Z
           (HashName (lit "sha1")) default_input_format default_normalizer SizeNone None
           false false 4%Z abac_world); first [reflexivity | lia].
Defined.

(** ** The loop of the merge, in general *)

Lemma unpack2_inv l c t : unpack2 l = Ok (c, t) -> l = [c; t].
Proof. destruct l as [|a [|b [|? ?]]]; cbn; try done. by intros [= -> ->]. Qed.

Lemma mapM_unpack2_inv lines : forall pairs,
  mapM unpack2 lines = Ok pairs -> lines = pair_lines pairs.
Proof.
  induction lines as [|l lines IH]; intros pairs; cbn [mapM].
  - by intros [= <-].
  - destruct (unpack2 l) as [[c t]|e] eqn:El; [|done].
    unfold mbind at 1. cbn [result_bind].
    destruct (mapM unpack2 lines) as [ps|e] eqn:Em; [|done].
    intros [= <-]. apply unpack2_inv in El as ->. by rewrite (IH ps).
Qed.

(** When the grouping succeeds the lines were records, and the texts kept
    are those of "first seen wins". *)
Lemma dedup_texts_inv lines unique texts :
  dedup_texts lines = Ok (unique, texts) ->
  exists pairs,
    lines = pair_lines pairs
    /\ unique = dict_group [] pairs
    /\ texts = (first_seen_wins pairs).*2.
Proof.
  intros H. destruct (mapM unpack2 lines) as [pairs|e] eqn:Em.
  - apply mapM_unpack2_inv in Em as ->. exists pairs.
    destruct (dedup_texts_first_seen pairs) as (u & Hd & -> & _).
    rewrite Hd in H. by injection H as <- <-.
  - unfold dedup_texts in H. by rewrite Em in H.
Qed.

Lemma first_seen_wins_counts pairs :
  (length (first_seen_wins pairs) <= length pairs)%nat
  /\ (pairs <> [] -> first_seen_wins pairs <> []).
Proof.
  split.
  - apply sublist_length, first_seen_from_sublist.
  - destruct pairs as [|p pairs]; [done|]. intros _. unfold first_seen_wins. cbn.
    destruct (decide (p.1 ∈ [])) as [H|_]; [by apply elem_of_nil in H|done].
Qed.

(** What one shard does to the state and to the calls, the grouping
    included. *)
Lemma merge_shard_cases output max_block_size sort st shard w r w' :
  merge_shard output max_block_size sort st shard w = (r, w') ->
  (exists e, r = Raise e /\ trace w' = trace w ++ [EvOpenRead shard])
  \/ (exists pairs rest,
        let texts := (first_seen_wins pairs).*2 in
        let st' := block_decision output max_block_size (count st (pair_lines pairs) texts)
                                  (texts_size texts) in
        r = Ok st'
        /\ trace w' = trace w ++ [EvOpenRead shard;
                                  EvOpenAppend (output_path st') (block_text texts)] ++ rest
        /\ (forall p text, EvOpenAppend p text ∉ rest)).
Proof.
  unfold merge_shard. rewrite bind_run, open_read_run.
  destruct (files w !! shard) as [content|]; [|intros [= <- <-]; left; by eexists].
  rewrite bind_run. unfold lift at 1.
  destruct (dedup_texts (load_shard (file_lines content))) as [[unique texts]|e] eqn:Ed;
    [|intros [= <- <-]; left; by eexists].
  apply dedup_texts_inv in Ed as (pairs & -> & -> & ->).
  cbn [fst snd]. rewrite bind_run, open_append_run.
  destruct sort.
  - rewrite bind_run, open_write_run. cbn [mret io_ret files trace log].
    intros [= <- <-]. right. exists pairs. eexists [EvOpenWrite shard _].
    cbn zeta. split; [reflexivity|]. split; [by rewrite <- !app_assoc|].
    intros p text Hin. apply list_elem_of_singleton in Hin. done.
  - cbn [mret io_ret mbind io_bind files trace log].
    intros [= <- <-]. right. exists pairs, [].
    cbn zeta. split; [reflexivity|]. split; [by rewrite <- !app_assoc|].
    intros p text Hin. by apply elem_of_nil in Hin.
Qed.

(** A property of the state and of the calls made so far that the reading of
    a shard keeps, and the merging of its records too, holds at the end of
    the loop, however it ends. *)
Lemma merge_shards_invariant (Inv : merge_state -> list event -> Prop)
    output max_block_size sort :
  (forall st new shard, Inv st new -> Inv st (new ++ [EvOpenRead shard])) ->
  (forall st new shard pairs rest,
     Inv st new ->
     (forall p text, EvOpenAppend p text ∉ rest) ->
     let texts := (first_seen_wins pairs).*2 in
     let st' := block_decision output max_block_size (count st (pair_lines pairs) texts)
                               (texts_size texts) in
     Inv st' (new ++ [EvOpenRead shard; EvOpenAppend (output_path st') (block_text texts)]
                  ++ rest)) ->
  forall shards st w new0 r w',
    Inv st new0 ->
    merge_shards output max_block_size sort st shards w = (r, w') ->
    exists new st',
      trace w' = trace w ++ new /\ Inv st' (new0 ++ new)
      /\ (forall st'', r = Ok st'' -> st'' = st').
Proof.
  intros Hread Hstep. induction shards as [|shard shards IH]; intros st w new0 r w' Hinv.
  - intros [= <- <-]. exists [], st. rewrite !app_nil_r. split; [done|]. split; [done|].
    by intros ? [= <-].
  - cbn [merge_shards]. rewrite bind_run.
    destruct (merge_shard output max_block_size sort st shard w) as [r1 w1] eqn:E1.
    apply merge_shard_cases in E1 as [(e & -> & Ht)|(pairs & rest & -> & Ht & Hrest)].
    + intros [= <- <-]. exists [EvOpenRead shard], st. split; [done|].
      split; [by apply Hread|]. by intros ? [=].
    + intros E2.
      pose proof (Hstep st new0 shard pairs rest Hinv Hrest) as Hinv1. cbn zeta in Hinv1.
      destruct (IH _ _ _ _ _ Hinv1 E2) as (new2 & st2 & Ht2 & Hinv2 & Hst2).
      eexists _, st2. split; [|split].
      * rewrite Ht2, Ht, <- app_assoc. reflexivity.
      * by rewrite <- app_assoc in Hinv2.
      * exact Hst2.
Qed.

(** ** The percentage *)

Lemma block_decision_counters output max_block_size st s :
  n_duplicated (block_decision output max_block_size st s) = n_duplicated st
  /\ n_deduplicated (block_decision output max_block_size st s) = n_deduplicated st.
Proof. unfold block_decision. destruct max_block_size; [destruct (_ <? _)%Z|]; done. Qed.

Lemma percentage_bounds k n q :
  (0 < k <= n)%Z -> percentage k n = Ok q -> (0 < q)%Q /\ (q <= 100)%Q.
Proof.
  intros Hk. unfold percentage. destruct (Z.eqb_spec n 0); [lia|]. intros [= <-].
  rewrite !Qred_correct.
  assert (Hn : (0 < inject_Z n)%Q).
  { change (inject_Z 0 < inject_Z n)%Q. rewrite <- Zlt_Qlt. lia. }
  split.
  - apply Qlt_shift_div_l; [exact Hn|]. rewrite Qmult_0_l.
    change (inject_Z 0 < inject_Z (100 * k))%Q. rewrite <- Zlt_Qlt. lia.
  - apply Qle_shift_div_r; [exact Hn|].
    change 100%Q with (inject_Z 100). rewrite <- inject_Z_mult, <- Zle_Qle. lia.
Qed.

Section PercentageFacts.
Variable glob : gmap (list N) (list N) -> list N -> list (list N).

Lemma task_merge_result output shard_root p max_block_size sort w q w' :
  task_merge glob output shard_root p max_block_size sort w = (Ok q, w') ->
  exists st,
    merge_shards output max_block_size sort (merge_init output max_block_size)
      (glob (files w) (shard_pattern shard_root p))
      (log (EvMakedirs output) (log (EvGlob (shard_pattern shard_root p)) w))
    = (Ok st, w')
    /\ percentage (n_deduplicated st) (n_duplicated st) = Ok q.
Proof.
  unfold task_merge. rewrite bind_run, os_glob_run, bind_run. cbn [emit].
  rewrite bind_run. cbn [files log].
  destruct (merge_shards _ _ _ _ _ _) as [[st|e] w1]; [|done].
  unfold lift. intros [= Hq <-]. by exists st.
Qed.

(** X8. When the merge prints a percentage, it is above 0 and at most 100:
    the loop never keeps more lines than it has read, and keeps at least
    one as soon as it has read one. *)
Theorem percentage_is_between_0_and_100 output shard_root p max_block_size sort w q w' :
  task_merge glob output shard_root p max_block_size sort w = (Ok q, w') ->
  (0 < q)%Q /\ (q <= 100)%Q.
Proof.
  intros E. apply task_merge_result in E as (st & E & Hq).
  set (Inv := fun (st : merge_state) (_ : list event) =>
                (0 <= n_deduplicated st <= n_duplicated st)%Z
                /\ ((0 < n_duplicated st)%Z -> (0 < n_deduplicated st)%Z)).
  destruct (merge_shards_invariant Inv output max_block_size sort) with
    (shards := glob (files w) (shard_pattern shard_root p))
    (st := merge_init output max_block_size)
    (w := log (EvMakedirs output) (log (EvGlob (shard_pattern shard_root p)) w))
    (new0 := @nil event) (r := Ok st) (w' := w')
    as (new & st' & _ & [H1 H2] & Hst); try done.
  - intros st0 new0 shard pairs rest [H1 H2] _. cbn zeta. unfold Inv.
    destruct (block_decision_counters output max_block_size
                (count st0 (pair_lines pairs) (first_seen_wins pairs).*2)
                (texts_size (first_seen_wins pairs).*2)) as [-> ->].
    cbn [count n_duplicated n_deduplicated]. unfold pair_lines. rewrite !length_fmap.
    destruct (first_seen_wins_counts pairs) as [Hle Hne].
    split; [lia|]. intros Hpos.
    destruct pairs as [|p0 pairs]; [cbn in *; lia|].
    destruct (first_seen_wins (p0 :: pairs)) as [|? ?]; [by destruct Hne|].
    cbn [length]. lia.
  - rewrite <- (Hst st eq_refl) in H1, H2.
    apply (percentage_bounds (n_deduplicated st) (n_duplicated st)); [|done].
    assert (n_duplicated st <> 0)%Z.
    { intros E0. unfold percentage in Hq. by rewrite E0 in Hq. }
    lia.
Qed.
End PercentageFacts.

Lemma percentage_is_between_0_and_100_witness :
  (0 < 75)%Q /\ (75 <= 100)%Q.
Proof.
  apply (percentage_is_between_0_and_100 simple_glob (lit "out.txt") (lit "shards") 2
           (Some 4%Z) false shards_world 75%Q
           (task_merge simple_glob (lit "out.txt") (lit "shards") 2 (Some 4%Z) false
                       shards_world).2).
  by vm_compute.
Defined.

(** ** The numbers of the blocks *)


Section NumberFacts.
Variable glob : gmap (list N) (list N) -> list N -> list (list N).

End NumberFacts.


(** ** The merge without a budget *)

Lemma merge_shards_run output sort (shards : list (list N * list (list N * list N))) :
  forall st w,
    output_path st = output ->
    NoDup shards.*1 ->
    output ∉ shards.*1 ->
    Forall (fun sp => holds_records (files w) sp.1 sp.2) shards ->
    exists st' w',
      merge_shards output None sort st shards.*1 w = (Ok st', w')
      /\ n_duplicated st' = (n_duplicated st + records_seen shards)%Z
      /\ n_deduplicated st' = (n_deduplicated st + records_kept shards)%Z
      /\ files w' !! output
         = match shards with
           | [] => files w !! output
           | _ => Some (default [] (files w !! output) ++ merged_text shards)
           end
      /\ (sort = false -> forall path, path <> output -> files w' !! path = files w !! path).
Proof.
  induction shards as [|[s pairs] shards IH]; intros st w Hp Hnd Hout Hall.
  - exists st, w. unfold records_seen, records_kept. cbn.
    rewrite !Z.add_0_r. done.
  - cbn [fmap list_fmap fst] in Hnd, Hout.
    apply NoDup_cons in Hnd as [Hs Hnd]. apply not_elem_of_cons in Hout as [Hos Hout].
    apply Forall_cons in Hall as [(content & Hw & Hl) Hall]. cbn [fst snd] in Hw, Hl.
    cbn [fmap list_fmap fst merge_shards]. rewrite bind_run.
    rewrite (merge_shard_run output None sort st s w content pairs Hw Hl).
    set (texts := (first_seen_wins pairs).*2).
    set (st1 := block_decision output None (count st (pair_lines pairs) texts)
                               (texts_size texts)).
    assert (Hp1 : output_path st1 = output) by exact Hp. rewrite !Hp1.
    set (fs1 := <[output := default [] (files w !! output) ++ block_text texts]> (files w)).
    set (w1 := {| files := if sort then <[s := _]> fs1 else fs1; trace := _ |}).
    assert (Hfs : forall path, path <> output -> path <> s -> files w1 !! path = files w !! path).
    { intros path H1 H2. unfold w1, fs1. cbn [files].
      destruct sort; by rewrite ?lookup_insert_ne by done. }
    assert (Hout1 : files w1 !! output
                    = Some (default [] (files w !! output) ++ block_text texts)).
    { unfold w1, fs1. cbn [files].
      destruct sort; rewrite ?lookup_insert_ne by done; apply lookup_insert_eq. }
    destruct (IH st1 w1) as (st' & w' & E & Hd & Hk & Hf & Hsame); try done.
    { apply Forall_forall. intros sp Hsp. rewrite Forall_forall in Hall.
      destruct (Hall sp Hsp) as (c & Hc & Hlc). exists c. split; [|done].
      rewrite Hfs; [done| |].
      - intros Heq. apply Hout. rewrite <- Heq. by apply list_elem_of_fmap_2.
      - intros Heq. apply Hs. rewrite <- Heq. by apply list_elem_of_fmap_2. }
    exists st', w'. split; [exact E|]. split; [|split; [|split]].
    + rewrite Hd. unfold st1, records_seen. cbn [block_decision count n_duplicated].
      cbn [fmap list_fmap snd concat]. unfold pair_lines.
      rewrite length_app, length_fmap. lia.
    + rewrite Hk. unfold st1, records_kept. cbn [block_decision count n_deduplicated].
      cbn [fmap list_fmap snd concat]. unfold texts.
      rewrite length_app, length_fmap. lia.
    + rewrite Hf, Hout1. unfold merged_text. cbn [fmap list_fmap concat snd default].
      fold texts. destruct shards as [|sp shards]; [by rewrite app_nil_r|].
      unfold id. by rewrite <- app_assoc.
    + intros -> path Hpath. rewrite Hsame by done. unfold w1, fs1. cbn [files].
      by rewrite lookup_insert_ne.
Qed.

Section MergeFacts.
Variable glob : gmap (list N) (list N) -> list N -> list (list N).

Lemma task_merge_run output shard_root p sort w
    (shards : list (list N * list (list N * list N))) :
  glob (files w) (shard_pattern shard_root p) = shards.*1 ->
  NoDup shards.*1 ->
  output ∉ shards.*1 ->
  Forall (fun sp => holds_records (files w) sp.1 sp.2) shards ->
  exists w',
    task_merge glob output shard_root p None sort w
    = (percentage (records_kept shards) (records_seen shards), w')
    /\ files w' !! output
       = match shards with
         | [] => files w !! output
         | _ => Some (default [] (files w !! output) ++ merged_text shards)
         end
    /\ (sort = false -> forall path, path <> output -> files w' !! path = files w !! path).
Proof.
  intros Hg Hnd Hout Hall. unfold task_merge.
  rewrite bind_run, os_glob_run, Hg, bind_run. cbn [emit]. rewrite bind_run.
  destruct (merge_shards_run output sort shards (merge_init output None)
              (log (EvMakedirs output) (log (EvGlob (shard_pattern shard_root p)) w)))
    as (st' & w' & E & Hd & Hk & Hf & Hsame); try done.
  rewrite E. unfold lift. rewrite Hd, Hk. cbn [merge_init n_duplicated n_deduplicated].
  rewrite !Z.add_0_l. exists w'. split; [done|]. split; [exact Hf|exact Hsame].
Qed.

(** X10. Without a budget, when the shards listed are distinct files that
    hold records and none of them is the output, the merge appends to the
    output, shard after shard in the order listed, the first line of each
    fingerprint in the order first seen, and what it prints, or fails to,
    is the percentage of the records kept among those read; without the
    sort no other file changes. *)
Theorem merge_without_budget output shard_root p sort w
    (shards : list (list N * list (list N * list N))) :
  glob (files w) (shard_pattern shard_root p) = shards.*1 ->
  NoDup shards.*1 ->
  output ∉ shards.*1 ->
  Forall (fun sp => holds_records (files w) sp.1 sp.2) shards ->
  exists w',
    task_merge glob output shard_root p None sort w
    = (percentage (records_kept shards) (records_seen shards), w')
    /\ files w' !! output
       = match shards with
         | [] => files w !! output
         | _ => Some (default [] (files w !! output) ++ merged_text shards)
         end
    /\ (sort = false -> forall path, path <> output -> files w' !! path = files w !! path).
Proof. apply task_merge_run. Qed.
End MergeFacts.

Lemma merge_without_budget_witness :
  exists w',
    task_merge simple_glob (lit "out.txt") (lit "shards") 2 None true dup_world
    = (percentage (records_kept [(lit "shards/ab.shard", [(lit "ab", lit "x"); (lit "ab", lit "y")])])
                  (records_seen [(lit "shards/ab.shard", [(lit "ab", lit "x"); (lit "ab", lit "y")])]),
       w')
    /\ files w' !! lit "out.txt" = Some (lit "x" ++ [LF]).
Proof.
  destruct (merge_without_budget simple_glob (lit "out.txt") (lit "shards") 2 true dup_world
              [(lit "shards/ab.shard", [(lit "ab", lit "x"); (lit "ab", lit "y")])])
    as (w' & E & Hf & _).
  - reflexivity.
  - compute_done.
  - compute_done.
  - repeat constructor. eexists. split; reflexivity.
  - exists w'. split; [exact E|exact Hf].
Defined.

(** * The encode stage: what the shard files receive *)

(** ** Grouping under a renaming of the keys *)

Section DictRename.
Context {K K' V : Type} `{EqDecision K, EqDecision K'}.
Variable f : K -> K'.
Hypothesis f_inj : forall a b, f a = f b -> a = b.

Lemma dict_append_rename (d : list (K * list V)) k v :
  dict_append ((fun kv => (f kv.1, kv.2)) <$> d) (f k) v
  = (fun kv => (f kv.1, kv.2)) <$> dict_append d k v.
Proof.
  induction d as [|[k' vs] d IH]; [done|]. cbn [fmap list_fmap dict_append fst snd].
  destruct (decide (f k' = f k)) as [E|E], (decide (k' = k)) as [E'|E']; try done.
  - by apply f_inj in E.
  - by subst.
  - cbn [fmap list_fmap fst snd]. f_equal. exact IH.
Qed.

Lemma dict_group_rename (items : list (K * V)) : forall d : list (K * list V),
  dict_group ((fun kv => (f kv.1, kv.2)) <$> d) ((fun kv => (f kv.1, kv.2)) <$> items)
  = (fun kv => (f kv.1, kv.2)) <$> dict_group d items.
Proof.
  induction items as [|[k v] items IH]; intros d; [done|].
  unfold dict_group. cbn [fmap list_fmap foldl fst snd].
  rewrite dict_append_rename. apply IH.
Qed.

Lemma dict_append_values (d : list (K * list V)) k v :
  Forall (fun kv => kv.2 <> []) d -> Forall (fun kv => kv.2 <> []) (dict_append d k v).
Proof.
  induction 1 as [|[k' vs] d Hkv Hd IH]; cbn [dict_append].
  - by repeat constructor.
  - destruct (decide (k' = k)); constructor; try done.
    cbn. by destruct vs.
Qed.

Lemma dict_group_values (items : list (K * V)) : forall d : list (K * list V),
  Forall (fun kv => kv.2 <> []) d -> Forall (fun kv => kv.2 <> []) (dict_group d items).
Proof.
  induction items as [|[k v] items IH]; intros d Hd; [done|].
  unfold dict_group. cbn [foldl fst snd]. by apply IH, dict_append_values.
Qed.
End DictRename.

(** ** The same records *)



Lemma same_records_sym r1 r2 : same_records r1 r2 -> same_records r2 r1.
Proof. intros [H1 H2]. split; [done|]. intros c. by rewrite H2. Qed.


Lemma filter_filter_swap {A} (P Q : A -> Prop) `{forall x, Decision (P x)}
    `{forall x, Decision (Q x)} (l : list A) :
  filter P (filter Q l) = filter Q (filter P l).
Proof.
  induction l as [|x l IH]; [done|].
  rewrite !(filter_cons _ x l).
  destruct (decide (Q x)), (decide (P x)); rewrite ?filter_cons;
    repeat case_decide; try done; by rewrite IH.
Qed.

Lemma same_records_filter (P : list N * list N -> Prop) `{forall x, Decision (P x)} r1 r2 :
  same_records r1 r2 -> same_records (filter P r1) (filter P r2).
Proof.
  intros [H1 H2]. split; [by rewrite H1|].
  intros c. by rewrite !(filter_filter_swap _ P), H2.
Qed.


Lemma dict_group_same_records pairs : same_records (records_of (dict_group [] pairs)) pairs.
Proof.
  split.
  - apply (dict_group_records_perm pairs []).
  - intros c. rewrite dict_group_records_filter by constructor. done.
Qed.

Lemma records_of_filter (P : list N -> Prop)
    `{H1 : forall kv : list N * list (list N), Decision (P kv.1)}
    `{H2 : forall r : list N * list N, Decision (P r.1)}
    (d : list (list N * list (list N))) :
  records_of (filter (fun kv => P kv.1) d) = filter (fun r => P r.1) (records_of d).
Proof.
  induction d as [|[k vs] d IH]; [done|].
  rewrite records_of_cons, filter_app, filter_cons, <- IH.
  destruct (decide (P (k, vs).1)) as [Hk|Hk]; cbn [fst snd] in Hk |- *.
  - rewrite records_of_cons. f_equal. cbn [fst snd].
    induction vs as [|v vs IHv]; [done|]. cbn [fmap list_fmap].
    rewrite filter_cons_True by done. by rewrite <- IHv.
  - replace (filter _ ((fun text => (k, text)) <$> vs)) with (@nil (list N * list N)); [done|].
    induction vs as [|v vs IHv]; [done|]. cbn [fmap list_fmap].
    by rewrite filter_cons_False.
Qed.

Lemma records_of_nil_iff (d : list (list N * list (list N))) :
  Forall (fun kv => kv.2 <> []) d -> records_of d = [] -> d = [].
Proof.
  intros Hd. destruct Hd as [|[k vs] d Hkv Hd]; [done|].
  rewrite records_of_cons. destruct vs; done.
Qed.

Lemma shard_text_app r1 r2 : shard_text (r1 ++ r2) = shard_text r1 ++ shard_text r2.
Proof. unfold shard_text. by rewrite fmap_app, concat_app. Qed.

Lemma shard_text_records_of (d : list (list N * list (list N))) :
  shard_text (records_of d) = concat ((fun kv => concat (record_line kv.1 <$> kv.2)) <$> d).
Proof.
  induction d as [|[k vs] d IH]; [done|].
  rewrite records_of_cons, shard_text_app, IH. cbn [fmap list_fmap concat fst snd]. f_equal.
  unfold shard_text. by rewrite <- list_fmap_compose.
Qed.

(** ** Files that records are appended to *)

Lemma extended_by_refl fs path : extended_by fs fs path [].
Proof. done. Qed.


(** A loop of appends. *)
Lemma io_iter_append_run {A} (path_of text_of : A -> list N) (items : list A) : forall w,
  exists w',
    io_iter (fun x => emit (EvMakedirs (path_of x));; open_append (path_of x) (text_of x))
            items w = (Ok tt, w')
    /\ forall path,
         files w' !! path
         = match filter (fun x => path_of x = path) items with
           | [] => files w !! path
           | l => Some (default [] (files w !! path) ++ concat (text_of <$> l))
           end.
Proof.
  induction items as [|x items IH]; intros w.
  - exists w. by split.
  - cbn [io_iter]. rewrite bind_run. rewrite bind_run. cbn [emit].
    rewrite open_append_run. cbn [files log trace].
    set (w1 := {| files := _; trace := _ |}).
    destruct (IH w1) as (w' & E & Hf). exists w'. split; [exact E|].
    intros path. rewrite Hf, filter_cons. unfold w1. cbn [files].
    destruct (decide (path_of x = path)) as [<-|Hne].
    + rewrite lookup_insert_eq. cbn [default fmap list_fmap concat].
      destruct (filter _ items) as [|y l]; [by rewrite app_nil_r|].
      unfold id. by rewrite <- app_assoc.
    + by rewrite lookup_insert_ne.
Qed.

Lemma filter_fmap_list {A B} (f : A -> B) (P : B -> Prop) `{forall x, Decision (P x)}
    (l : list A) :
  filter P (f <$> l) = f <$> filter (fun x => P (f x)) l.
Proof.
  induction l as [|x l IH]; [done|]. cbn [fmap list_fmap].
  rewrite !filter_cons, IH. by destruct (decide (P (f x))).
Qed.

(** ** One batch: [save_shards] *)

Lemma save_shards_spec shard_root (encoded : list (list N * list N)) p w :
  (2 <= p)%Z ->
  exists w',
    save_shards shard_root encoded p w = (Ok tt, w')
    /\ forall path, exists records,
         extended_by (files w) (files w') path records
         /\ same_records records
              (routed shard_root p path ((fun lc => (lc.2, lc.1)) <$> encoded)).
Proof.
  intros Hp. unfold save_shards. rewrite bind_run.
  replace (2 <=? p)%Z with true by (symmetry; by apply Z.leb_le).
  cbn [py_assert lift].
  set (pairs := (fun lc : list N * list N => (lc.2, lc.1)) <$> encoded).
  replace ((fun lc : list N * list N => (take (Z.to_nat p) lc.2, lc.2, lc.1)) <$> encoded)
    with ((fun kv : list N * list N => (shard_key p kv.1, kv.2)) <$> pairs)
    by (unfold pairs; by rewrite <- list_fmap_compose).
  pose proof (dict_group_rename (V := list N) (shard_key p)) as Hren.
  specialize (Hren ltac:(by intros a b [= _ ->]) pairs []).
  cbn [fmap list_fmap] in Hren. rewrite Hren. clear Hren.
  set (d := dict_group [] pairs).
  destruct (io_iter_append_run
              (fun kv : list N * list N * list (list N) => get_shard_path shard_root kv.1.1)
              (fun kv => concat (record_line kv.1.2 <$> kv.2))
              ((fun kv : list N * list (list N) => (shard_key p kv.1, kv.2)) <$> d) w)
    as (w' & E & Hf).
  exists w'. split; [exact E|]. intros path.
  set (P := fun code : list N => get_shard_path shard_root (take (Z.to_nat p) code) = path).
  exists (records_of (filter (fun kv => P kv.1) d)). split.
  - unfold extended_by. rewrite Hf.
    rewrite (filter_fmap_list _ (fun x : list N * list N * list (list N) =>
                                   get_shard_path shard_root x.1.1 = path)).
    cbn [shard_key fst snd].
    change (filter _ d) with (filter (fun kv => P kv.1) d).
    destruct (filter (fun kv => P kv.1) d) as [|kv l] eqn:Ef; [done|].
    assert (Hv : Forall (fun kv : list N * list (list N) => kv.2 <> []) (kv :: l)).
    { rewrite <- Ef. apply Forall_forall. intros x [_ Hx]%list_elem_of_filter.
      pose proof (dict_group_values pairs [] (Forall_nil_2 _)) as Hall.
      rewrite Forall_forall in Hall. by apply Hall. }
    destruct (records_of (kv :: l)) as [|r rs] eqn:Er.
    { by apply records_of_nil_iff in Er. }
    rewrite <- Er, shard_text_records_of. cbn [fmap list_fmap]. do 3 f_equal.
    by rewrite <- list_fmap_compose.
  - assert (Hr : records_of (filter (fun kv => P kv.1) d)
                 = filter (fun r => P r.1) (records_of d)) by apply records_of_filter.
    rewrite Hr. unfold routed.
    apply (same_records_filter (fun r => P r.1)), dict_group_same_records.
Qed.

(** ** The lines that are kept *)













(** ** A file: [encode_a_file] *)






(** X11. [save_shards] with a prefix length of at least 2 loses nothing and
    overwrites nothing: every shard file is what it was, followed by the
    records routed to it by the prefix of their fingerprint, all of them and
    those of one fingerprint in the order they were given; a file that no
    record is routed to is left as it was. *)
Theorem save_shards_appends_every_record shard_root (encoded : list (list N * list N)) p w :
  (2 <= p)%Z ->
  exists w',
    save_shards shard_root encoded p w = (Ok tt, w')
    /\ forall path, exists records,
         extended_by (files w) (files w') path records
         /\ same_records records
              (routed shard_root p path ((fun lc => (lc.2, lc.1)) <$> encoded)).
Proof. apply save_shards_spec. Qed.

Lemma save_shards_appends_every_record_witness :
  exists w',
    save_shards (lit "shards")
                [(lit "x", lit "abcd"); (lit "y", lit "abce"); (lit "z", lit "cd00");
                 (lit "t", lit "abcd")] 2 dup_world = (Ok tt, w')
    /\ exists records,
         files w' !! lit "shards/ab.shard"
         = Some (record_line (lit "ab") (lit "x") ++ record_line (lit "ab") (lit "y")
                 ++ shard_text records)
         /\ same_records records
              [(lit "abcd", lit "x"); (lit "abce", lit "y"); (lit "abcd", lit "t")].
Proof.
  destruct (save_shards_appends_every_record (lit "shards")
              [(lit "x", lit "abcd"); (lit "y", lit "abce"); (lit "z", lit "cd00");
               (lit "t", lit "abcd")] 2 dup_world) as (w' & E & H); [lia|].
  exists w'. split; [exact E|].
  destruct (H (lit "shards/ab.shard")) as (records & Hx & Hs).
  exists records. split; [|exact Hs].
  unfold extended_by in Hx. destruct records as [|r records].
  - destruct Hs as [Hs _]. apply Permutation_nil_l in Hs. by vm_compute in Hs.
  - rewrite Hx. cbn [dup_world files]. rewrite lookup_singleton_eq. cbn [default].
    unfold id. by rewrite <- app_assoc.
Defined.



(** ** From the encode stage to the merge *)





(** * From the input files to the output *)

(** ** Paths under the shard root *)




(** ** Lists that agree fingerprint by fingerprint *)

Lemma first_with_code c (l : list (list N * list N)) :
  with_code c l <> [] ->
  exists a x b, l = a ++ x :: b /\ x.1 = c /\ with_code c a = [].
Proof.
  induction l as [|y l IH]; [done|]. rewrite filter_cons.
  destruct (decide (y.1 = c)) as [Hy|Hy].
  - intros _. by exists [], y, l.
  - intros H. destruct (IH H) as (a & x & b & -> & Hx & Ha).
    exists (y :: a), x, b. split; [done|]. split; [done|].
    by rewrite filter_cons_False.
Qed.

Lemma with_code_perm (l1 : list (list N * list N)) : forall l2,
  (forall c, with_code c l1 = with_code c l2) -> l1 ≡ₚ l2.
Proof.
  induction l1 as [|r l1 IH]; intros l2 H.
  - destruct l2 as [|x l2]; [done|]. specialize (H x.1).
    by rewrite filter_nil, filter_cons_True in H.
  - pose proof (H r.1) as Hr. rewrite filter_cons_True in Hr by done.
    destruct (first_with_code r.1 l2) as (a & x & b & -> & Hx & Ha); [by rewrite <- Hr|].
    rewrite filter_app, Ha in Hr. rewrite filter_cons_True in Hr by exact Hx.
    cbn [app] in Hr. injection Hr as <- Hr. rewrite <- Permutation_middle. f_equiv. apply IH.
    intros c. specialize (H c). rewrite filter_app, !filter_cons in H. rewrite filter_app.
    destruct (decide (r.1 = c)) as [<-|Hc].
    + by rewrite Ha, Hr.
    + exact H.
Qed.

Lemma first_seen_from_with_code c (pairs : list (list N * list N)) : forall seen,
  with_code c (first_seen_from seen pairs)
  = if decide (c ∈ seen) then [] else take 1 (with_code c pairs).
Proof.
  induction pairs as [|r pairs IH]; intros seen; [by destruct (decide (c ∈ seen))|].
  cbn [first_seen_from]. destruct (decide (r.1 ∈ seen)) as [Hr|Hr].
  - rewrite IH. destruct (decide (c ∈ seen)) as [Hc|Hc]; [done|].
    rewrite filter_cons_False; [done|]. by intros <-.
  - rewrite !filter_cons, IH. destruct (decide (r.1 = c)) as [<-|Hne].
    + rewrite decide_True by (by left). rewrite decide_False by done. done.
    + destruct (decide (c ∈ seen)) as [Hc|Hc].
      * by rewrite decide_True by (by right).
      * rewrite decide_False; [done|]. by intros [->|?]%elem_of_cons.
Qed.

Lemma first_seen_wins_with_code c (pairs : list (list N * list N)) :
  with_code c (first_seen_wins pairs) = take 1 (with_code c pairs).
Proof.
  unfold first_seen_wins. rewrite first_seen_from_with_code.
  rewrite decide_False; [done|]. apply not_elem_of_nil.
Qed.






Lemma block_text_concat (ls : list (list (list N))) :
  block_text (concat ls) = concat (block_text <$> ls).
Proof.
  induction ls as [|l ls IH]; [done|]. cbn [concat fmap list_fmap].
  rewrite <- IH. unfold block_text. by rewrite fmap_app, concat_app.
Qed.

Lemma fmap_concat {A B} (f : A -> B) (ls : list (list A)) :
  f <$> concat ls = concat ((fun l : list A => f <$> l) <$> ls).
Proof.
  induction ls as [|l ls IH]; [done|]. cbn [concat fmap list_fmap].
  by rewrite fmap_app, IH.
Qed.



(** ** The encode stage over the input files *)






Section EndToEnd.
Variable sha1 : list Byte.byte -> list N.
Variable glob : gmap (list N) (list N) -> list N -> list (list N).
Variable isdir : gmap (list N) (list N) -> list N -> bool.



End EndToEnd.

Lemma is_Some_keys (fs : gmap (list N) (list N)) path :
  is_Some (fs !! path) <-> path ∈ (map_to_list fs).*1.
Proof.
  split.
  - intros [content H]. apply list_elem_of_fmap. exists (path, content).
    split; [done|]. by apply elem_of_map_to_list.
  - intros ([p content] & -> & H)%list_elem_of_fmap. exists content.
    by apply elem_of_map_to_list.
Qed.



(** * Configuration errors, sorted shards, blocks and the clean-up *)

(** ** What [task_dedup] refuses, and when *)

Section ConfigurationFacts.
Variable sha1 : list Byte.byte -> list N.
Variable glob : gmap (list N) (list N) -> list N -> list (list N).
Variable isdir : gmap (list N) (list N) -> list N -> bool.
Variable cpu_count : Z.

(** X15. [task_dedup] refuses a sort without [keep] with [ValueError] and
    a size string it cannot read with the error of the parser, both before
    any call to the operating system; a digest selector that is neither
    callable nor "sha1" is refused with [ValueError] after the inputs have
    been listed, before any file is opened or written. *)
Theorem configuration_errors_come_first inputs output shard_root chunksize n_processes sel
    fmt max_block_size sort keep p w :
  (sort = true -> keep = false ->
   task_dedup sha1 glob isdir cpu_count inputs output shard_root chunksize n_processes
              sel fmt max_block_size sort keep p w
   = (Raise ValueError, w))
  /\ (sort && negb keep = false ->
      forall e, humanized_to_number max_block_size = Raise e ->
      task_dedup sha1 glob isdir cpu_count inputs output shard_root chunksize n_processes
                 sel fmt max_block_size sort keep p w
      = (Raise e, w))
  /\ (sort && negb keep = false ->
      forall b norm,
        humanized_to_number max_block_size = Ok b ->
        Normalizer_init fmt = Ok norm ->
        supported_selector sel = false ->
        exists w',
          task_dedup sha1 glob isdir cpu_count inputs output shard_root chunksize
                     n_processes sel fmt max_block_size sort keep p w
          = (Raise ValueError, w')
          /\ queries_only w w').
Proof.
  split; [|split].
  - by intros -> ->.
  - intros Hsk e He. unfold task_dedup. rewrite Hsk, bind_run. unfold lift. by rewrite He.
  - intros Hsk b norm Hb Hn Hsel. unfold task_dedup. rewrite Hsk, bind_run.
    unfold lift at 1. rewrite Hb.
    destruct (collect_filepaths_run glob isdir
                match inputs with InputStr x => [x] | InputList l => l end [] w)
      as (paths & w1 & E1 & Q1).
    rewrite bind_run, E1, bind_run.
    destruct (task_encode_unsupported sha1 glob isdir (InputList paths) shard_root chunksize
                (default (cpu_count - 1)%Z n_processes) sel fmt p w1 Hsel)
      as (e & w2 & E2 & Q2 & He).
    rewrite E2, (He norm Hn). exists w2. split; [reflexivity|].
    by eapply queries_only_trans.
Qed.
End ConfigurationFacts.

Lemma configuration_errors_come_first_witness :
  task_dedup hex_digest simple_glob simple_isdir 4 (InputList [lit "in.txt"]) (lit "out.txt")
             (lit "shards") 100000 None (HashName (lit "sha1")) default_input_format
             (SizeStr (lit "ten")) false false 4 abac_world
  = (Raise ValueError, abac_world)
  /\ exists w',
       task_dedup hex_digest simple_glob simple_isdir 4 (InputList [lit "in.txt"])
                  (lit "out.txt") (lit "shards") 100000 None (HashName (lit "md5"))
                  default_input_format (SizeStr (lit "10k")) false false 4 abac_world
       = (Raise ValueError, w')
       /\ queries_only abac_world w'.
Proof.
  split.
  - destruct (configuration_errors_come_first hex_digest simple_glob simple_isdir 4
                (InputList [lit "in.txt"]) (lit "out.txt") (lit "shards") 100000 None
                (HashName (lit "sha1")) default_input_format (SizeStr (lit "ten"))
                false false 4 abac_world) as (_ & H & _).
    apply H; reflexivity.
  - destruct (configuration_errors_come_first hex_digest simple_glob simple_isdir 4
                (InputList [lit "in.txt"]) (lit "out.txt") (lit "shards") 100000 None
                (HashName (lit "md5")) default_input_format (SizeStr (lit "10k"))
                false false 4 abac_world) as (_ & _ & H).
    apply (H eq_refl (Some 10240%Z) default_normalizer); reflexivity.
Defined.

(** ** A shard that is already sorted *)

Lemma sorted_by_code_unique (l1 : list (list N * list N)) : forall l2,
  StronglySorted (fun a b : list N * list N => str_ltb b.1 a.1 = false) l1 ->
  StronglySorted (fun a b : list N * list N => str_ltb b.1 a.1 = false) l2 ->
  (forall c, with_code c l1 = with_code c l2) -> l1 = l2.
Proof.
  induction l1 as [|r l1 IH]; intros l2 H1 H2 H.
  - apply with_code_perm in H. by apply Permutation_nil_l in H.
  - pose proof (with_code_perm _ _ H) as Hperm.
    destruct l2 as [|x l2]; [by apply Permutation_nil_r in Hperm|].
    apply StronglySorted_inv in H1 as [H1 Hr]. apply StronglySorted_inv in H2 as [H2 Hx].
    rewrite Forall_forall in Hr, Hx.
    assert (Hk : r.1 = x.1).
    { destruct (st_total _ strict_total_str r.1 x.1) as [E|[E|E]]; [done| |].
      - assert (Hin : r ∈ x :: l2) by (rewrite <- Hperm; by left).
        apply elem_of_cons in Hin as [->|Hin].
        + by rewrite (st_irrefl _ strict_total_str) in E.
        + specialize (Hx r Hin). cbn in Hx. congruence.
      - assert (Hin : x ∈ r :: l1) by (rewrite Hperm; by left).
        apply elem_of_cons in Hin as [->|Hin].
        + by rewrite (st_irrefl _ strict_total_str) in E.
        + specialize (Hr x Hin). cbn in Hr. congruence. }
    pose proof (H r.1) as Hc. rewrite !filter_cons in Hc.
    rewrite decide_True in Hc by done. rewrite decide_True in Hc by done.
    injection Hc as <- Hc. f_equal. apply IH; [done|done|].
    intros c. destruct (decide (r.1 = c)) as [<-|Hne]; [exact Hc|].
    specialize (H c). by rewrite !filter_cons_False in H.
Qed.

Lemma StronglySorted_sublist {A} (R : A -> A -> Prop) (l1 l2 : list A) :
  l1 `sublist_of` l2 -> StronglySorted R l2 -> StronglySorted R l1.
Proof.
  induction 1 as [|x l1 l2 Hs IH|x l1 l2 Hs IH]; intros H; [done| |].
  - apply StronglySorted_inv in H as [H Hx]. constructor; [by apply IH|].
    rewrite Forall_forall in Hx |- *. intros y Hy. apply Hx.
    by eapply elem_of_sublist.
  - apply StronglySorted_inv in H as [H _]. by apply IH.
Qed.

(** X16. Sorting a shard twice is sorting it once, and a sorted shard gives
    the merge the same lines: for the records a sort wrote, a second sort
    writes the same text, "first seen wins" keeps the same records as for
    the shard as it was before the sort, and it keeps them in ascending order
    of their fingerprints; so a merge with the sort of a shard that holds the
    sorted records leaves the shard as it is. *)
Theorem second_sort_changes_nothing (pairs : list (list N * list N)) :
  let recs := sorted_records (dict_group [] pairs) in
  sorted_records (dict_group [] recs) = recs
  /\ first_seen_wins recs ≡ₚ first_seen_wins pairs
  /\ StronglySorted (fun a b : list N * list N => str_ltb b.1 a.1 = false)
                    (first_seen_wins recs)
  /\ (Forall (fun r => clean_code r.1 /\ clean_line r.2) pairs ->
      forall output max_block_size st shard w,
        files w !! shard = Some (shard_text recs) ->
        exists st' w',
          merge_shard output max_block_size true st shard w = (Ok st', w')
          /\ files w' !! shard = Some (shard_text recs)).
Proof.
  cbn zeta. set (recs := sorted_records (dict_group [] pairs)).
  destruct (sorted_records_spec pairs) as (Hperm & Hcode & Hsorted). fold recs in Hperm, Hcode, Hsorted.
  destruct (sorted_records_spec recs) as (Hperm2 & Hcode2 & Hsorted2).
  assert (Hidem : sorted_records (dict_group [] recs) = recs).
  { by apply sorted_by_code_unique. }
  split; [exact Hidem|]. split; [|split].
  - apply with_code_perm. intros c. by rewrite !first_seen_wins_with_code, Hcode.
  - eapply StronglySorted_sublist; [|exact Hsorted]. apply first_seen_from_sublist.
  - intros Hclean output max_block_size st shard w Hw.
    assert (Hl : load_shard (file_lines (shard_text recs)) = pair_lines recs).
    { apply load_shard_text. rewrite Hperm. eapply Forall_impl; [exact Hclean|].
      intros x [(? & ? & ? & ? & ?) (? & ? & ? & ?)]. done. }
    rewrite (merge_shard_run output max_block_size true st shard w _ recs Hw Hl).
    eexists _, _. split; [reflexivity|]. cbn [files]. rewrite lookup_insert_eq.
    by rewrite Hidem.
Qed.

Lemma second_sort_changes_nothing_witness :
  exists st' w',
    merge_shard (lit "out.txt") None true (merge_init (lit "out.txt") None)
                (lit "shards/ab.shard")
                {| files := {[ lit "shards/ab.shard"
                               := shard_text (sorted_records
                                                (dict_group [] [(lit "ab2", lit "x");
                                                                (lit "ab1", lit "z");
                                                                (lit "ab2", lit "y")])) ]};
                   trace := [] |}
    = (Ok st', w')
    /\ files w' !! lit "shards/ab.shard"
       = Some (shard_text [(lit "ab1", lit "z"); (lit "ab2", lit "x"); (lit "ab2", lit "y")]).
Proof.
  destruct (second_sort_changes_nothing [(lit "ab2", lit "x"); (lit "ab1", lit "z");
                                         (lit "ab2", lit "y")]) as (_ & _ & _ & H).
  apply H.
  - repeat constructor; compute_done.
  - reflexivity.
Defined.

(** ** The blocks of a merge under a budget *)

Lemma merged_text_cons sp (shards : list (list N * list (list N * list N))) :
  merged_text (sp :: shards) = block_text (first_seen_wins sp.2).*2 ++ merged_text shards.
Proof. reflexivity. Qed.

Lemma block_decision_budget output B st size :
  output_path st = block_path output (block_index st) ->
  let st' := block_decision output (Some B) st size in
  output_path st' = block_path output (block_index st')
  /\ (block_index st' = block_index st \/ block_index st' = (block_index st + 1)%Z)
  /\ n_duplicated st' = n_duplicated st
  /\ n_deduplicated st' = n_deduplicated st.
Proof.
  intros Hp. cbn zeta. unfold block_decision.
  destruct (B <? block_size st + size)%Z; cbn; auto.
Qed.

Lemma merge_shards_budget_run output B sort
    (shards : list (list N * list (list N * list N))) :
  forall st w,
    output_path st = block_path output (block_index st) ->
    (forall i, (block_index st < i)%Z -> files w !! block_path output i = None) ->
    NoDup shards.*1 ->
    (forall i, block_path output i ∉ shards.*1) ->
    Forall (fun sp => holds_records (files w) sp.1 sp.2) shards ->
    exists st' w',
      merge_shards output (Some B) sort st shards.*1 w = (Ok st', w')
      /\ n_duplicated st' = (n_duplicated st + records_seen shards)%Z
      /\ n_deduplicated st' = (n_deduplicated st + records_kept shards)%Z
      /\ (block_index st <= block_index st')%Z
      /\ (forall i, (block_index st' < i)%Z -> files w' !! block_path output i = None)
      /\ (forall i, (i < block_index st)%Z ->
                    files w' !! block_path output i = files w !! block_path output i)
      /\ concat ((fun i => default [] (files w' !! block_path output i))
                   <$> seqZ (block_index st) (block_index st' - block_index st + 1))
         = default [] (files w !! block_path output (block_index st)) ++ merged_text shards.
Proof.
  induction shards as [|[s pairs] shards IH]; intros st w Hp Hfresh Hnd Hout Hall.
  - exists st, w. unfold records_seen, records_kept. cbn [fmap list_fmap merge_shards concat].
    rewrite !Z.add_0_r, Z.sub_diag. cbn [Z.add]. rewrite !app_nil_r.
    split; [done|]. split; [done|]. split; [done|]. split; [lia|].
    split; [done|]. split; [done|].
    rewrite seqZ_cons by lia. rewrite seqZ_nil by lia.
    cbn [fmap list_fmap concat]. by rewrite app_nil_r.
  - cbn [fmap list_fmap fst] in Hnd, Hout.
    apply NoDup_cons in Hnd as [Hs Hnd].
    apply Forall_cons in Hall as [(content & Hw & Hl) Hall]. cbn [fst snd] in Hw, Hl.
    cbn [fmap list_fmap fst merge_shards]. rewrite bind_run.
    rewrite (merge_shard_run output (Some B) sort st s w content pairs Hw Hl).
    set (texts := (first_seen_wins pairs).*2).
    set (st1 := block_decision output (Some B) (count st (pair_lines pairs) texts)
                               (texts_size texts)).
    destruct (block_decision_budget output B (count st (pair_lines pairs) texts)
                (texts_size texts) Hp) as (Hp1 & Hk1 & Hd1 & Hn1).
    fold st1 in Hp1, Hk1, Hd1, Hn1. cbn [count block_index n_duplicated n_deduplicated] in Hk1, Hd1, Hn1.
    rewrite !Hp1.
    set (k := block_index st) in *. set (k1 := block_index st1) in *.
    set (fs1 := <[block_path output k1
                  := default [] (files w !! block_path output k1) ++ block_text texts]>
                  (files w)).
    set (w1 := {| files := if sort then <[s := _]> fs1 else fs1; trace := _ |}).
    assert (Hs_block : forall i, block_path output i <> s).
    { intros i Hi. apply (Hout i). rewrite Hi. by left. }
    assert (Hother : forall q, q <> block_path output k1 -> q <> s ->
                               files w1 !! q = files w !! q).
    { intros q H1 H2. unfold w1, fs1. cbn [files].
      destruct sort; by rewrite ?lookup_insert_ne by done. }
    assert (Hblock : files w1 !! block_path output k1
                     = Some (default [] (files w !! block_path output k1) ++ block_text texts)).
    { unfold w1, fs1. cbn [files].
      destruct sort; rewrite ?lookup_insert_ne by (by apply not_eq_sym, Hs_block);
        apply lookup_insert_eq. }
    destruct (IH st1 w1) as (st' & w' & E & Hd & Hn & Hle & Hfresh' & Hlow & Hcat).
    { exact Hp1. }
    { intros i Hi. fold k1 in Hi. rewrite Hother.
      - apply Hfresh. lia.
      - intros Heq%block_path_inj. lia.
      - apply Hs_block. }
    { exact Hnd. }
    { intros i Hi. apply (Hout i). by right. }
    { apply Forall_forall. intros sp Hsp. rewrite Forall_forall in Hall.
      destruct (Hall sp Hsp) as (c & Hc & Hlc). exists c. split; [|done].
      rewrite Hother; [done| |].
      - intros Heq. apply (Hout k1). right. rewrite <- Heq. by apply list_elem_of_fmap_2.
      - intros Heq. apply Hs. rewrite <- Heq. by apply list_elem_of_fmap_2. }
    fold k1 in Hle, Hlow, Hcat.
    exists st', w'. split; [exact E|]. split; [|split; [|split; [|split; [|split]]]].
    + rewrite Hd, Hd1. unfold records_seen. cbn [fmap list_fmap snd concat].
      unfold pair_lines. rewrite length_app, length_fmap. lia.
    + rewrite Hn, Hn1. unfold records_kept. cbn [fmap list_fmap snd concat]. unfold texts.
      rewrite length_app, length_fmap. lia.
    + lia.
    + exact Hfresh'.
    + intros i Hi. rewrite Hlow by lia. apply Hother; [|apply Hs_block].
      intros Heq%block_path_inj. lia.
    + rewrite merged_text_cons. cbn [snd]. fold texts.
      destruct Hk1 as [Hk1|Hk1].
      * rewrite Hk1 in Hcat, Hblock. rewrite Hcat, Hblock. cbn [default]. unfold id.
        by rewrite <- app_assoc.
      * assert (Hnew : files w !! block_path output k1 = None) by (apply Hfresh; lia).
        rewrite Hnew in Hblock. rewrite Hblock in Hcat. cbn [default app] in Hcat.
        rewrite seqZ_cons by lia. cbn [fmap list_fmap concat].
        replace (Z.succ k) with k1 by lia.
        replace (Z.pred (block_index st' - k + 1)) with (block_index st' - k1 + 1)%Z by lia.
        rewrite Hcat. f_equal. rewrite Hlow by lia. f_equal. apply Hother; [|apply Hs_block].
        intros Heq%block_path_inj. lia.
Qed.

Section BlockFacts.
Variable glob : gmap (list N) (list N) -> list N -> list (list N).

(** X17. A budget loses no line and changes no order: when the shards
    listed are distinct files that hold records, none of them is a block
    file and no block file exists yet, the merge under a budget returns,
    and the block files, read one after the other in the order of their
    numbers up to the last one, hold exactly the text the merge without a
    budget appends to its single output; no block file beyond the last one
    exists.  What is printed is the same percentage. *)
Theorem blocks_hold_the_merged_text output shard_root p B sort w
    (shards : list (list N * list (list N * list N))) :
  glob (files w) (shard_pattern shard_root p) = shards.*1 ->
  NoDup shards.*1 ->
  (forall i, block_path output i ∉ shards.*1) ->
  (forall i, files w !! block_path output i = None) ->
  Forall (fun sp => holds_records (files w) sp.1 sp.2) shards ->
  exists w' last,
    task_merge glob output shard_root p (Some B) sort w
    = (percentage (records_kept shards) (records_seen shards), w')
    /\ (0 <= last)%Z
    /\ concat ((fun i => default [] (files w' !! block_path output i)) <$> seqZ 0 (last + 1))
       = merged_text shards
    /\ (forall i, (last < i)%Z -> files w' !! block_path output i = None).
Proof.
  intros Hg Hnd Hout Hnew Hall. unfold task_merge.
  rewrite bind_run, os_glob_run, Hg, bind_run. cbn [emit]. rewrite bind_run.
  destruct (merge_shards_budget_run output B sort shards (merge_init output (Some B))
              (log (EvMakedirs output) (log (EvGlob (shard_pattern shard_root p)) w)))
    as (st' & w' & E & Hd & Hk & Hle & Hfresh & _ & Hcat);
    [reflexivity|intros i _; apply Hnew|exact Hnd|exact Hout|exact Hall|].
  rewrite E. unfold lift. rewrite Hd, Hk.
  cbn [merge_init n_duplicated n_deduplicated block_index files log] in *.
  rewrite !Z.add_0_l. exists w', (block_index st'). split; [done|]. split; [exact Hle|].
  split; [|exact Hfresh].
  rewrite Z.sub_0_r in Hcat. rewrite Hcat, Hnew. done.
Qed.
End BlockFacts.

Lemma blocks_hold_the_merged_text_witness :
  exists w' last,
    task_merge simple_glob (lit "out.txt") (lit "shards") 2 (Some 4%Z) false shards_world
    = (percentage 3 4, w')
    /\ concat ((fun i => default [] (files w' !! block_path (lit "out.txt") i))
                 <$> seqZ 0 (last + 1))
       = lit "c" ++ [LF] ++ lit "bbbb" ++ [LF] ++ lit "a" ++ [LF].
Proof.
  assert (Hb : forall i q,
             q ∈ [lit "shards/63.shard"; lit "shards/62.shard"; lit "shards/61.shard"] ->
             block_path (lit "out.txt") i <> q).
  { intros i q Hq Heq. apply (f_equal head) in Heq.
    repeat (apply elem_of_cons in Hq as [->|Hq]; [lazy in Heq; discriminate Heq|]).
    apply elem_of_nil in Hq. destruct Hq. }
  destruct (blocks_hold_the_merged_text simple_glob (lit "out.txt") (lit "shards") 2 4 false
              shards_world
              [(lit "shards/63.shard", [(lit "63", lit "c")]);
               (lit "shards/62.shard", [(lit "62", lit "bbbb")]);
               (lit "shards/61.shard", [(lit "61", lit "a"); (lit "61", lit "a")])])
    as (w' & last & E & _ & Hcat & _).
  - reflexivity.
  - compute_done.
  - intros i Hi. by apply (Hb i _ Hi).
  - intros i. destruct (files shards_world !! block_path (lit "out.txt") i) eqn:El; [|done].
    exfalso. assert (Hs : is_Some (files shards_world !! block_path (lit "out.txt") i)) by done.
    apply is_Some_keys in Hs. vm_compute (map_to_list _).*1 in Hs. by apply (Hb i _ Hs).
  - repeat constructor; (eexists; split; reflexivity).
  - exists w', last. split; [exact E|exact Hcat].
Defined.

(** ** The clean-up of [task_dedup] *)

Section CleanUpFacts.
Variable sha1 : list Byte.byte -> list N.
Variable glob : gmap (list N) (list N) -> list N -> list (list N).
Variable isdir : gmap (list N) (list N) -> list N -> bool.
Variable cpu_count : Z.

End CleanUpFacts.

